(** * mock-generator: the image post-processing pipeline

    A shallow embedding of the five TypeScript services that make up the
    post-processing pipeline of [bramato/mock-generator]:

    - [ImageUrlExtractor]       (src/services/image-url-extractor.ts)
    - [DescriptionGenerator]    (src/services/description-generator.ts)
    - [ImageProcessingAnalyzer] (src/services/image-processing-analyzer.ts)
    - [UrlReplacer]             (src/services/url-replacer.ts)
    - [PostProcessingOrchestrator]
                                (src/services/post-processing-orchestrator.ts)

    Modelling conventions.

    - A JavaScript string is the list of its UTF-16 code units ([list N]);
      [js "..."] writes an ASCII literal.
    - A JavaScript value lives in a store: objects and arrays are nodes of a
      [heap], referred to by location, so that aliasing, [===] on objects and
      in-place mutation ([obj[key] = v]) are what they are in the source.
    - A JavaScript number is an exact rational, extended with the IEEE
      special values where the code can produce them ([jsnum]).  Rounding of
      binary64 arithmetic is not modelled: a quotient within rounding of a
      threshold can fall on the other side of it in the program, and a
      whole number is what the program holds below 2^53 only
      ([safeInteger]), which the theorems on reading and printing numbers
      assume.
    - Code that can throw returns [option]; [None] is the exception.  A walk
      or a loop that need not end is given fuel, and is [None] as well when
      the fuel is spent; a theorem about a result says what fuel gives it.
    - The image generator is outside the program: a function from the
      requests of a run to its answers.
    - Library functions with no finite description ([toLowerCase] on all of
      Unicode, [Math.random], [Math.log10], [String(v)]) are fields of the
      [Runtime] class; every general theorem holds for every runtime. *)

From Stdlib Require Import QArith Qabs Qminmax Qround Lqa ZArith Ascii String.
From Stdlib Require Import Sorting.Sorted.
From stdpp Require Import gmap list strings pretty.

Set Default Proof Using "Type".

(** ** JavaScript strings *)

Abbreviation jsstring := (list N).

Definition js (s : string) : jsstring :=
  (λ a, N_of_ascii a) <$> String.list_ascii_of_string s.

Definition isSome {A} (o : option A) : bool :=
  match o with Some _ => true | None => false end.

(** Truthiness of a string: every string but the empty one. *)
Definition truthy_str (s : jsstring) : bool :=
  match s with [] => false | _ => true end.

(** A possibly undefined string that is truthy: defined and not empty. *)
Definition found (o : option jsstring) : bool :=
  match o with Some s => truthy_str s | None => false end.

(** [a || b] on two possibly undefined strings. *)
Definition str_or (a b : option jsstring) : option jsstring :=
  match a with
  | Some s => if truthy_str s then Some s else b
  | None => b
  end.

Definition in_range (lo hi c : N) : bool := (lo <=? c)%N && (c <=? hi)%N.

(** The regular-expression classes [\d], [\w] and [\s]. *)
Definition is_digit (c : N) : bool := in_range 48 57 c.

Definition is_word (c : N) : bool :=
  is_digit c || in_range 65 90 c || in_range 97 122 c || (c =? 95)%N.

Definition is_line_terminator (c : N) : bool :=
  (c =? 10)%N || (c =? 13)%N || (c =? 8232)%N || (c =? 8233)%N.

Definition is_space (c : N) : bool :=
  in_range 9 13 c || (c =? 32)%N || (c =? 160)%N || (c =? 5760)%N
  || in_range 8192 8202 c || (c =? 8232)%N || (c =? 8233)%N
  || (c =? 8239)%N || (c =? 8287)%N || (c =? 12288)%N || (c =? 65279)%N.

(** A code unit of a surrogate pair (U+D800 .. U+DFFF). *)
Definition is_surrogate (c : N) : bool := in_range 55296 57343 c.

Definition is_ascii (c : N) : bool := (c <? 128)%N.

(** Canonicalisation of the [i] flag, which for an ASCII pattern character
    accepts exactly the two cases of that character. *)
Definition upper_unit (c : N) : N := if in_range 97 122 c then (c - 32)%N else c.

Definition lower_unit (c : N) : N := if in_range 65 90 c then (c + 32)%N else c.

(** *** Matching *)

Fixpoint strip_prefix (p s : jsstring) : option jsstring :=
  match p, s with
  | [], _ => Some s
  | a :: p', b :: s' => if (a =? b)%N then strip_prefix p' s' else None
  | _ :: _, [] => None
  end.

Fixpoint strip_prefix_ci (p s : jsstring) : option jsstring :=
  match p, s with
  | [], _ => Some s
  | a :: p', b :: s' =>
      if (upper_unit a =? upper_unit b)%N then strip_prefix_ci p' s' else None
  | _ :: _, [] => None
  end.

Definition lit (p : string) : jsstring → option jsstring := strip_prefix (js p).
Definition lit_ci (p : string) : jsstring → option jsstring := strip_prefix_ci (js p).

(** The leftmost position at which the matcher [m] succeeds. *)
Fixpoint search {A} (m : jsstring → option A) (s : jsstring) : option A :=
  match m s with
  | Some r => Some r
  | None => match s with [] => None | _ :: s' => search m s' end
  end.

(** [s.includes(sub)] *)
Definition includes (s : jsstring) (sub : string) : bool :=
  isSome (search (lit sub) s).

Fixpoint span (P : N → bool) (s : jsstring) : jsstring * jsstring :=
  match s with
  | c :: s' => if P c then let '(a, b) := span P s' in (c :: a, b) else ([], s)
  | [] => ([], [])
  end.

(** A greedy non-empty run [P+]: the run and what follows it. *)
Definition run1 (P : N → bool) (s : jsstring) : option (jsstring * jsstring) :=
  match span P s with
  | ([], _) => None
  | r => Some r
  end.

(** [parseInt] of a string of decimal digits. *)
Definition parseInt (ds : jsstring) : N :=
  fold_left (λ acc c, acc * 10 + (c - 48))%N ds 0%N.

(** [`${n}`] for a natural number. *)
Definition of_nat_str (n : nat) : jsstring := js (pretty n).
Definition of_N_str (n : N) : jsstring := js (pretty n).

(** [s.split(re)] where [re] is [P+] for a class [P]: the pieces between the
    maximal runs of [P]; a run at either end leaves an empty piece there. *)
Fixpoint split_go (P : N → bool) (s cur : jsstring) (in_run : bool) : list jsstring :=
  match s with
  | [] => [cur]
  | c :: s' =>
      if P c then
        if in_run then split_go P s' cur true else cur :: split_go P s' [] true
      else split_go P s' (cur ++ [c]) false
  end.

Definition split_on (P : N → bool) (s : jsstring) : list jsstring :=
  split_go P s [] false.

(** [s.replace(/\s+/g, ' ')] *)
Fixpoint collapse_spaces (s : jsstring) (in_run : bool) : jsstring :=
  match s with
  | [] => []
  | c :: s' =>
      if is_space c then
        if in_run then collapse_spaces s' true else 32%N :: collapse_spaces s' true
      else c :: collapse_spaces s' false
  end.

Fixpoint trim_start (s : jsstring) : jsstring :=
  match s with
  | c :: s' => if is_space c then trim_start s' else s
  | [] => []
  end.

(** [s.trim()] *)
Definition trim (s : jsstring) : jsstring :=
  reverse (trim_start (reverse (trim_start s))).

(** [s.replace(/\?.*$/, '')]: cut at the first [?] that no line terminator
    follows ([.] does not match one). *)
Fixpoint strip_query (s : jsstring) : jsstring :=
  match s with
  | [] => []
  | c :: s' =>
      if (c =? 63)%N && forallb (λ d, negb (is_line_terminator d)) s' then []
      else c :: strip_query s'
  end.

(** [s.replace(/\/$/, '')] *)
Definition strip_trailing_slash (s : jsstring) : jsstring :=
  match reverse s with
  | c :: r => if (c =? 47)%N then reverse r else s
  | [] => s
  end.

(** ** JavaScript numbers *)

Inductive jsnum := Fin (q : Q) | PInf | NInf | NaN.

Definition Qltb (a b : Q) : bool := negb (Qle_bool b a).

(** [a / b]; a zero divisor is [+0]. *)
Definition jdiv (a b : jsnum) : jsnum :=
  match a, b with
  | NaN, _ | _, NaN => NaN
  | Fin x, Fin y =>
      if Qeq_bool y 0 then
        if Qeq_bool x 0 then NaN else if Qle_bool 0 x then PInf else NInf
      else Fin (x / y)
  | Fin _, _ => Fin 0
  | PInf, Fin y => if Qle_bool 0 y then PInf else NInf
  | NInf, Fin y => if Qle_bool 0 y then NInf else PInf
  | _, _ => NaN
  end.

Definition jsub (a b : jsnum) : jsnum :=
  match a, b with
  | NaN, _ | _, NaN => NaN
  | Fin x, Fin y => Fin (x - y)
  | Fin _, PInf => NInf
  | Fin _, NInf => PInf
  | PInf, PInf | NInf, NInf => NaN
  | PInf, _ => PInf
  | NInf, _ => NInf
  end.

Definition jmul (a b : jsnum) : jsnum :=
  let sign_of (q : Q) (pos : jsnum) (neg : jsnum) :=
    if Qeq_bool q 0 then NaN else if Qle_bool 0 q then pos else neg in
  match a, b with
  | NaN, _ | _, NaN => NaN
  | Fin x, Fin y => Fin (x * y)
  | Fin x, PInf | PInf, Fin x => sign_of x PInf NInf
  | Fin x, NInf | NInf, Fin x => sign_of x NInf PInf
  | PInf, PInf | NInf, NInf => PInf
  | PInf, NInf | NInf, PInf => NInf
  end.

(** [Math.abs] *)
Definition jabs (a : jsnum) : jsnum :=
  match a with
  | Fin x => Fin (Qabs x)
  | PInf | NInf => PInf
  | NaN => NaN
  end.

(** [a < b] and [a <= b]; every comparison with [NaN] is false. *)
Definition jlt (a b : jsnum) : bool :=
  match a, b with
  | NaN, _ | _, NaN => false
  | Fin x, Fin y => Qltb x y
  | _, NInf | PInf, _ => false
  | NInf, _ | _, PInf => true
  end.

Definition jle (a b : jsnum) : bool :=
  match a, b with
  | NaN, _ | _, NaN => false
  | Fin x, Fin y => Qle_bool x y
  | NInf, _ | _, PInf => true
  | _, NInf | PInf, _ => false
  end.

Definition jnum_of_N (n : N) : jsnum := Fin (inject_Z (Z.of_N n)).

(** [a === b] on numbers; [NaN] is equal to nothing. *)
Definition jeq (a b : jsnum) : bool :=
  match a, b with
  | Fin x, Fin y => Qeq_bool x y
  | PInf, PInf | NInf, NInf => true
  | _, _ => false
  end.

(** [Math.round]: the nearest integer, a half going up. *)
Definition jround (a : jsnum) : jsnum :=
  match a with
  | Fin q => Fin (inject_Z (Qfloor (q + (1 # 2))))
  | _ => a
  end.

(** [`${x}`] for a number that is an integer, an infinity or [NaN].
    (Integers of 22 digits and more, which are printed with an exponent, are
    neither counts nor percentages.) *)
Definition show_number (a : jsnum) : jsstring :=
  match a with
  | Fin q => js (pretty (Qfloor q))
  | PInf => js "Infinity"
  | NInf => js "-Infinity"
  | NaN => js "NaN"
  end.

(** ** The store: JSON documents as JavaScript objects *)

Inductive val :=
  | VNull
  | VBool (b : bool)
  | VNum (q : Q)
  | VStr (s : jsstring)
  | VRef (l : nat).

(** A node holds the own properties of an object in the order of
    [Object.entries], or the elements of an array. *)
Inductive node :=
  | NObj (fields : list (jsstring * val))
  | NArr (items : list val).

Abbreviation heap := (list node).

(** Truthiness of a value. *)
Definition truthy (v : val) : bool :=
  match v with
  | VNull => false
  | VBool b => b
  | VNum q => negb (Qeq_bool q 0)
  | VStr s => truthy_str s
  | VRef _ => true
  end.

Definition truthy_opt (o : option val) : bool :=
  match o with Some v => truthy v | None => false end.

(** [a === b]: by content on primitives, by identity on objects. *)
Definition strict_eq (a b : val) : bool :=
  match a, b with
  | VNull, VNull => true
  | VBool x, VBool y => bool_decide (x = y)
  | VNum x, VNum y => Qeq_bool x y
  | VStr x, VStr y => bool_decide (x = y)
  | VRef x, VRef y => bool_decide (x = y)
  | _, _ => false
  end.

Fixpoint assoc (k : jsstring) (kvs : list (jsstring * val)) : option val :=
  match kvs with
  | [] => None
  | (k', v) :: r => if bool_decide (k = k') then Some v else assoc k r
  end.

(** A [Map] from strings to arrays, in insertion order:
    [groups.get(key).push(x)], or a new entry at the end. *)
Fixpoint pushTo {A} (key : jsstring) (x : A) (groups : list (jsstring * list A))
  : list (jsstring * list A) :=
  match groups with
  | [] => [(key, [x])]
  | (k, xs) :: rest =>
      if bool_decide (k = key) then (k, xs ++ [x]) :: rest
      else (k, xs) :: pushTo key x rest
  end.

(** [obj[key] = v]: the property keeps its place, a new one goes last. *)
Fixpoint assoc_set (k : jsstring) (v : val) (kvs : list (jsstring * val))
  : list (jsstring * val) :=
  match kvs with
  | [] => [(k, v)]
  | (k', v') :: r =>
      if bool_decide (k = k') then (k', v) :: r else (k', v') :: assoc_set k v r
  end.

(** [ctx[field]]: [None] is [undefined].  Only named own properties are
    looked up by the code, so arrays and primitives have none of them. *)
Definition js_get (h : heap) (ctx : val) (field : string) : option val :=
  match ctx with
  | VRef l =>
      match h !! l with
      | Some (NObj kvs) => assoc (js field) kvs
      | _ => None
      end
  | _ => None
  end.

(** The functions of the JavaScript library that the model leaves open. *)
Class Runtime := {
  (** [String.prototype.toLowerCase] *)
  toLowerCase : jsstring → jsstring;
  (** [Math.floor(Math.random() * n)] is [random_draw k mod n] at the [k]-th
      description generated in a run. *)
  random_draw : nat → nat;
  (** [Math.round(p + Math.log10(x))] for [x > 0] *)
  round_log10 : Q → Q → Z;
  (** [String(v)] for a truthy value that is not a string *)
  ToString : heap → val → jsstring;
  (** The messages [validateReplacementUrls] appends after asking the
      network about each of the given new URLs. *)
  validation_errors : list jsstring → list jsstring;
}.

(** A loop whose body can throw: [forEach] with the state passed along. *)
Fixpoint forEachM {S A} (f : S → A → option S) (l : list A) (s : S) : option S :=
  match l with
  | [] => Some s
  | a :: l' => match f s a with Some s' => forEachM f l' s' | None => None end
  end.

(** A [Map] from strings to counters: [m.set(k, (m.get(k) || 0) + 1)]. *)
Fixpoint bump (k : jsstring) (m : list (jsstring * nat)) : list (jsstring * nat) :=
  match m with
  | [] => [(k, 1)]
  | (k', n) :: rest =>
      if bool_decide (k' = k) then (k', n + 1) :: rest else (k', n) :: bump k rest
  end.

(** [items.slice(start, end)] with the relative indices of the language: a
    negative index counts from the end. *)
Definition slice {A} (items : list A) (start end_ : Z) : list A :=
  let len := Z.of_nat (length items) in
  let clamp (i : Z) := if (i <? 0)%Z then Z.max (len + i) 0 else Z.min i len in
  let k := clamp start in
  let final := clamp end_ in
  take (Z.to_nat (final - k)) (drop (Z.to_nat k) items).

(** ** The data model shared by the services *)

(** Widths and heights come out of [parseInt] on digits: naturals. *)
Record Dimensions := { width : N; height : N }.

Global Instance Dimensions_eq_dec : EqDecision Dimensions.
Proof. solve_decision. Defined.

(** [ImageUrlInfo] (image-url-extractor.ts): one placeholder URL found at one
    location; [context] is the enclosing object itself, not a copy. *)
Record ImageUrlInfo := {
  url : jsstring;
  path : jsstring;
  fieldName : jsstring;
  context : val;
  dimensions : Dimensions;
  seed : option jsstring;
  itemIndex : nat;
}.

(** [ImageDescription] (description-generator.ts) *)
Record ImageDescription := {
  prompt : jsstring;
  style : jsstring;
  category : jsstring;
  confidence : Q;
  baseContext : jsstring;
  enhancedPrompt : jsstring;
}.

Inductive ProcessingType := generate | resize | crop | reuse.

Global Instance ProcessingType_eq_dec : EqDecision ProcessingType.
Proof. solve_decision. Defined.

Record CropRegion := { crop_x : N; crop_y : N; crop_width : N; crop_height : N }.

(** [ProcessingPlan]; [description] is [undefined] when the map has no entry
    for the occurrence. *)
Record ProcessingPlan := {
  imageId : jsstring;
  processingType : ProcessingType;
  sourceImageId : option jsstring;
  targetDimensions : Dimensions;
  cropRegion : option CropRegion;
  description : option ImageDescription;
  priority : Z;
  estimatedCost : Q;
}.

Record ProcessingGroup := {
  masterImageId : jsstring;
  groupDescription : option ImageDescription;
  groupTargetDimensions : Dimensions;
  variants : list ProcessingPlan;
  totalCost : Q;
}.

Record OptimizationResult := {
  groups : list ProcessingGroup;
  totalImages : nat;
  generatedImages : nat;
  resizedImages : nat;
  croppedImages : nat;
  reusedImages : nat;
  estimatedSavings : jsnum;
}.

(** ** ImageProcessingAnalyzer *)

Module ImageProcessingAnalyzer.
Section Analyzer.
Context `{Runtime}.

(** The store the occurrences' contexts live in. *)
Variable h : heap.

Definition SIMILARITY_THRESHOLD : Q := 8 # 10.
Definition MIN_RESIZE_RATIO : Q := 5 # 10.
Definition MAX_RESIZE_RATIO : Q := 2.
Definition CROP_EFFICIENCY_THRESHOLD : Q := 6 # 10.

(** [new Set(s.toLowerCase().split(/\s+/))] *)
Definition words (s : jsstring) : gset jsstring :=
  list_to_set (split_on is_space (toLowerCase s)).

(** A split has at least one piece, so the union is never empty and the
    quotient is an ordinary one. *)
Definition calculateDescriptionSimilarity (desc1 desc2 : ImageDescription) : Q :=
  let categorySimilarity : Q :=
    if bool_decide (category desc1 = category desc2) then (4 # 10)%Q else 0%Q in
  let words1 := words (prompt desc1) in
  let words2 := words (prompt desc2) in
  let intersection := words1 ∩ words2 in
  let union := words1 ∪ words2 in
  let wordSimilarity : Q :=
    (inject_Z (Z.of_nat (size intersection)) / inject_Z (Z.of_nat (size union))
     * (4 # 10))%Q in
  let styleSimilarity : Q :=
    if bool_decide (style desc1 = style desc2) then (2 # 10)%Q else 0%Q in
  (categorySimilarity + wordSimilarity + styleSimilarity)%Q.

(** One row of the edit-distance matrix from the row above it: [diag] and
    [up] are [matrix[i-1][j-1]] and [matrix[i-1][j]], [left] is
    [matrix[i][j-1]]. *)
Fixpoint levenshteinRow (c2 : N) (str1 : jsstring) (diag left : nat)
    (above : list nat) : list nat :=
  match str1, above with
  | c1 :: str1', up :: above' =>
      let v := if (c2 =? c1)%N then diag
               else Nat.min (diag + 1) (Nat.min (left + 1) (up + 1)) in
      v :: levenshteinRow c2 str1' up v above'
  | _, _ => []
  end.

Definition levenshteinDistance (str1 str2 : jsstring) : nat :=
  let row0 := seq 0 (S (length str1)) in
  let last_row :=
    fst (fold_left
           (λ '(above, i) c2,
              (i :: levenshteinRow c2 str1 (hd 0 above) i (tl above), S i))
           str2 (row0, 1)) in
  List.last last_row 0.

Definition calculateStringSimilarity (str1 str2 : jsstring) : Q :=
  let longer := if bool_decide (length str2 < length str1) then str1 else str2 in
  let shorter := if bool_decide (length str2 < length str1) then str2 else str1 in
  if bool_decide (length longer = 0) then 1%Q
  else
    let distance := levenshteinDistance longer shorter in
    ((inject_Z (Z.of_nat (length longer)) - inject_Z (Z.of_nat distance))
     / inject_Z (Z.of_nat (length longer)))%Q.

Definition keyFields : list string :=
  ["category"; "type"; "brand"; "location"; "name"]%string.

Definition calculateContextSimilarity (img1 img2 : ImageUrlInfo) : Q :=
  let context1 := context img1 in
  let context2 := context img2 in
  if negb (truthy context1) || negb (truthy context2) then 0%Q
  else
    let '(similarity, comparisons) :=
      fold_left
        (λ '(similarity, comparisons) field,
           match js_get h context1 field, js_get h context2 field with
           | Some v1, Some v2 =>
               if truthy v1 && truthy v2 then
                 if strict_eq v1 v2 then ((similarity + 1)%Q, S comparisons)
                 else
                   match v1, v2 with
                   | VStr s1, VStr s2 =>
                       ((similarity + calculateStringSimilarity s1 s2)%Q,
                        S comparisons)
                   | _, _ => (similarity, S comparisons)
                   end
               else (similarity, comparisons)
           | _, _ => (similarity, comparisons)
           end)
        keyFields (0%Q, 0) in
    if bool_decide (0 < comparisons) then
      (similarity / inject_Z (Z.of_nat comparisons))%Q
    else 0%Q.

Abbreviation descriptions_map := (gmap jsstring ImageDescription).

Definition similar (image otherImage : ImageUrlInfo)
    (currentDesc otherDesc : ImageDescription) : bool :=
  let similarity := calculateDescriptionSimilarity currentDesc otherDesc in
  let contextSimilarity := calculateContextSimilarity image otherImage in
  Qle_bool SIMILARITY_THRESHOLD similarity
  || Qle_bool SIMILARITY_THRESHOLD contextSimilarity.

(** The body of the inner [forEach] of [groupBySimilarity]. *)
Definition collectSimilar (descriptions : gmap jsstring ImageDescription)
    (image : ImageUrlInfo) (currentDesc : ImageDescription)
    (st : list ImageUrlInfo * gset jsstring) (otherImage : ImageUrlInfo)
  : list ImageUrlInfo * gset jsstring :=
  let '(currentGroup, processed) := st in
  if bool_decide (path otherImage ∈ processed) then st
  else
    match descriptions !! path otherImage with
    | None => st
    | Some otherDesc =>
        if similar image otherImage currentDesc otherDesc
        then (currentGroup ++ [otherImage], {[path otherImage]} ∪ processed)
        else st
    end.

(** The body of the outer [forEach]. *)
Definition startGroup (images : list ImageUrlInfo)
    (descriptions : gmap jsstring ImageDescription)
    (st : list (list ImageUrlInfo) * gset jsstring) (image : ImageUrlInfo)
  : list (list ImageUrlInfo) * gset jsstring :=
  let '(groups, processed) := st in
  if bool_decide (path image ∈ processed) then st
  else
    let processed := {[path image]} ∪ processed in
    match descriptions !! path image with
    | None => (groups, processed)
    | Some currentDesc =>
        let '(currentGroup, processed) :=
          fold_left (collectSimilar descriptions image currentDesc) images
                    ([image], processed) in
        (groups ++ [currentGroup], processed)
    end.

Definition groupBySimilarity (images : list ImageUrlInfo)
    (descriptions : gmap jsstring ImageDescription) : list (list ImageUrlInfo) :=
  fst (fold_left (startGroup images descriptions) images ([], ∅)).

Definition area (d : Dimensions) : N := width d * height d.

(** [(desc?.confidence || 0) * 100 + (w * h) / 10000] *)
Definition masterScore (descriptions : gmap jsstring ImageDescription)
    (image : ImageUrlInfo) : Q :=
  (match descriptions !! path image with
   | Some d => confidence d
   | None => 0
   end * 100 + inject_Z (Z.of_N (area (dimensions image))) / 10000)%Q.

(** [images.reduce(...)] without an initial value: it throws on an empty
    array and starts from the first element otherwise. *)
Definition selectMasterImage (images : list ImageUrlInfo)
    (descriptions : gmap jsstring ImageDescription) : option ImageUrlInfo :=
  match images with
  | [] => None
  | first :: rest =>
      Some (fold_left
              (λ best current,
                 if Qltb (masterScore descriptions best)
                         (masterScore descriptions current)
                 then current else best)
              rest first)
  end.

Definition canCropEfficiently (sourceDims targetDims : Dimensions) : bool :=
  let sourceArea := area sourceDims in
  let targetArea := area targetDims in
  let efficiency := jdiv (jnum_of_N targetArea) (jnum_of_N sourceArea) in
  bool_decide (width targetDims ≤ width sourceDims)%N
  && bool_decide (height targetDims ≤ height sourceDims)%N
  && jle (Fin CROP_EFFICIENCY_THRESHOLD) efficiency.

(** [Math.floor(Math.max(0, (s - t) / 2))]: on naturals the difference
    stops at 0 and the quotient is rounded down. *)
Definition calculateOptimalCrop (sourceDims targetDims : Dimensions) : CropRegion :=
  {| crop_x := (width sourceDims - width targetDims) / 2;
     crop_y := (height sourceDims - height targetDims) / 2;
     crop_width := width targetDims;
     crop_height := height targetDims |}.

(** [log10(0)] is [-Infinity], which the clamp turns into 1. *)
Definition calculatePriority (image : ImageUrlInfo) (description : ImageDescription) : Z :=
  let priority := (confidence description * 10)%Q in
  let fieldName := toLowerCase (fieldName image) in
  let priority :=
    if includes fieldName "banner" || includes fieldName "hero" then (priority + 5)%Q
    else if includes fieldName "thumb" then (priority - 2)%Q
    else priority in
  let area := area (dimensions image) in
  if bool_decide (area = 0)%N then 1%Z
  else Z.max 1 (Z.min 10 (round_log10 priority (inject_Z (Z.of_N area) / 10000)%Q)).

(** The chain of tests of [createVariantPlan]: the processing type, the crop
    region and the cost of a target relative to the master. *)
Definition classify (masterDims targetDims : Dimensions)
  : ProcessingType * option CropRegion * Q :=
  let widthRatio := jdiv (jnum_of_N (width targetDims)) (jnum_of_N (width masterDims)) in
  let heightRatio := jdiv (jnum_of_N (height targetDims)) (jnum_of_N (height masterDims)) in
  let aspectRatioMatch := jlt (jabs (jsub widthRatio heightRatio)) (Fin (1 # 10)%Q) in
  if bool_decide (width targetDims = width masterDims)
     && bool_decide (height targetDims = height masterDims)
  then (reuse, None, (1 # 10)%Q)
  else if aspectRatioMatch
          && jle (Fin MIN_RESIZE_RATIO) widthRatio
          && jle widthRatio (Fin MAX_RESIZE_RATIO)
  then (resize, None, (2 # 10)%Q)
  else if canCropEfficiently masterDims targetDims
  then (crop, Some (calculateOptimalCrop masterDims targetDims), (3 # 10)%Q)
  else (generate, None, 1%Q).

(** [calculatePriority] reads [targetDesc.confidence], so an occurrence with
    no description makes the call throw. *)
Definition createVariantPlan (targetImage masterImage : ImageUrlInfo)
    (descriptions : gmap jsstring ImageDescription) : option ProcessingPlan :=
  targetDesc ← descriptions !! path targetImage;
  let masterDims := dimensions masterImage in
  let targetDims := dimensions targetImage in
  let '(processingType, cropRegion, estimatedCost) := classify masterDims targetDims in
  Some {| imageId := path targetImage;
          processingType := processingType;
          sourceImageId :=
            if bool_decide (processingType ≠ generate)
            then Some (path masterImage) else None;
          targetDimensions := targetDims;
          cropRegion := cropRegion;
          description := Some targetDesc;
          priority := calculatePriority targetImage targetDesc;
          estimatedCost := estimatedCost |}.

Definition masterPlan (image : ImageUrlInfo)
    (descriptions : gmap jsstring ImageDescription) : ProcessingPlan :=
  {| imageId := path image;
     processingType := generate;
     sourceImageId := None;
     targetDimensions := dimensions image;
     cropRegion := None;
     description := descriptions !! path image;
     priority := 1;
     estimatedCost := 1 |}.

(** The body of the [forEach] of [optimizeGroup] over the group's images. *)
Definition addVariant (masterImage : ImageUrlInfo)
    (descriptions : gmap jsstring ImageDescription)
    (st : list ProcessingPlan * Q) (image : ImageUrlInfo)
  : option (list ProcessingPlan * Q) :=
  let '(variants, totalCost) := st in
  if bool_decide (path image = path masterImage) then Some st
  else
    plan ← createVariantPlan image masterImage descriptions;
    Some (variants ++ [plan], (totalCost + estimatedCost plan)%Q).

Definition optimizeGroup (images : list ImageUrlInfo)
    (descriptions : gmap jsstring ImageDescription) : option ProcessingGroup :=
  match images with
  | [image] =>
      Some {| masterImageId := path image;
              groupDescription := descriptions !! path image;
              groupTargetDimensions := dimensions image;
              variants := [masterPlan image descriptions];
              totalCost := 1 |}
  | _ =>
      masterImage ← selectMasterImage images descriptions;
      '(variants, totalCost) ←
        forEachM (addVariant masterImage descriptions) images
                 ([masterPlan masterImage descriptions], 1%Q);
      Some {| masterImageId := path masterImage;
              groupDescription := descriptions !! path masterImage;
              groupTargetDimensions := dimensions masterImage;
              variants := variants;
              totalCost := totalCost |}
  end.

Definition countType (t : ProcessingType) (groups : list ProcessingGroup) : nat :=
  fold_left
    (λ n group,
       fold_left
         (λ n variant, if bool_decide (processingType variant = t) then S n else n)
         (variants group) n)
    groups 0.

Definition calculateOptimizationResult (groups : list ProcessingGroup)
  : OptimizationResult :=
  let '(totalImages, totalCostWithoutOptimization, totalCostWithOptimization) :=
    fold_left
      (λ '(totalImages, without, with_) group,
         (totalImages + length (variants group),
          (without + inject_Z (Z.of_nat (length (variants group))))%Q,
          (with_ + totalCost group)%Q))
      groups (0, 0%Q, 0%Q) in
  let estimatedSavings :=
    jmul
      (jdiv (Fin (totalCostWithoutOptimization - totalCostWithOptimization))
            (Fin totalCostWithoutOptimization))
      (Fin 100) in
  {| groups := groups;
     totalImages := totalImages;
     generatedImages := countType generate groups;
     resizedImages := countType resize groups;
     croppedImages := countType crop groups;
     reusedImages := countType reuse groups;
     estimatedSavings := estimatedSavings |}.

Definition createProcessingPlan (images : list ImageUrlInfo)
    (descriptions : gmap jsstring ImageDescription) : option OptimizationResult :=
  let similarityGroups := groupBySimilarity images descriptions in
  processingGroups ← mapM (λ group, optimizeGroup group descriptions) similarityGroups;
  Some (calculateOptimizationResult processingGroups).

(** Every [imageId] of a result, group by group. *)
Definition planIds (processingGroups : list ProcessingGroup) : list jsstring :=
  processingGroups ≫= (λ g, imageId <$> variants g).

(** [filterPlansByType] *)
Definition filterPlansByType (groups : list ProcessingGroup) (type : ProcessingType)
  : list ProcessingPlan :=
  groups ≫= (λ group, filter (λ variant, processingType variant = type) (variants group)).

(** [getOptimizationStats] *)
Record OptimizationStats := {
  optimization_summary : jsstring;
  breakdown : list (jsstring * nat);
  efficiencyScore : jsnum;
}.

Definition getOptimizationStats (result : OptimizationResult) : OptimizationStats :=
  let breakdown :=
    [(js "Immagini totali", totalImages result);
     (js "Nuove generazioni", generatedImages result);
     (js "Ridimensionamenti", resizedImages result);
     (js "Ritagli", croppedImages result);
     (js "Riutilizzi", reusedImages result)] in
  let efficiencyScore :=
    jround
      (jmul
         (jdiv
            (Fin (inject_Z (Z.of_nat (resizedImages result + croppedImages result
                                      + reusedImages result))))
            (Fin (inject_Z (Z.of_nat (totalImages result)))))
         (Fin 100)) in
  let summary :=
    js "Ottimizzazione: " ++ show_number (jround (estimatedSavings result))
    ++ js "% risparmio, " ++ of_nat_str (generatedImages result) ++ js "/"
    ++ of_nat_str (totalImages result) ++ js " generazioni necessarie" in
  {| optimization_summary := summary;
     breakdown := breakdown;
     efficiencyScore := efficiencyScore |}.

End Analyzer.
End ImageProcessingAnalyzer.

(** ** DescriptionGenerator *)

Module DescriptionGenerator.

(** [DescriptionOptions] as the caller passes it: every field is optional.
    The types of [language] and [style] are unions of literals that are not
    checked at run time, so both are strings here. *)
Record DescriptionOptions := {
  opt_language : option jsstring;
  opt_style : option jsstring;
  opt_includeBackground : option bool;
  opt_maxPromptLength : option Z;
}.

(** [Required<DescriptionOptions>] *)
Record RequiredOptions := {
  language : jsstring;
  optStyle : jsstring;
  includeBackground : bool;
  maxPromptLength : Z;
}.

Definition defaultOptions : DescriptionOptions :=
  {| opt_language := None; opt_style := None;
     opt_includeBackground := None; opt_maxPromptLength := None |}.

(** [||] takes the default for an empty string and for 0, [??] only for
    [undefined]. *)
Definition normalizeOptions (options : DescriptionOptions) : RequiredOptions :=
  {| language := default (js "italian") (str_or (opt_language options) None);
     optStyle := default (js "professional") (str_or (opt_style options) None);
     includeBackground := default true (opt_includeBackground options);
     maxPromptLength :=
       match opt_maxPromptLength options with
       | Some n => if bool_decide (n = 0)%Z then 200%Z else n
       | None => 200%Z
       end |}.

Definition asOptions (opts : RequiredOptions) : DescriptionOptions :=
  {| opt_language := Some (language opts);
     opt_style := Some (optStyle opts);
     opt_includeBackground := Some (includeBackground opts);
     opt_maxPromptLength := Some (maxPromptLength opts) |}.

Definition FIELD_TYPE_MAPPING : list (string * string) :=
  [ ("product", "professional product photography");
    ("item", "clean product shot");
    ("article", "item showcase");
    ("goods", "commercial product");
    ("avatar", "professional headshot portrait");
    ("profile", "portrait photography");
    ("user", "person portrait");
    ("author", "professional author photo");
    ("customer", "friendly customer portrait");
    ("logo", "modern logo design");
    ("brand", "brand identity");
    ("company", "corporate branding");
    ("banner", "professional banner design");
    ("header", "website header image");
    ("background", "clean background texture");
    ("hero", "hero section image");
    ("thumbnail", "preview image");
    ("cover", "cover image design");
    ("featured", "featured content image");
    ("location", "beautiful location photography");
    ("place", "scenic place photograph");
    ("destination", "travel destination");
    ("venue", "venue photography");
    ("shop", "retail store interior");
    ("restaurant", "restaurant ambiance");
    ("hotel", "luxury hotel interior");
    ("food", "appetizing food photography");
    ("dish", "gourmet dish presentation");
    ("recipe", "food styling photography");
    ("menu", "restaurant menu photography");
    ("fashion", "fashion photography");
    ("clothing", "clothing product shot");
    ("accessory", "fashion accessory");
    ("tech", "modern technology product");
    ("gadget", "tech gadget photography");
    ("sport", "sports equipment");
    ("fitness", "fitness and wellness");
    ("beauty", "beauty product photography");
    ("home", "home interior design");
    ("garden", "garden and landscape");
    ("car", "automotive photography");
    ("book", "book cover design");
    ("art", "artistic photography");
    ("music", "music related imagery") ]%string.

Definition ITALIAN_STYLE_ADDITIONS : list (string * list string) :=
  [ ("italian_context",
      ["in Italian style"; "with Italian elegance"; "Italian design aesthetic";
       "Mediterranean style"; "classic Italian"]);
    ("food",
      ["authentic Italian cuisine"; "traditional Italian dish";
       "Italian culinary tradition"; "regional Italian specialty"]);
    ("fashion",
      ["Italian fashion style"; "Milano fashion design"; "Italian elegance";
       "made in Italy style"]);
    ("location",
      ["Italian landscape"; "Italian architecture"; "Italian piazza";
       "Mediterranean setting"]) ]%string.

Definition commonWords : list string :=
  [ "the"; "a"; "an"; "and"; "or"; "but"; "in"; "on"; "at"; "to"; "for"; "of";
    "with"; "by"; "il"; "la"; "le"; "lo"; "gli"; "un"; "una"; "e"; "o"; "ma";
    "in"; "su"; "a"; "per"; "di"; "con"; "da" ]%string.

Definition descriptiveFields : list string :=
  [ "name"; "title"; "description"; "caption"; "alt"; "product"; "brand";
    "category"; "type"; "style"; "location"; "city"; "address"; "venue";
    "place" ]%string.

(** [[...new Set(l)]]: the first occurrence of each element, in order. *)
Fixpoint dedupe (seen l : list jsstring) : list jsstring :=
  match l with
  | [] => []
  | x :: l' =>
      if bool_decide (x ∈ seen) then dedupe seen l' else x :: dedupe (x :: seen) l'
  end.

(** [[a, b, ...].join(sep)] *)
Fixpoint join (sep : jsstring) (parts : list jsstring) : jsstring :=
  match parts with
  | [] => []
  | [p] => p
  | p :: rest => p ++ sep ++ join sep rest
  end.

Section Generator.
Context `{Runtime}.

(** The store the occurrences' contexts live in. *)
Variable h : heap.

(** The result of [analyzeContext]; its [dataType] is read nowhere and is
    left out. *)
Record ContextAnalysis := {
  ctx_description : jsstring;
  ctx_confidence : Q;
  ctx_keywords : list jsstring;
}.

Definition analyzeFieldName (fieldName : jsstring) : list jsstring * Q :=
  let name := toLowerCase fieldName in
  let '(keywords, confidence) :=
    fold_left
      (λ '(keywords, confidence) '(key, _),
         if includes name key
         then (keywords ++ [js key], (confidence + (2 # 10))%Q)
         else (keywords, confidence))
      FIELD_TYPE_MAPPING ([], (1 # 10)%Q) in
  let '(keywords, confidence) :=
    if includes name "thumb"
    then (keywords ++ [js "thumbnail"; js "small"], (confidence + (3 # 10))%Q)
    else (keywords, confidence) in
  let '(keywords, confidence) :=
    if includes name "_1x1" || includes name "square"
    then (keywords ++ [js "square"; js "centered"], (confidence + (2 # 10))%Q)
    else (keywords, confidence) in
  if includes name "banner" || includes name "header"
  then (keywords ++ [js "banner"; js "wide"; js "header"], (confidence + (3 # 10))%Q)
  else (keywords, confidence).

Definition is_keyword_separator (c : N) : bool :=
  is_space c || (c =? 44)%N || (c =? 46)%N || (c =? 45)%N.

Definition extractKeywords (text : jsstring) : list jsstring :=
  take 5
    (filter
       (λ word, 2 < length word ∧ toLowerCase word ∉ (js <$> commonWords))
       (split_on is_keyword_separator text)).

Definition any_truthy (context : val) (fields : list string) : bool :=
  existsb (λ f, truthy_opt (js_get h context f)) fields.

Definition analyzeContextData (context : val) : ContextAnalysis :=
  let '(description, keywords, confidence) :=
    fold_left
      (λ '(description, keywords, confidence) field,
         match js_get h context field with
         | Some (VStr s) =>
             if truthy_str s then
               let value := toLowerCase s in
               (description ++ js " " ++ value,
                keywords ++ extractKeywords value,
                (confidence + (1 # 10))%Q)
             else (description, keywords, confidence)
         | _ => (description, keywords, confidence)
         end)
      descriptiveFields ([], [], (2 # 10)%Q) in
  let '(keywords, confidence) :=
    if any_truthy context ["price"; "cost"; "amount"]%string
    then (keywords ++ [js "commercial"; js "product"], (confidence + (1 # 10))%Q)
    else (keywords, confidence) in
  let '(keywords, confidence) :=
    if any_truthy context ["author"; "creator"; "artist"]%string
    then (keywords ++ [js "creative"; js "professional"], (confidence + (1 # 10))%Q)
    else (keywords, confidence) in
  {| ctx_description := trim description;
     ctx_keywords := dedupe [] keywords;
     ctx_confidence := Qmin confidence (5 # 10) |}.

Definition getGenericDescription (fieldName : jsstring) : jsstring :=
  let name := toLowerCase fieldName in
  if includes name "thumb" then js "thumbnail image"
  else if includes name "banner" then js "banner image"
  else if includes name "avatar" then js "profile picture"
  else if includes name "logo" then js "logo design"
  else if includes name "background" then js "background image"
  else js "professional image".

Definition is_object (v : val) : bool :=
  match v with VRef _ => true | _ => false end.

Definition analyzeContext (imageInfo : ImageUrlInfo) : ContextAnalysis :=
  let context := context imageInfo in
  let fieldName := fieldName imageInfo in
  let '(fieldKeywords, fieldConfidence) := analyzeFieldName fieldName in
  let confidence := ((5 # 10) + fieldConfidence)%Q in
  let '(description, keywords, confidence) :=
    if is_object context then
      let contextAnalysis := analyzeContextData context in
      (ctx_description contextAnalysis,
       fieldKeywords ++ ctx_keywords contextAnalysis,
       (confidence + ctx_confidence contextAnalysis)%Q)
    else ([], fieldKeywords, confidence) in
  let confidence := Qmin confidence 1 in
  {| ctx_description :=
       if truthy_str description then description
       else getGenericDescription fieldName;
     ctx_confidence := confidence;
     ctx_keywords := dedupe [] keywords |}.

Definition determineCategory (imageInfo : ImageUrlInfo) (context : ContextAnalysis)
  : jsstring :=
  let fieldName := toLowerCase (fieldName imageInfo) in
  match find (λ '(key, _), includes fieldName key) FIELD_TYPE_MAPPING with
  | Some (key, _) => js key
  | None =>
      let has (k : string) := bool_decide (js k ∈ ctx_keywords context) in
      if has "food" || has "dish" then js "food"
      else if has "fashion" || has "clothing" then js "fashion"
      else if has "location" || has "place" then js "location"
      else js "generic"
  end.

(** [.replace(/[^\w\s]/g, ' ').replace(/\s+/g, ' ').trim()] *)
Definition cleanDescription (description : jsstring) : jsstring :=
  trim
    (collapse_spaces
       ((λ c, if is_word c || is_space c then c else 32%N) <$> description)
       false).

Definition fieldTypeOf (category : jsstring) : jsstring :=
  match find (λ '(key, _), bool_decide (js key = category)) FIELD_TYPE_MAPPING with
  | Some (_, value) => js value
  | None => js "professional photography"
  end.

Definition generateBasePrompt (imageInfo : ImageUrlInfo) (context : ContextAnalysis)
    (category : jsstring) : jsstring :=
  let fieldType := fieldTypeOf category in
  let prompt :=
    if truthy_str (ctx_description context) && Qltb (3 # 10) (ctx_confidence context)
    then
      let clean := cleanDescription (ctx_description context) in
      if bool_decide (0 < length clean) then clean ++ js ", " ++ fieldType
      else fieldType
    else fieldType in
  let w := width (dimensions imageInfo) in
  let ht := height (dimensions imageInfo) in
  if bool_decide (w = ht) then prompt ++ js ", square composition, centered"
  else if bool_decide (ht * 2 < w)%N
  then prompt ++ js ", wide banner format, horizontal composition"
  else if bool_decide (w < ht)%N
  then prompt ++ js ", vertical composition, portrait orientation"
  else prompt.

(** [draw] stands for [Math.random()]: the index taken is [draw mod n]. *)
Definition getItalianContext (draw : nat) (keywords : list jsstring)
  : option jsstring :=
  match
    find (λ '(category, _),
            existsb (λ keyword, isSome (search (strip_prefix keyword) (js category)))
                    keywords)
         ITALIAN_STYLE_ADDITIONS
  with
  | Some (_, contexts) => js <$> contexts !! (draw mod length contexts)
  | None => Some (js "in Italian style")
  end.

Definition styleSuffix (style : jsstring) : jsstring :=
  if bool_decide (style = js "professional")
  then js ", professional lighting, high quality, clean background"
  else if bool_decide (style = js "artistic")
  then js ", artistic composition, creative lighting, aesthetic"
  else if bool_decide (style = js "realistic")
  then js ", photorealistic, natural lighting, detailed"
  else if bool_decide (style = js "casual")
  then js ", casual style, natural look, everyday setting"
  else [].

(** [s.substring(0, n)]: a negative [n] is taken as 0. *)
Definition substring0 (s : jsstring) (n : Z) : jsstring := take (Z.to_nat n) s.

(** The last step of [enhancePrompt]: the cut to [maxPromptLength]. *)
Definition limitLength (enhanced : jsstring) (maxPromptLength : Z) : jsstring :=
  if bool_decide (maxPromptLength ≠ 0)%Z
     && bool_decide (maxPromptLength < Z.of_nat (length enhanced))%Z
  then substring0 enhanced (maxPromptLength - 3) ++ js "..."
  else enhanced.

Definition enhancePrompt (draw : nat) (basePrompt : jsstring)
    (context : ContextAnalysis) (options : RequiredOptions) : jsstring :=
  let enhanced := basePrompt ++ styleSuffix (optStyle options) in
  let enhanced :=
    if bool_decide (language options = js "italian")
       && bool_decide (0 < length (ctx_keywords context))
    then
      match getItalianContext draw (ctx_keywords context) with
      | Some italianContext =>
          if truthy_str italianContext then enhanced ++ js ", " ++ italianContext
          else enhanced
      | None => enhanced
      end
    else enhanced in
  limitLength enhanced (maxPromptLength options).

Definition generateDescription (draw : nat) (imageInfo : ImageUrlInfo)
    (options : DescriptionOptions) : ImageDescription :=
  let opts := normalizeOptions options in
  let context := analyzeContext imageInfo in
  let category := determineCategory imageInfo context in
  let basePrompt := generateBasePrompt imageInfo context category in
  let enhancedPrompt := enhancePrompt draw basePrompt context opts in
  {| prompt := basePrompt;
     style := optStyle opts;
     category := category;
     confidence := ctx_confidence context;
     baseContext := ctx_description context;
     enhancedPrompt := enhancedPrompt |}.

Definition keyPart (v : val) : jsstring :=
  match v with VStr s => s | _ => ToString h v end.

Definition generateContextKey (imageInfo : ImageUrlInfo) : jsstring :=
  let context := context imageInfo in
  let truthyParts :=
    omap (λ f, match js_get h context f with
               | Some v => if truthy v then Some (keyPart v) else None
               | None => None
               end)
         ["category"; "type"; "brand"]%string in
  let w := width (dimensions imageInfo) in
  let ht := height (dimensions imageInfo) in
  let parts := truthyParts ++ [of_N_str w ++ js "x" ++ of_N_str ht] in
  let key := join (js "_") parts in
  if truthy_str key then key else js "generic".

Definition groupByContext (images : list ImageUrlInfo)
  : list (jsstring * list ImageUrlInfo) :=
  fold_left (λ groups img, pushTo (generateContextKey img) img groups) images [].

(** The shared context that [extractSharedContext] computes is handed to
    [generateDescription] as a [baseContext] option, which
    [normalizeOptions] does not keep: it reaches no description, and the
    model leaves it out.  The state of the loops is the map built so far
    and the number of descriptions generated so far. *)
Definition generateDescriptions (images : list ImageUrlInfo)
    (options : DescriptionOptions) : gmap jsstring ImageDescription :=
  let opts := normalizeOptions options in
  let contextGroups := groupByContext images in
  fst (fold_left
         (λ st '(contextKey, groupImages),
            fold_left
              (λ '(descriptions, k) img,
                 let description :=
                   generateDescription (random_draw k) img (asOptions opts) in
                 (<[path img := description]> descriptions, S k))
              groupImages st)
         contextGroups (∅, 0)).

End Generator.
End DescriptionGenerator.

(** ** ImageUrlExtractor *)

Module ImageUrlExtractor.

Record ExtractionResult := {
  images : list ImageUrlInfo;
  totalFound : nat;
  uniqueUrls : nat;
  duplicateGroups : list (jsstring * list ImageUrlInfo);
}.

(** [https?:\/\/picsum\.photos\/] under the flag [i] *)
Definition host_ci (s : jsstring) : option jsstring :=
  s1 ← lit_ci "http" s;
  match lit_ci "s" s1 ≫= lit_ci "://picsum.photos/" with
  | Some r => Some r
  | None => lit_ci "://picsum.photos/" s1
  end.

Definition digits (s : jsstring) : option (jsstring * jsstring) := run1 is_digit s.

Definition not_slash (c : N) : bool := negb (c =? 47)%N.

(** [PICSUM_PATTERNS], each as the matcher of one position.  The optional
    query at the end of every pattern matches the empty string, so it plays
    no part in [test]. *)
Definition PICSUM_PATTERNS : list (jsstring → option jsstring) :=
  [ (λ s, s ← host_ci s; '(_, s) ← digits s; s ← lit "/" s; '(_, s) ← digits s; Some s);
    (λ s, s ← host_ci s; '(_, s) ← digits s; Some s);
    (λ s, s ← host_ci s; s ← lit_ci "seed/" s; '(_, s) ← run1 not_slash s;
          s ← lit "/" s; '(_, s) ← digits s; s ← lit "/" s; '(_, s) ← digits s;
          Some s);
    (λ s, s ← host_ci s; lit_ci "v2/list" s) ].

(** [lastIndex] is reset before every [test], so each search starts at 0. *)
Definition isPicsumUrl (url : jsstring) : bool :=
  existsb (λ pattern, isSome (search pattern url)) PICSUM_PATTERNS.

Definition widthHeight (s : jsstring) : option Dimensions :=
  '(w, s) ← digits s; s ← lit "/" s; '(ht, _) ← digits s;
  Some {| width := parseInt w; height := parseInt ht |}.

Definition extractDimensions (url : jsstring) : option Dimensions :=
  match search (λ s, s ← lit "picsum.photos/" s; widthHeight s) url with
  | Some d => Some d
  | None =>
      match
        search (λ s, s ← lit "picsum.photos/seed/" s; '(_, s) ← run1 not_slash s;
                     s ← lit "/" s; widthHeight s) url
      with
      | Some d => Some d
      | None =>
          search
            (λ s, s ← lit "picsum.photos/" s; '(size, s) ← digits s;
                  match s with
                  | [] => Some {| width := parseInt size; height := parseInt size |}
                  | c :: _ =>
                      if (c =? 63)%N
                      then Some {| width := parseInt size; height := parseInt size |}
                      else None
                  end)
            url
      end
  end.

Definition not_slash_or_query (c : N) : bool := negb (c =? 47)%N && negb (c =? 63)%N.

Definition extractSeed (url : jsstring) : option jsstring :=
  search (λ s, s ← lit "picsum.photos/seed/" s; fst <$> run1 not_slash_or_query s) url.

Definition parseImageUrl (url path fieldName : jsstring) (context : val)
    (itemIndex : nat) : option ImageUrlInfo :=
  let dimensions := extractDimensions url in
  let seed := extractSeed url in
  dimensions ← dimensions;
  Some {| url := url; path := path; fieldName := fieldName; context := context;
          dimensions := dimensions; seed := seed; itemIndex := itemIndex |}.

Section Extractor.
Context `{Runtime}.

Definition normalizeUrl (url : jsstring) : jsstring := toLowerCase (strip_query url).

Definition indexPath (currentPath : jsstring) (index : nat) : jsstring :=
  if truthy_str currentPath
  then currentPath ++ js "[" ++ of_nat_str index ++ js "]"
  else js "[" ++ of_nat_str index ++ js "]".

Definition keyPath (currentPath key : jsstring) : jsstring :=
  if truthy_str currentPath then currentPath ++ js "." ++ key else key.

(** The walk follows references, so it is given fuel; [None] is a walk that
    does not end within it. *)
Fixpoint traverseObject (fuel : nat) (h : heap) (obj : val) (currentPath : jsstring)
    (results : list ImageUrlInfo) (itemIndex : nat) : option (list ImageUrlInfo) :=
  match obj with
  | VRef l =>
      match fuel with
      | 0 => None
      | S fuel' =>
          match h !! l with
          | Some (NArr items) =>
              snd <$>
                forEachM
                  (λ '(index, results) item,
                     results ← traverseObject fuel' h item
                                 (indexPath currentPath index) results index;
                     Some (S index, results))
                  items (0, results)
          | Some (NObj fields) =>
              forEachM
                (λ results '(key, value),
                   let newPath := keyPath currentPath key in
                   match value with
                   | VStr s =>
                       if isPicsumUrl s then
                         match parseImageUrl s newPath key obj itemIndex with
                         | Some imageInfo => Some (results ++ [imageInfo])
                         | None => Some results
                         end
                       else Some results
                   | VRef _ | VNull =>
                       traverseObject fuel' h value newPath results itemIndex
                   | _ => Some results
                   end)
                fields results
          | None => None
          end
      end
  | _ => Some results
  end.

Definition extractPicsumUrls (fuel : nat) (h : heap) (data : val)
  : option ExtractionResult :=
  images ← traverseObject fuel h data [] [] 0;
  let duplicateGroups :=
    fold_left (λ groups img, pushTo (normalizeUrl (url img)) img groups) images [] in
  Some {| images := images;
          totalFound := length images;
          uniqueUrls := length duplicateGroups;
          duplicateGroups := duplicateGroups |}.

(** [`${width}x${height}`] *)
Definition dimensionKey (d : Dimensions) : jsstring :=
  of_N_str (width d) ++ js "x" ++ of_N_str (height d).

Definition groupBySimilarDimensions (images : list ImageUrlInfo)
  : list (jsstring * list ImageUrlInfo) :=
  fold_left (λ groups img, pushTo (dimensionKey (dimensions img)) img groups) images [].

(** The six arrays of the result of [filterByFieldType]. *)
Inductive FieldBucket :=
  Thumbnails | Banners | Squares | Portraits | Landscapes | Generic.

Global Instance FieldBucket_eq_dec : EqDecision FieldBucket.
Proof. solve_decision. Defined.

Record FieldTypeGroups := {
  thumbnails : list ImageUrlInfo;
  banners : list ImageUrlInfo;
  squares : list ImageUrlInfo;
  portraits : list ImageUrlInfo;
  landscapes : list ImageUrlInfo;
  generic : list ImageUrlInfo;
}.

(** [result.<bucket>.push(img)] *)
Definition pushBucket (result : FieldTypeGroups) (b : FieldBucket) (img : ImageUrlInfo)
  : FieldTypeGroups :=
  match b with
  | Thumbnails =>
      {| thumbnails := thumbnails result ++ [img]; banners := banners result;
         squares := squares result; portraits := portraits result;
         landscapes := landscapes result; generic := generic result |}
  | Banners =>
      {| thumbnails := thumbnails result; banners := banners result ++ [img];
         squares := squares result; portraits := portraits result;
         landscapes := landscapes result; generic := generic result |}
  | Squares =>
      {| thumbnails := thumbnails result; banners := banners result;
         squares := squares result ++ [img]; portraits := portraits result;
         landscapes := landscapes result; generic := generic result |}
  | Portraits =>
      {| thumbnails := thumbnails result; banners := banners result;
         squares := squares result; portraits := portraits result ++ [img];
         landscapes := landscapes result; generic := generic result |}
  | Landscapes =>
      {| thumbnails := thumbnails result; banners := banners result;
         squares := squares result; portraits := portraits result;
         landscapes := landscapes result ++ [img]; generic := generic result |}
  | Generic =>
      {| thumbnails := thumbnails result; banners := banners result;
         squares := squares result; portraits := portraits result;
         landscapes := landscapes result; generic := generic result ++ [img] |}
  end.

(** The chain of tests in the loop of [filterByFieldType]: the array that
    [img] is pushed to. *)
Definition fieldBucket (img : ImageUrlInfo) : FieldBucket :=
  let fieldName := toLowerCase (fieldName img) in
  let ratio :=
    jdiv (jnum_of_N (width (dimensions img))) (jnum_of_N (height (dimensions img))) in
  if includes fieldName "thumb" then Thumbnails
  else if includes fieldName "banner" || includes fieldName "header" then Banners
  else if jeq ratio (Fin 1) then Squares
  else if jlt ratio (Fin 1) then Portraits
  else if jlt (Fin 2) ratio then Banners
  else if jlt (Fin 1) ratio then Landscapes
  else Generic.

Definition filterByFieldType (images : list ImageUrlInfo) : FieldTypeGroups :=
  fold_left (λ result img, pushBucket result (fieldBucket img) img) images
    {| thumbnails := []; banners := []; squares := []; portraits := [];
       landscapes := []; generic := [] |}.

Definition getFieldType (fieldName : jsstring) : jsstring :=
  let name := toLowerCase fieldName in
  if includes name "thumb" then js "thumbnail"
  else if includes name "banner" || includes name "header" then js "banner"
  else if includes name "avatar" || includes name "profile" then js "avatar"
  else if includes name "logo" then js "logo"
  else if includes name "background" || includes name "bg" then js "background"
  else if includes name "gallery" || includes name "photo" then js "gallery"
  else js "generic".

Record ExtractionStats := {
  stats_summary : jsstring;
  dimensionDistribution : list (jsstring * nat);
  fieldTypeDistribution : list (jsstring * nat);
  duplicateCount : nat;
}.

Definition getExtractionStats (result : ExtractionResult) : ExtractionStats :=
  let '(dimensionDistribution, fieldTypeDistribution) :=
    fold_left
      (λ '(dimensionDistribution, fieldTypeDistribution) img,
         (bump (dimensionKey (dimensions img)) dimensionDistribution,
          bump (getFieldType (fieldName img)) fieldTypeDistribution))
      (images result) ([], []) in
  let duplicateCount :=
    fold_left
      (λ duplicateCount '(_, group),
         if bool_decide (1 < length group)
         then duplicateCount + (length group - 1) else duplicateCount)
      (duplicateGroups result) 0 in
  {| stats_summary :=
       js "Trovate " ++ of_nat_str (totalFound result)
       ++ js " immagini Picsum, " ++ of_nat_str (uniqueUrls result)
       ++ js " uniche, " ++ of_nat_str duplicateCount ++ js " duplicate";
     dimensionDistribution := dimensionDistribution;
     fieldTypeDistribution := fieldTypeDistribution;
     duplicateCount := duplicateCount |}.

End Extractor.
End ImageUrlExtractor.

(** ** UrlReplacer *)

Module UrlReplacer.

Inductive ReplacementType := direct | variant | fallback.

Record UrlMapping := {
  originalUrl : jsstring;
  newUrl : jsstring;
  cdnUrl : option jsstring;
  mappingPath : jsstring;
  mappingFieldName : jsstring;
  mappingItemIndex : nat;
  replacementType : ReplacementType;
}.

(** The result object that the traversal fills in as it goes. *)
Record ReplacementResult := {
  success : bool;
  replacedCount : nat;
  failedCount : nat;
  mappings : list UrlMapping;
  modifiedData : val;
  errors : list jsstring;
}.

Record ReplacementOptions := {
  opt_preferCdnUrls : option bool;
  opt_preserveOriginalOnFailure : option bool;
  opt_validateUrls : option bool;
  opt_backupOriginal : option bool;
  opt_logReplacements : option bool;
}.

(** [Required<ReplacementOptions>] *)
Record RequiredOptions := {
  preferCdnUrls : bool;
  preserveOriginalOnFailure : bool;
  validateUrls : bool;
  backupOriginal : bool;
  logReplacements : bool;
}.

Definition defaultOptions : ReplacementOptions :=
  {| opt_preferCdnUrls := None; opt_preserveOriginalOnFailure := None;
     opt_validateUrls := None; opt_backupOriginal := None;
     opt_logReplacements := None |}.

Definition normalizeOptions (options : ReplacementOptions) : RequiredOptions :=
  {| preferCdnUrls := default true (opt_preferCdnUrls options);
     preserveOriginalOnFailure := default false (opt_preserveOriginalOnFailure options);
     validateUrls := default false (opt_validateUrls options);
     backupOriginal := default true (opt_backupOriginal options);
     logReplacements := default true (opt_logReplacements options) |}.

(** A [Map<string, string>], in insertion order. *)
Abbreviation url_map := (list (jsstring * jsstring)).

Fixpoint mapGet (k : jsstring) (m : list (jsstring * jsstring)) : option jsstring :=
  match m with
  | [] => None
  | (k', v) :: r => if bool_decide (k = k') then Some v else mapGet k r
  end.

(** [/https?:\/\/picsum\.photos/.test(url)] *)
Definition isPicsumUrl (url : jsstring) : bool :=
  isSome
    (search
       (λ s, s1 ← lit "http" s;
             match lit "s" s1 ≫= lit "://picsum.photos" with
             | Some r => Some r
             | None => lit "://picsum.photos" s1
             end)
       url).

Definition not_slash (c : N) : bool := negb (c =? 47)%N.
Definition not_slash_or_query (c : N) : bool := negb (c =? 47)%N && negb (c =? 63)%N.

Definition extractSeed (url : jsstring) : option jsstring :=
  search (λ s, s ← lit "picsum.photos/seed/" s; fst <$> run1 not_slash_or_query s) url.

(** [(?:seed\/[^\/]+\/)?] followed by [k]: with the group first, then
    without it. *)
Definition optionalSeed {A} (k : jsstring → option A) (s : jsstring) : option A :=
  match
    (s ← lit "seed/" s; '(_, s) ← run1 not_slash s; s ← lit "/" s; k s)
  with
  | Some r => Some r
  | None => k s
  end.

Definition extractDimensions (url : jsstring) : option Dimensions :=
  match
    search
      (λ s, s ← lit "picsum.photos/" s;
            optionalSeed
              (λ s, '(w, s) ← run1 is_digit s; s ← lit "/" s;
                    '(ht, _) ← run1 is_digit s;
                    Some {| width := parseInt w; height := parseInt ht |})
              s)
      url
  with
  | Some d => Some d
  | None =>
      search
        (λ s, s ← lit "picsum.photos/" s;
              optionalSeed
                (λ s, '(size, s) ← run1 is_digit s;
                      match s with
                      | [] => Some {| width := parseInt size; height := parseInt size |}
                      | c :: _ =>
                          if (c =? 63)%N
                          then Some {| width := parseInt size;
                                       height := parseInt size |}
                          else None
                      end)
                s)
        url
  end.

(** The new URL of the first entry of the map with the same seed or the same
    dimensions as [originalUrl]. *)
Definition findVariantMapping (originalUrl : jsstring)
    (urlMappings : list (jsstring * jsstring)) : option jsstring :=
  let originalSeed := extractSeed originalUrl in
  let originalDimensions := extractDimensions originalUrl in
  if negb (isSome originalSeed) && negb (isSome originalDimensions) then None
  else
    snd <$>
      find
        (λ '(mappedOriginal, mappedNew),
           let mappedSeed := extractSeed mappedOriginal in
           let mappedDimensions := extractDimensions mappedOriginal in
           (isSome originalSeed && bool_decide (mappedSeed = originalSeed))
           || match originalDimensions, mappedDimensions with
              | Some o, Some m =>
                  bool_decide (width o = width m) && bool_decide (height o = height m)
              | _, _ => false
              end)
        urlMappings.

Definition generateFallbackUrl (originalUrl : jsstring) : jsstring := originalUrl.

(** [obj[key] = v] in the store, for the object at [l]. *)
Definition setField (l : nat) (key : jsstring) (v : val) (h : heap) : heap :=
  match h !! l with
  | Some (NObj fields) => <[l := NObj (assoc_set key v fields)]> h
  | _ => h
  end.

Section Replacer.
Context `{Runtime}.

Definition normalizeUrl (url : jsstring) : jsstring :=
  strip_trailing_slash (toLowerCase (strip_query url)).

(** [replaceUrl]: [obj] is the location of the object that holds the URL.
    Nothing in its body can throw, so the [catch] is never entered. *)
Definition replaceUrl (obj : nat) (key originalUrl path : jsstring)
    (urlMappings : list (jsstring * jsstring))
    (cdnMappings : option (list (jsstring * jsstring)))
    (options : RequiredOptions) (itemIndex : nat)
    (st : heap * ReplacementResult) : heap * ReplacementResult :=
  let '(h, result) := st in
  let normalizedUrl := normalizeUrl originalUrl in
  let newUrl := str_or (mapGet originalUrl urlMappings) (mapGet normalizedUrl urlMappings) in
  let '(newUrl, replacementType) :=
    if found newUrl then (newUrl, direct)
    else (findVariantMapping originalUrl urlMappings, variant) in
  let '(newUrl, replacementType) :=
    if negb (found newUrl) && negb (preserveOriginalOnFailure options)
    then (Some (generateFallbackUrl originalUrl), fallback)
    else (newUrl, replacementType) in
  match str_or newUrl None with
  | Some newUrl =>
      let cdn := cdnMappings ≫= mapGet originalUrl in
      let finalUrl :=
        match cdn with
        | Some c => if preferCdnUrls options then c else newUrl
        | None => newUrl
        end in
      (setField obj key (VStr finalUrl) h,
       {| success := success result;
          replacedCount := S (replacedCount result);
          failedCount := failedCount result;
          mappings :=
            mappings result ++
            [{| originalUrl := originalUrl; newUrl := finalUrl; cdnUrl := cdn;
                mappingPath := path; mappingFieldName := key;
                mappingItemIndex := itemIndex;
                replacementType := replacementType |}];
          modifiedData := modifiedData result;
          errors := errors result |})
  | None =>
      (h,
       {| success := success result;
          replacedCount := replacedCount result;
          failedCount := S (failedCount result);
          mappings := mappings result;
          modifiedData := modifiedData result;
          errors :=
            if preserveOriginalOnFailure options
            then errors result ++
                 [js "No replacement found for URL: " ++ originalUrl
                  ++ js " at " ++ path]
            else errors result |})
  end.

(** [performReplacements]: the walk of the extractor, over the store as it
    is when each object is reached.  [Object.entries] is taken once per
    object; arrays are never written, so reading one at the start of its
    loop is reading it at every step. *)
Fixpoint performReplacements (fuel : nat) (obj : val) (currentPath : jsstring)
    (urlMappings : list (jsstring * jsstring))
    (cdnMappings : option (list (jsstring * jsstring)))
    (options : RequiredOptions) (itemIndex : nat)
    (st : heap * ReplacementResult) : option (heap * ReplacementResult) :=
  match obj with
  | VRef l =>
      match fuel with
      | 0 => None
      | S fuel' =>
          match st.1 !! l with
          | Some (NArr items) =>
              snd <$>
                forEachM
                  (λ '(i, st) item,
                     st ← performReplacements fuel' item
                            (ImageUrlExtractor.indexPath currentPath i)
                            urlMappings cdnMappings options i st;
                     Some (S i, st))
                  items (0, st)
          | Some (NObj fields) =>
              forEachM
                (λ st '(key, value),
                   let newPath := ImageUrlExtractor.keyPath currentPath key in
                   match value with
                   | VStr s =>
                       if isPicsumUrl s
                       then Some (replaceUrl l key s newPath urlMappings
                                    cdnMappings options itemIndex st)
                       else Some st
                   | VRef _ =>
                       performReplacements fuel' value newPath urlMappings
                         cdnMappings options itemIndex st
                   | _ => Some st
                   end)
                fields st
          | None => None
          end
      end
  | _ => Some st
  end.

(** [deepClone]: a copy of everything reachable from [obj], in new nodes at
    the end of the store.  JSON documents hold no [Date].  On the new object
    [cloned[key] = v] makes a property of every key but [__proto__], for
    which it runs the setter of [Object.prototype] and adds nothing. *)
Fixpoint deepClone (fuel : nat) (h : heap) (obj : val) : option (val * heap) :=
  match obj with
  | VRef l =>
      match fuel with
      | 0 => None
      | S fuel' =>
          match h !! l with
          | Some (NArr items) =>
              '(items', h) ←
                forEachM
                  (λ '(items', h) item,
                     '(item', h) ← deepClone fuel' h item;
                     Some (items' ++ [item'], h))
                  items ([], h);
              Some (VRef (length h), h ++ [NArr items'])
          | Some (NObj fields) =>
              '(cloned, h) ←
                forEachM
                  (λ '(cloned, h) '(key, value),
                     '(value', h) ← deepClone fuel' h value;
                     Some (if bool_decide (key = js "__proto__") then cloned
                           else cloned ++ [(key, value')], h))
                  fields ([], h);
              Some (VRef (length h), h ++ [NObj cloned])
          | None => None
          end
      end
  | _ => Some (obj, h)
  end.

(** [replaceUrls].  Logging writes to the console only.  The second copy,
    [originalData], is made and never read. *)
Definition replaceUrls (fuel : nat) (h : heap) (data : val)
    (urlMappings : list (jsstring * jsstring))
    (cdnMappings : option (list (jsstring * jsstring)))
    (options : ReplacementOptions) : option (ReplacementResult * heap) :=
  let opts := normalizeOptions options in
  '(modified, h) ← (if backupOriginal opts then deepClone fuel h data else Some (data, h));
  let result :=
    {| success := false; replacedCount := 0; failedCount := 0; mappings := [];
       modifiedData := modified; errors := [] |} in
  '(_, h) ← (if backupOriginal opts then deepClone fuel h data else Some (VNull, h));
  '(h, result) ←
    performReplacements fuel (modifiedData result) [] urlMappings cdnMappings opts 0
                        (h, result);
  let errors :=
    if validateUrls opts
    then errors result ++ validation_errors (newUrl <$> mappings result)
    else errors result in
  Some ({| success :=
             bool_decide (failedCount result = 0)
             || bool_decide (0 < replacedCount result);
           replacedCount := replacedCount result;
           failedCount := failedCount result;
           mappings := mappings result;
           modifiedData := modifiedData result;
           errors := errors |},
        h).

(** [createUrlMappings]: the two maps the orchestrator hands to
    [replaceUrls]. *)
Record ImageResult := {
  res_originalUrl : jsstring;
  res_newUrl : jsstring;
  res_cdnUrl : option jsstring;
  res_success : bool;
}.

(** [map.set(k, v)] *)
Fixpoint mapSet (k v : jsstring) (m : list (jsstring * jsstring))
  : list (jsstring * jsstring) :=
  match m with
  | [] => [(k, v)]
  | (k', v') :: r =>
      if bool_decide (k = k') then (k', v) :: r else (k', v') :: mapSet k v r
  end.

(** The body of the loop of [createUrlMappings]. *)
Definition recordResult
    (maps : list (jsstring * jsstring) * list (jsstring * jsstring) * list jsstring)
    (result : ImageResult)
  : list (jsstring * jsstring) * list (jsstring * jsstring) * list jsstring :=
  let '(urlMappings, cdnMappings, failedUrls) := maps in
  if res_success result && truthy_str (res_newUrl result) then
    (mapSet (res_originalUrl result) (res_newUrl result) urlMappings,
     match res_cdnUrl result with
     | Some c =>
         if truthy_str c then mapSet (res_originalUrl result) c cdnMappings
         else cdnMappings
     | None => cdnMappings
     end,
     failedUrls)
  else (urlMappings, cdnMappings, failedUrls ++ [res_originalUrl result]).

Definition createUrlMappings (imageResults : list ImageResult)
  : list (jsstring * jsstring) * list (jsstring * jsstring) * list jsstring :=
  fold_left recordResult imageResults ([], [], []).

(** [getReplacementStats] *)
Definition typeName (t : ReplacementType) : jsstring :=
  match t with
  | direct => js "direct"
  | variant => js "variant"
  | fallback => js "fallback"
  end.

Record ReplacementStats := {
  stats_summary : jsstring;
  successRate : jsnum;
  typeDistribution : list (jsstring * nat);
  avgUrlLength : jsnum;
}.

Definition getReplacementStats (result : ReplacementResult) : ReplacementStats :=
  let handled := inject_Z (Z.of_nat (replacedCount result + failedCount result)) in
  let successRate :=
    jmul (jdiv (Fin (inject_Z (Z.of_nat (replacedCount result)))) (Fin handled))
         (Fin 100) in
  let typeDistribution :=
    fold_left (λ acc mapping, bump (typeName (replacementType mapping)) acc)
              (mappings result) [] in
  let avgUrlLength :=
    if bool_decide (0 < length (mappings result)) then
      jdiv
        (Fin (fold_left (λ sum m, sum + inject_Z (Z.of_nat (length (newUrl m))))%Q
                        (mappings result) 0%Q))
        (Fin (inject_Z (Z.of_nat (length (mappings result)))))
    else Fin 0 in
  {| stats_summary :=
       js "Sostituiti " ++ of_nat_str (replacedCount result) ++ js "/"
       ++ of_nat_str (replacedCount result + failedCount result)
       ++ js " URLs (" ++ show_number (jround successRate) ++ js "% successo)";
     successRate := successRate;
     typeDistribution := typeDistribution;
     avgUrlLength := jround avgUrlLength |}.

End Replacer.
End UrlReplacer.

(** ** PostProcessingOrchestrator *)

Module PostProcessingOrchestrator.

(** The entries of the array [generateImages] returns. *)
Record GeneratedImage := {
  gen_originalUrl : jsstring;
  gen_newUrl : jsstring;
  gen_cdnUrl : option jsstring;
  gen_path : jsstring;
  gen_success : bool;
  gen_error : option jsstring;
}.

(** What [generateImageMock] is asked, and what of its answer is read. *)
Record ImageMockOptions := {
  mock_prompt : jsstring;
  mock_model : jsstring;
  mock_size : jsstring;
  mock_uploadToCloud : bool;
}.

Record ImageMockResult := {
  mock_imageUrl : jsstring;
  mock_cdnUrl : option jsstring;
}.

(** [createBatches], for a size that is a whole number.  Each turn of the
    loop takes one unit of [fuel]; [None] is a loop still running when the
    fuel is spent. *)
Fixpoint createBatches_from {T} (fuel : nat) (items : list T) (batchSize i : Z)
    (batches : list (list T)) : option (list (list T)) :=
  if (i <? Z.of_nat (length items))%Z then
    match fuel with
    | 0 => None
    | S fuel' =>
        createBatches_from fuel' items batchSize (i + batchSize)
                           (batches ++ [slice items i (i + batchSize)])
    end
  else Some batches.

Definition createBatches {T} (fuel : nat) (items : list T) (batchSize : Z)
  : option (list (list T)) :=
  createBatches_from fuel items batchSize 0 [].

(** [createBasicPlan]; [descriptions.get(img.path)!] is [undefined] when the
    map has no entry. *)
Definition createBasicPlan (images : list ImageUrlInfo)
    (descriptions : gmap jsstring ImageDescription) : OptimizationResult :=
  let groups :=
    (λ img,
       let description := descriptions !! path img in
       {| masterImageId := path img;
          groupDescription := description;
          groupTargetDimensions := dimensions img;
          variants :=
            [{| imageId := path img; processingType := generate;
                sourceImageId := None; targetDimensions := dimensions img;
                cropRegion := None; description := description;
                priority := 1; estimatedCost := 1 |}];
          totalCost := 1 |}) <$> images in
  {| groups := groups;
     totalImages := length images;
     generatedImages := length images;
     resizedImages := 0;
     croppedImages := 0;
     reusedImages := 0;
     estimatedSavings := Fin 0 |}.

Section Orchestrator.

(** The generator, which is outside the program: its answer to the request
    made for the [k]-th group of a run, an image or the message of the error
    it throws. *)
Variable generateImageMock : nat → ImageMockOptions → jsstring + ImageMockResult.

(** The message of the [TypeError] for reading a property of [undefined]. *)
Variable undefined_message : jsstring.

(** [this.options.uploadToCloud] and [this.options.maxConcurrentGenerations],
    a whole number. *)
Variable uploadToCloud : bool.
Variable maxConcurrentGenerations : Z.

(** [processGroup] for the [k]-th group; [None] is the rejection for a group
    without a [generate] plan. *)
Definition processGroup (k : nat) (group : ProcessingGroup)
  : option (list GeneratedImage) :=
  match find (λ v, bool_decide (processingType v = generate)) (variants group) with
  | None => None
  | Some masterPlan =>
      let failed (errorMsg : jsstring) :=
        (λ variant,
           {| gen_originalUrl := imageId variant; gen_newUrl := [];
              gen_cdnUrl := None; gen_path := imageId variant;
              gen_success := false; gen_error := Some errorMsg |})
          <$> variants group in
      Some
        match description masterPlan with
        | None => failed undefined_message
        | Some d =>
            match
              generateImageMock k
                {| mock_prompt := enhancedPrompt d;
                   mock_model := js "black-forest-labs/FLUX.1-dev";
                   mock_size :=
                     of_N_str (width (targetDimensions masterPlan)) ++ js "x"
                     ++ of_N_str (height (targetDimensions masterPlan));
                   mock_uploadToCloud := uploadToCloud |}
            with
            | inl errorMsg => failed errorMsg
            | inr masterResult =>
                if truthy_str (mock_imageUrl masterResult) then
                  (λ variant,
                     {| gen_originalUrl := imageId variant;
                        gen_newUrl := mock_imageUrl masterResult;
                        gen_cdnUrl := mock_cdnUrl masterResult;
                        gen_path := imageId variant;
                        gen_success := true; gen_error := None |})
                    <$> variants group
                else
                  failed (js "Failed to generate master image: No image URL returned")
            end
        end
  end.

(** What [generateImages] pushes for a group once its promise is settled:
    the results of [processGroup], or one failure for each variant of a
    group that was rejected. *)
Definition settled (k : nat) (group : ProcessingGroup) : list GeneratedImage :=
  match processGroup k group with
  | Some results => results
  | None =>
      (λ variant,
         {| gen_originalUrl := []; gen_newUrl := []; gen_cdnUrl := None;
            gen_path := imageId variant; gen_success := false;
            gen_error :=
              Some (js "Error: No master generation plan found for group "
                    ++ masterImageId group) |})
        <$> variants group
  end.

(** The average priority [sortGroupsByPriority] compares; a group without
    variants has [NaN] for it. *)
Definition averagePriority (group : ProcessingGroup) : jsnum :=
  jdiv (Fin (inject_Z (fold_left (λ sum v, sum + priority v)%Z (variants group) 0%Z)))
       (Fin (inject_Z (Z.of_nat (length (variants group))))).

(** [sortGroupsByPriority]: by average priority, the greater first.  The
    language asks for a stable sort, and says what it returns when the
    comparison is consistent, which it is when every average is a number:
    the one stable arrangement, which insertion from the right builds.  With
    a group without variants in the array the order is left to the engine:
    [None]. *)
Fixpoint insertGroup (group : ProcessingGroup) (avg : Q)
    (sorted : list (ProcessingGroup * Q)) : list (ProcessingGroup * Q) :=
  match sorted with
  | [] => [(group, avg)]
  | (b, avgB) :: rest =>
      if Qle_bool avgB avg then (group, avg) :: sorted
      else (b, avgB) :: insertGroup group avg rest
  end.

Definition sortGroupsByPriority (groups : list ProcessingGroup)
  : option (list ProcessingGroup) :=
  fmap fst <$>
    foldr
      (λ group sorted,
         sorted ← sorted;
         match averagePriority group with
         | Fin avg => Some (insertGroup group avg sorted)
         | _ => None
         end)
      (Some []) groups.

(** [generateImages]: batch after batch, every group of a batch is started
    in order and the results are pushed in order once all are settled. *)
Definition generateImages (fuel : nat) (optimization : OptimizationResult)
  : option (list GeneratedImage) :=
  sortedGroups ← sortGroupsByPriority (groups optimization);
  let concurrencyLimit :=
    if (maxConcurrentGenerations =? 0)%Z then 3%Z else maxConcurrentGenerations in
  batches ← createBatches fuel sortedGroups concurrencyLimit;
  Some
    (fold_left
       (λ '(k, results) batch,
          (k + length batch,
           results ++ mjoin (imap (λ j group, settled (k + j) group) batch)))
       batches (0, [])).2.

End Orchestrator.
End PostProcessingOrchestrator.

(** ** A runtime for the examples *)

Module Examples.

(** [log10] where it is an integer: on the powers of ten from 10^-8 to 10^8. *)
Definition log10_exact (x : Q) : option Z :=
  find (λ k : Z, Qeq_bool x (Qpower 10 k)) (seqZ (-8) 17).

(** On ASCII strings [toLowerCase] changes the letters A to Z only.  Every
    random draw is 0, the network reports nothing, and [Math.round] is
    [floor (x + 1/2)]; the examples ask for [log10] of powers of ten only. *)
Global Instance ascii_runtime : Runtime := {|
  toLowerCase := fmap lower_unit;
  random_draw := λ _, 0;
  round_log10 := λ p x, Qfloor (p + inject_Z (default 0%Z (log10_exact x)) + (1 # 2))%Q;
  ToString := λ _ _, js "[object Object]";
  validation_errors := λ _, [];
|}.

(** [{"thumb": "https://picsum.photos/200/200",
      "banner": "https://picsum.photos/200/200"}] *)
Definition twoFields : heap :=
  [NObj [(js "thumb", VStr (js "https://picsum.photos/200/200"));
         (js "banner", VStr (js "https://picsum.photos/200/200"))]].

(** [{"name": "Widget", "image": "https://picsum.photos/1000/1000",
      "icon": "https://picsum.photos/100/100"}] *)
Definition widget : heap :=
  [NObj [(js "name", VStr (js "Widget"));
         (js "image", VStr (js "https://picsum.photos/1000/1000"));
         (js "icon", VStr (js "https://picsum.photos/100/100"))]].

(** [{"a": "https://picsum.photos/200/300", "b": "https://picsum.photos/v2/list"}] *)
Definition listing : heap :=
  [NObj [(js "a", VStr (js "https://picsum.photos/200/300"));
         (js "b", VStr (js "https://picsum.photos/v2/list"))]].

(** [{"img": "HTTPS://picsum.photos/200/300"}] *)
Definition upperScheme : heap :=
  [NObj [(js "img", VStr (js "HTTPS://picsum.photos/200/300"))]].

(** The first three stages of the pipeline on the document at location 0 of
    [h], with the default options of the orchestrator. *)
Definition extracted (h : heap) : list ImageUrlInfo :=
  default [] (ImageUrlExtractor.images <$> ImageUrlExtractor.extractPicsumUrls 2 h (VRef 0)).

Definition described (h : heap) : gmap jsstring ImageDescription :=
  DescriptionGenerator.generateDescriptions h (extracted h)
    DescriptionGenerator.defaultOptions.

Definition analysed (h : heap) : option OptimizationResult :=
  ImageProcessingAnalyzer.createProcessingPlan h (extracted h) (described h).

(** What the claims say of a plan. *)
Definition summary (v : ProcessingPlan)
  : jsstring * ProcessingType * option jsstring * Q :=
  (imageId v, processingType v, sourceImageId v, estimatedCost v).


(** The two occurrences of [twoFields]. *)
Definition thumbOccurrence : ImageUrlInfo :=
  {| url := js "https://picsum.photos/200/200"; path := js "thumb";
     fieldName := js "thumb"; context := VRef 0;
     dimensions := {| width := 200; height := 200 |}; seed := None; itemIndex := 0 |}.

Definition bannerOccurrence : ImageUrlInfo :=
  {| url := js "https://picsum.photos/200/200"; path := js "banner";
     fieldName := js "banner"; context := VRef 0;
     dimensions := {| width := 200; height := 200 |}; seed := None; itemIndex := 0 |}.

(** A generator that answers every request with the same image. *)
Definition sameImage (k : nat) (request : PostProcessingOrchestrator.ImageMockOptions)
  : jsstring + PostProcessingOrchestrator.ImageMockResult :=
  inr {| PostProcessingOrchestrator.mock_imageUrl := js "https://cdn.example/x.png";
         PostProcessingOrchestrator.mock_cdnUrl := None |}.

End Examples.

(** * Vocabulary of the statements *)

(** ** Costs of a plan *)

(** The sum of the estimated costs of a list of plans. *)
Definition sumCosts (plans : list ProcessingPlan) : Q :=
  foldr (λ v acc, estimatedCost v + acc)%Q 0%Q plans.

(** The sum of the [totalCost]s of a list of groups, which the loop of
    [calculateOptimizationResult] accumulates. *)
Definition sumTotalCosts (processingGroups : list ProcessingGroup) : Q :=
  foldr (λ g acc, totalCost g + acc)%Q 0%Q processingGroups.

(** A plan costs more than nothing and at most one generation. *)
Definition unitCost (v : ProcessingPlan) : Prop := (0 < estimatedCost v <= 1)%Q.

(** The occurrences of a group other than its master, in the group's order. *)
Definition others (masterImage : ImageUrlInfo) (group : list ImageUrlInfo)
  : list ImageUrlInfo :=
  filter (λ i, path i ≠ path masterImage) group.

(** ** Documents in the store *)

(** [document lo n h v]: [v] is a JSON document of depth at most [n] whose
    objects and arrays are nodes of [h] at locations from [lo] on.  The
    keys of an object are distinct. *)
Fixpoint document (lo n : nat) (h : heap) (v : val) : Prop :=
  match v with
  | VRef l =>
      match n with
      | 0 => False
      | S n' =>
          lo ≤ l ∧
          match h !! l with
          | Some (NObj fields) =>
              NoDup fields.*1 ∧ Forall (λ kv, document lo n' h kv.2) fields
          | Some (NArr items) => Forall (document lo n' h) items
          | None => False
          end
      end
  | _ => True
  end.

(** Two stores of the same shape: the same nodes with the same keys and the
    same references, where only string properties may differ. *)
Definition field_shape (p q : jsstring * val) : Prop :=
  p.1 = q.1 ∧ (p.2 = q.2 ∨ ∃ s t, p.2 = VStr s ∧ q.2 = VStr t).

Definition node_shape (a b : node) : Prop :=
  match a, b with
  | NArr x, NArr y => x = y
  | NObj x, NObj y => Forall2 field_shape x y
  | _, _ => False
  end.

Definition same_shape (h h' : heap) : Prop := Forall2 node_shape h h'.

(** What a walk leaves of the store [h] it started from: the shape, and
    every node below [lo]. *)
Definition kept (lo : nat) (h h' : heap) : Prop :=
  same_shape h h' ∧ ∀ l, l < lo → h' !! l = h !! l.

(** ** Replacement and prompts *)

(** The message of an unresolved URL that is kept. *)
Definition notFound (originalUrl path : jsstring) : jsstring :=
  js "No replacement found for URL: " ++ originalUrl ++ js " at " ++ path.

(** A string of ASCII code units only; none of them is a surrogate. *)
Definition ascii_only (s : jsstring) : Prop := Forall (λ c, (c < 128)%N) s.

(** Every original URL with a CDN entry has a direct entry that is not
    empty. *)
Definition cdn_within (urlMappings cdnMappings : list (jsstring * jsstring)) : Prop :=
  ∀ u, isSome (UrlReplacer.mapGet u cdnMappings) = true →
       found (UrlReplacer.mapGet u urlMappings) = true.

(** ** Whole numbers *)

(** A whole number that binary64 holds exactly: what [parseInt] reads of
    its digits and what a template literal prints of it are the number
    itself. *)
Definition safeInteger (n : N) : Prop := (n < 2 ^ 53)%N.

(** ** Maps of arrays and of counters *)

(** The array filed under [k] in a map of arrays; none is the empty one. *)
Definition groupOf {A} (k : jsstring) (groups : list (jsstring * list A)) : list A :=
  match find (λ kv, bool_decide (kv.1 = k)) groups with
  | Some (_, xs) => xs
  | None => []
  end.

(** The sum of the counters of a map of counters. *)
Definition countAll (m : list (jsstring * nat)) : nat := foldr (λ kv n, kv.2 + n) 0 m.

(** The counter under [k] in a map of counters; none is zero. *)
Definition countOf (k : jsstring) (m : list (jsstring * nat)) : nat :=
  match find (λ kv, bool_decide (kv.1 = k)) m with
  | Some (_, n) => n
  | None => 0
  end.

#[global] Instance ReplacementType_eq_dec : EqDecision UrlReplacer.ReplacementType.
Proof. solve_decision. Defined.

(** ** Occurrences in a document *)

(** [inside n h v l]: the node at [l] is [v] or lies within [v], at most
    [n] references deep. *)
Fixpoint inside (n : nat) (h : heap) (v : val) (l : nat) : Prop :=
  match v, n with
  | VRef l0, S n' =>
      l0 = l
      ∨ match h !! l0 with
        | Some (NObj fields) => Exists (λ kv, inside n' h kv.2 l) fields
        | Some (NArr items) => Exists (λ item, inside n' h item l) items
        | None => False
        end
  | _, _ => False
  end.

(** The occurrence [img] records a string property of an object of [h]
    that [isPicsumUrl] accepts, with the dimensions and the seed that the
    URL gives. *)
Definition extractedFrom (h : heap) (img : ImageUrlInfo) : Prop :=
  ∃ l fields,
    context img = VRef l
    ∧ h !! l = Some (NObj fields)
    ∧ (fieldName img, VStr (url img)) ∈ fields
    ∧ ImageUrlExtractor.isPicsumUrl (url img) = true
    ∧ ImageUrlExtractor.extractDimensions (url img) = Some (dimensions img)
    ∧ seed img = ImageUrlExtractor.extractSeed (url img).

(** Among [found] is an occurrence for the property [key] of the object at
    [l], which holds the URL [s]. *)
Definition reports (found : list ImageUrlInfo) (l : nat) (key s : jsstring) : Prop :=
  ∃ img, img ∈ found ∧ context img = VRef l ∧ fieldName img = key ∧ url img = s.

(** ** Paths of a document *)

(** The characters [.] and [[] that start a step of a path. *)
Definition separator (c : N) : Prop := c = 46%N ∨ c = 91%N.

#[global] Instance separator_dec c : Decision (separator c).
Proof. unfold separator. apply _. Defined.

(** A key that is not empty and holds no separator. *)
Definition plainKey (key : jsstring) : Prop :=
  key ≠ [] ∧ Forall (λ c, ¬ separator c) key.

#[global] Instance plainKey_dec key : Decision (plainKey key).
Proof. unfold plainKey. apply _. Defined.

(** Every key of every object within [v] is plain. *)
Fixpoint plainKeys (n : nat) (h : heap) (v : val) : Prop :=
  match v with
  | VRef l =>
      match n with
      | 0 => True
      | S n' =>
          match h !! l with
          | Some (NObj fields) =>
              Forall (λ kv, plainKey kv.1 ∧ plainKeys n' h kv.2) fields
          | Some (NArr items) => Forall (plainKeys n' h) items
          | None => True
          end
      end
  | _ => True
  end.

(** [opens stop r]: [r] is empty or starts with a character of [stop]. *)
Definition opens (stop : N → Prop) (r : jsstring) : Prop :=
  match r with [] => True | c :: _ => stop c end.

(** [p] is [currentPath] or continues it with a further step. *)
Definition under (currentPath p : jsstring) : Prop :=
  ∃ r, p = currentPath ++ r ∧ opens separator r.

(** ** Copies and counters of a replacement *)

(** [copyOf n h v v']: in the store [h], [v'] is a copy of the document [v]
    of depth at most [n]: the same primitive, or a node of the same kind
    with copies of the same elements, or of the same properties but
    [__proto__], in the same order. *)
Fixpoint copyOf (n : nat) (h : heap) (v v' : val) : Prop :=
  match v, v' with
  | VRef l, VRef l' =>
      match n with
      | 0 => False
      | S n' =>
          match h !! l, h !! l' with
          | Some (NObj fields), Some (NObj fields') =>
              Forall2 (λ kv kv', kv.1 = kv'.1 ∧ copyOf n' h kv.2 kv'.2)
                      (filter (λ kv, kv.1 ≠ js "__proto__") fields) fields'
          | Some (NArr items), Some (NArr items') => Forall2 (copyOf n' h) items items'
          | _, _ => False
          end
      end
  | VRef _, _ | _, VRef _ => False
  | _, _ => v = v'
  end.

(** What the counters of a [ReplacementResult] keep true during a walk. *)
Record counted (options : UrlReplacer.RequiredOptions) (result : UrlReplacer.ReplacementResult)
  : Prop := {
  counted_mappings : length (UrlReplacer.mappings result) = UrlReplacer.replacedCount result;
  counted_failures :
    UrlReplacer.preserveOriginalOnFailure options = false →
    UrlReplacer.failedCount result = 0 ∧ UrlReplacer.errors result = [];
  counted_errors :
    UrlReplacer.preserveOriginalOnFailure options = true →
    length (UrlReplacer.errors result) = UrlReplacer.failedCount result;
}.

(** A mapping that records no change: the fallback, which wrote the URL that
    was there. *)
Definition unchanged (m : UrlReplacer.UrlMapping) : Prop :=
  UrlReplacer.newUrl m = UrlReplacer.originalUrl m
  ∧ UrlReplacer.replacementType m = UrlReplacer.fallback
  ∧ UrlReplacer.cdnUrl m = None.

(** An image result that [createUrlMappings] records: a success with a new
    URL that is not empty. *)
Definition usable (r : UrlReplacer.ImageResult) : bool :=
  UrlReplacer.res_success r && truthy_str (UrlReplacer.res_newUrl r).

(** What a result gives for the original URL [u]: its new URL, and its CDN
    URL when it has one. *)
Definition newFor (u : jsstring) (r : UrlReplacer.ImageResult) : option jsstring :=
  if usable r && bool_decide (UrlReplacer.res_originalUrl r = u)
  then Some (UrlReplacer.res_newUrl r) else None.

Definition cdnFor (u : jsstring) (r : UrlReplacer.ImageResult) : option jsstring :=
  if usable r && bool_decide (UrlReplacer.res_originalUrl r = u)
  then c ← UrlReplacer.res_cdnUrl r; if truthy_str c then Some c else None
  else None.

(** ** Generation *)

(** [a] is not after [b] in an array sorted by priority: both averages are
    numbers and that of [a] is not the smaller one. *)
Definition ahead (a b : ProcessingGroup) : Prop :=
  match PostProcessingOrchestrator.averagePriority a,
        PostProcessingOrchestrator.averagePriority b with
  | Fin qa, Fin qb => (qb <= qa)%Q
  | _, _ => False
  end.

(** * Properties *)

(** ** The analyzer *)

Section AnalyzerFacts.
Import ImageProcessingAnalyzer.
Context `{Runtime}.
Variable h : heap.
Variable images : list ImageUrlInfo.
Variable descriptions : gmap jsstring ImageDescription.

(** What the loops of [groupBySimilarity] keep true of the occurrences
    placed in groups so far ([members]) and of the set [processed]. *)
Record grouped (members : list ImageUrlInfo) (processed : gset jsstring) : Prop := {
  grouped_nodup : NoDup (path <$> members);
  grouped_processed : ∀ i, i ∈ members → path i ∈ processed;
  grouped_described : ∀ i, i ∈ members → is_Some (descriptions !! path i);
  grouped_from : ∀ i, i ∈ members → i ∈ images;
}.

(** Every processed path is the path of a grouped occurrence: true as long
    as no occurrence without a description has been met. *)
Definition covered (members : list ImageUrlInfo) (processed : gset jsstring) : Prop :=
  ∀ p, p ∈ processed → p ∈ path <$> members.

Lemma grouped_snoc members processed i :
  grouped members processed → path i ∉ processed → i ∈ images →
  is_Some (descriptions !! path i) →
  grouped (members ++ [i]) ({[path i]} ∪ processed).
Proof.
  intros [Hnd Hp Hd Hf] Hi Him Hdesc. split.
  - rewrite fmap_app. apply NoDup_app. split; [done|]. split.
    + intros p Hp1 Hp2. apply list_elem_of_singleton in Hp2. subst p.
      apply list_elem_of_fmap in Hp1 as (j & Hj & Hjm).
      apply Hi. rewrite Hj. by apply Hp.
    + apply NoDup_singleton.
  - intros j Hj. apply elem_of_app in Hj as [Hj|Hj].
    + apply elem_of_union_r. by apply Hp.
    + apply list_elem_of_singleton in Hj. subst j.
      apply elem_of_union_l. by apply elem_of_singleton.
  - intros j Hj. apply elem_of_app in Hj as [Hj|Hj]; [by apply Hd|].
    apply list_elem_of_singleton in Hj. by subst j.
  - intros j Hj. apply elem_of_app in Hj as [Hj|Hj]; [by apply Hf|].
    apply list_elem_of_singleton in Hj. by subst j.
Qed.

Lemma covered_snoc members processed i :
  covered members processed → covered (members ++ [i]) ({[path i]} ∪ processed).
Proof.
  intros Hc p Hp. rewrite fmap_app. apply elem_of_app.
  apply elem_of_union in Hp as [Hp|Hp].
  - right. apply elem_of_singleton in Hp. subst p.
    apply list_elem_of_singleton. done.
  - left. by apply Hc.
Qed.

(** The inner loop only appends to the current group. *)
Lemma collectSimilar_fold image currentDesc others done_ currentGroup processed :
  (∀ i, i ∈ others → i ∈ images) →
  grouped (done_ ++ currentGroup) processed →
  ∃ added processed',
    fold_left (collectSimilar h descriptions image currentDesc) others
              (currentGroup, processed)
    = (currentGroup ++ added, processed')
    ∧ grouped (done_ ++ currentGroup ++ added) processed'
    ∧ processed ⊆ processed'
    ∧ (covered (done_ ++ currentGroup) processed →
       covered (done_ ++ currentGroup ++ added) processed').
Proof.
  revert currentGroup processed.
  induction others as [|other others IH]; intros currentGroup processed Hin Hg.
  - exists [], processed. rewrite !app_nil_r. done.
  - assert (Hin' : ∀ i, i ∈ others → i ∈ images)
      by (intros i Hi; apply Hin; by right).
    assert (Hskip :
      ∃ added processed',
        fold_left (collectSimilar h descriptions image currentDesc) others
                  (currentGroup, processed)
        = (currentGroup ++ added, processed')
        ∧ grouped (done_ ++ currentGroup ++ added) processed'
        ∧ processed ⊆ processed'
        ∧ (covered (done_ ++ currentGroup) processed →
           covered (done_ ++ currentGroup ++ added) processed'))
      by (by apply IH).
    cbn [fold_left]. unfold collectSimilar at 2.
    case_bool_decide as Hproc; [exact Hskip|].
    destruct (descriptions !! path other) as [otherDesc|] eqn:Hdesc; [|exact Hskip].
    destruct (similar h image other currentDesc otherDesc); [|exact Hskip].
    destruct (IH (currentGroup ++ [other]) ({[path other]} ∪ processed) Hin')
      as (added & processed' & Hfold & Hg' & Hsub & Hcov).
    { rewrite app_assoc. apply grouped_snoc; [done|done| |by rewrite Hdesc].
      apply Hin. by left. }
    exists (other :: added), processed'. split; [|split; [|split]].
    + rewrite Hfold. by rewrite <- app_assoc.
    + by rewrite <- app_assoc in Hg'.
    + intros p Hp. apply Hsub. by apply elem_of_union_r.
    + intros Hc. rewrite <- app_assoc in Hcov. apply Hcov.
      rewrite app_assoc. by apply covered_snoc.
Qed.

(** What the outer loop keeps true of the groups emitted so far. *)
Record emitted (groups : list (list ImageUrlInfo)) (processed : gset jsstring) : Prop := {
  emitted_grouped : grouped (mjoin groups) processed;
  emitted_nonempty : Forall (λ g, g ≠ []) groups;
}.

Lemma startGroup_fold todo groups processed :
  (∀ i, i ∈ todo → i ∈ images) →
  emitted groups processed →
  ∃ groups' processed',
    fold_left (startGroup h images descriptions) todo (groups, processed)
    = (groups', processed')
    ∧ emitted groups' processed'
    ∧ processed ⊆ processed'
    ∧ (∀ i, i ∈ todo → path i ∈ processed')
    ∧ ((∀ i, i ∈ todo → is_Some (descriptions !! path i)) →
       covered (mjoin groups) processed → covered (mjoin groups') processed').
Proof.
  revert groups processed.
  induction todo as [|image todo IH]; intros groups processed Hin Hem.
  - exists groups, processed. split; [done|]. split; [done|]. split; [done|].
    split; [|done]. intros i Hi. by apply elem_of_nil in Hi.
  - assert (Hin' : ∀ i, i ∈ todo → i ∈ images)
      by (intros i Hi; apply Hin; by right).
    cbn [fold_left]. unfold startGroup at 2.
    case_bool_decide as Hproc.
    + destruct (IH groups processed Hin' Hem) as (gs & ps & Hf & Hem' & Hsub & Hall & Hcov).
      exists gs, ps. split; [done|]. split; [done|]. split; [done|]. split.
      * intros i Hi. apply elem_of_cons in Hi as [->|Hi]; [by apply Hsub|by apply Hall].
      * intros Hd. apply Hcov. intros i Hi. apply Hd. by right.
    + destruct (descriptions !! path image) as [currentDesc|] eqn:Hdesc.
      * destruct Hem as [Hg Hne].
        destruct (collectSimilar_fold image currentDesc images (mjoin groups) [image]
                    ({[path image]} ∪ processed)) as (added & ps1 & Hfold & Hg1 & Hsub1 & Hcov1).
        { done. }
        { apply grouped_snoc; [done|done| |by rewrite Hdesc]. apply Hin. by left. }
        rewrite Hfold.
        destruct (IH (groups ++ [[image] ++ added]) ps1 Hin')
          as (gs & ps & Hf & Hem' & Hsub & Hall & Hcov).
        { split.
          - rewrite join_app. simpl. by rewrite app_nil_r.
          - apply Forall_app. split; [done|]. by repeat constructor. }
        exists gs, ps. split; [done|]. split; [done|]. split.
        { intros p Hp. apply Hsub, Hsub1. by apply elem_of_union_r. }
        split.
        -- intros i Hi. apply elem_of_cons in Hi as [->|Hi]; [|by apply Hall].
           apply Hsub, Hsub1, elem_of_union_l. by apply elem_of_singleton.
        -- intros Hd Hc. apply Hcov; [intros i Hi; apply Hd; by right|].
           rewrite join_app. simpl. rewrite app_nil_r. apply Hcov1.
           by apply covered_snoc.
      * destruct (IH groups ({[path image]} ∪ processed) Hin')
          as (gs & ps & Hf & Hem' & Hsub & Hall & Hcov).
        { destruct Hem as [[Hnd Hp Hd Hf] Hne]. split; [split|]; try done.
          intros i Hi. apply elem_of_union_r. by apply Hp. }
        exists gs, ps. split; [done|]. split; [done|]. split.
        { intros p Hp. apply Hsub. by apply elem_of_union_r. }
        split.
        -- intros i Hi. apply elem_of_cons in Hi as [->|Hi]; [|by apply Hall].
           apply Hsub, elem_of_union_l. by apply elem_of_singleton.
        -- intros Hd. exfalso. destruct (Hd image) as [d Hd']; [by left|]. congruence.
Qed.

Lemma groupBySimilarity_spec :
  let gs := groupBySimilarity h images descriptions in
  NoDup (path <$> mjoin gs)
  ∧ (∀ i, i ∈ mjoin gs → i ∈ images ∧ is_Some (descriptions !! path i))
  ∧ Forall (λ g, g ≠ []) gs
  ∧ ((∀ i, i ∈ images → is_Some (descriptions !! path i)) →
     ∀ i, i ∈ images → path i ∈ path <$> mjoin gs).
Proof.
  unfold groupBySimilarity.
  destruct (startGroup_fold images [] ∅) as (gs & ps & Hf & [[Hnd Hp Hd Hfrom] Hne] & _ & Hall & Hcov).
  { done. }
  { split; [split|]; simpl; try done; try (intros i Hi; by apply elem_of_nil in Hi).
    constructor. }
  rewrite Hf. simpl. split; [done|]. split; [|split; [done|]].
  - intros i Hi. split; [by apply Hfrom|by apply Hd].
  - intros Hdesc i Hi. apply Hcov; [done| |by apply Hall].
    intros p Hp'. by apply not_elem_of_empty in Hp'.
Qed.


(** *** [optimizeGroup] *)

Lemma sumCosts_app a b : (sumCosts (a ++ b) == sumCosts a + sumCosts b)%Q.
Proof.
  induction a as [|v a IH]; simpl.
  - lra.
  - rewrite IH. lra.
Qed.

Lemma classify_cases masterDims targetDims :
  classify masterDims targetDims = (reuse, None, (1 # 10)%Q)
  ∨ classify masterDims targetDims = (resize, None, (2 # 10)%Q)
  ∨ classify masterDims targetDims
    = (crop, Some (calculateOptimalCrop masterDims targetDims), (3 # 10)%Q)
  ∨ classify masterDims targetDims = (generate, None, 1%Q).
Proof.
  unfold classify.
  repeat match goal with |- context [if ?b then _ else _] => destruct b end; auto.
Qed.

Lemma classify_cost masterDims targetDims :
  (0 < (classify masterDims targetDims).2 <= 1)%Q.
Proof.
  destruct (classify_cases masterDims targetDims) as [E|[E|[E|E]]];
    rewrite E; simpl; split; reflexivity || discriminate.
Qed.

Lemma classify_same_dimensions d : classify d d = (reuse, None, (1 # 10)%Q).
Proof.
  unfold classify. rewrite !bool_decide_eq_true_2 by done. done.
Qed.

Lemma createVariantPlan_described targetImage masterImage :
  is_Some (descriptions !! path targetImage) →
  ∃ plan,
    createVariantPlan targetImage masterImage descriptions = Some plan
    ∧ imageId plan = path targetImage
    ∧ targetDimensions plan = dimensions targetImage
    ∧ (processingType plan, cropRegion plan, estimatedCost plan)
      = classify (dimensions masterImage) (dimensions targetImage)
    ∧ sourceImageId plan
      = (if bool_decide (processingType plan ≠ generate)
         then Some (path masterImage) else None).
Proof.
  intros [targetDesc Hd]. unfold createVariantPlan. rewrite Hd. simpl.
  destruct (classify (dimensions masterImage) (dimensions targetImage))
    as [[t c] q].
  eexists. split; [reflexivity|]. simpl. done.
Qed.

Lemma selectMasterImage_pick rest best :
  fold_left
    (λ best current,
       if Qltb (masterScore descriptions best) (masterScore descriptions current)
       then current else best)
    rest best ∈ best :: rest.
Proof.
  revert best. induction rest as [|c rest IH]; intros best; simpl.
  - by left.
  - destruct (Qltb _ _).
    + right. apply IH.
    + specialize (IH best). apply elem_of_cons in IH as [->|IH].
      * by left.
      * right. by right.
Qed.

Lemma selectMasterImage_in group :
  group ≠ [] →
  ∃ masterImage,
    selectMasterImage group descriptions = Some masterImage ∧ masterImage ∈ group.
Proof.
  destruct group as [|first rest]; [done|]. intros _.
  eexists. split; [reflexivity|]. apply selectMasterImage_pick.
Qed.

Lemma addVariant_fold masterImage group plans0 cost0 :
  (∀ i, i ∈ group → is_Some (descriptions !! path i)) →
  ∃ plans cost,
    forEachM (addVariant masterImage descriptions) group (plans0, cost0)
    = Some (plans0 ++ plans, cost)
    ∧ Forall2 (λ i p, createVariantPlan i masterImage descriptions = Some p)
              (others masterImage group) plans
    ∧ (cost == cost0 + sumCosts plans)%Q.
Proof.
  revert plans0 cost0.
  induction group as [|i group IH]; intros plans0 cost0 Hd.
  - exists [], cost0. rewrite app_nil_r. simpl. split; [done|].
    split; [constructor|lra].
  - assert (Hd' : ∀ j, j ∈ group → is_Some (descriptions !! path j))
      by (intros j Hj; apply Hd; by right).
    cbn [forEachM]. unfold addVariant at 1, others. cbv beta iota.
    rewrite filter_cons. case_bool_decide as Hm.
    + rewrite decide_False by (intros Hne; by apply Hne).
      by apply IH.
    + rewrite decide_True by done.
      destruct (createVariantPlan_described i masterImage) as (plan & Hp & _);
        [apply Hd; by left|].
      rewrite Hp. simpl.
      destruct (IH (plans0 ++ [plan]) (cost0 + estimatedCost plan)%Q Hd')
        as (plans & cost & Hf & Hall & Hc).
      exists (plan :: plans), cost. split; [|split].
      * rewrite Hf. by rewrite <- app_assoc.
      * by constructor.
      * rewrite Hc. simpl. lra.
Qed.

Lemma optimizeGroup_several group :
  length group ≠ 1 →
  optimizeGroup group descriptions
  = (masterImage ← selectMasterImage group descriptions;
     '(variants, totalCost) ←
       forEachM (addVariant masterImage descriptions) group
                ([masterPlan masterImage descriptions], 1%Q);
     Some {| masterImageId := path masterImage;
             groupDescription := descriptions !! path masterImage;
             groupTargetDimensions := dimensions masterImage;
             variants := variants;
             totalCost := totalCost |}).
Proof. destruct group as [|a [|b c]]; simpl; intros Hl; [done|lia|done]. Qed.

Lemma optimizeGroup_spec group :
  group ≠ [] →
  (∀ i, i ∈ group → is_Some (descriptions !! path i)) →
  ∃ result masterImage rest,
    optimizeGroup group descriptions = Some result
    ∧ masterImage ∈ group
    ∧ masterImageId result = path masterImage
    ∧ groupTargetDimensions result = dimensions masterImage
    ∧ variants result = masterPlan masterImage descriptions :: rest
    ∧ Forall2 (λ i p, createVariantPlan i masterImage descriptions = Some p)
              (others masterImage group) rest
    ∧ (totalCost result == sumCosts (variants result))%Q.
Proof.
  intros Hne Hd.
  destruct (selectMasterImage_in group Hne) as (masterImage & Hsel & Hin).
  destruct group as [|image [|second more]]; [done| |].
  - exists
      {| masterImageId := path image;
         groupDescription := descriptions !! path image;
         groupTargetDimensions := dimensions image;
         variants := [masterPlan image descriptions];
         totalCost := 1 |}, image, [].
    simpl. split; [done|]. split; [by left|]. split; [done|]. split; [done|].
    split; [done|]. split; [|lra].
    unfold others. rewrite filter_cons, decide_False by (intros Hx; by apply Hx).
    constructor.
  - remember (image :: second :: more) as group eqn:Hgroup.
    destruct (addVariant_fold masterImage group [masterPlan masterImage descriptions] 1%Q Hd)
      as (plans & cost & Hf & Hall & Hc).
    exists
      {| masterImageId := path masterImage;
         groupDescription := descriptions !! path masterImage;
         groupTargetDimensions := dimensions masterImage;
         variants := [masterPlan masterImage descriptions] ++ plans;
         totalCost := cost |}, masterImage, plans.
    split.
    { rewrite optimizeGroup_several by (subst group; simpl; lia).
      rewrite Hsel. simpl. rewrite Hf. done. }
    simpl. split; [done|]. split; [done|]. split; [done|]. split; [done|].
    split; [done|]. rewrite Hc. simpl. lra.
Qed.


Lemma createVariantPlan_inv targetImage masterImage plan :
  createVariantPlan targetImage masterImage descriptions = Some plan →
  imageId plan = path targetImage
  ∧ targetDimensions plan = dimensions targetImage
  ∧ (processingType plan, cropRegion plan, estimatedCost plan)
    = classify (dimensions masterImage) (dimensions targetImage)
  ∧ sourceImageId plan
    = (if bool_decide (processingType plan ≠ generate)
       then Some (path masterImage) else None).
Proof.
  intros Hp.
  destruct (descriptions !! path targetImage) as [d|] eqn:Hd.
  - destruct (createVariantPlan_described targetImage masterImage) as (p & Hp' & Hfacts);
      [by rewrite Hd|].
    rewrite Hp in Hp'. by injection Hp' as <-.
  - unfold createVariantPlan in Hp. rewrite Hd in Hp. done.
Qed.

(** A group as [optimizeGroup] plans it: the master's plan first, then one
    plan per other occurrence. *)
Definition planned (group : list ImageUrlInfo) (result : ProcessingGroup) : Prop :=
  ∃ masterImage rest,
    masterImage ∈ group
    ∧ masterImageId result = path masterImage
    ∧ groupTargetDimensions result = dimensions masterImage
    ∧ variants result = masterPlan masterImage descriptions :: rest
    ∧ Forall2 (λ i p, createVariantPlan i masterImage descriptions = Some p)
              (others masterImage group) rest
    ∧ (totalCost result == sumCosts (variants result))%Q.

Lemma calculateOptimizationResult_groups processingGroups :
  groups (calculateOptimizationResult processingGroups) = processingGroups.
Proof.
  unfold calculateOptimizationResult.
  destruct (fold_left _ processingGroups _) as [[n w] o]. done.
Qed.

Lemma createProcessingPlan_spec :
  ∃ result,
    createProcessingPlan h images descriptions = Some result
    ∧ Forall2 planned (groupBySimilarity h images descriptions) (groups result)
    ∧ result = calculateOptimizationResult (groups result).
Proof.
  destruct groupBySimilarity_spec as (_ & Hin & Hne & _).
  unfold createProcessingPlan.
  set (gs := groupBySimilarity h images descriptions) in *.
  assert (Hall : ∀ g, g ∈ gs →
            ∃ pg, optimizeGroup g descriptions = Some pg ∧ planned g pg).
  { intros g Hg.
    destruct (optimizeGroup_spec g) as (pg & m & rest & Ho & Hfacts).
    - by eapply Forall_forall in Hne.
    - intros i Hi. apply Hin. apply list_elem_of_join. eauto.
    - exists pg. split; [done|]. by exists m, rest. }
  clearbody gs. clear Hin Hne.
  assert (∃ pgs, Forall2 (λ g pg, optimizeGroup g descriptions = Some pg) gs pgs
                 ∧ Forall2 planned gs pgs) as (pgs & Hm & Hp).
  { induction gs as [|g gs IH].
    - exists []. split; constructor.
    - destruct (Hall g) as (pg & Ho & Hpl); [by left|].
      destruct IH as (pgs & Hm & Hp); [intros g' Hg'; apply Hall; by right|].
      exists (pg :: pgs). split; by constructor. }
  apply mapM_Some_2 in Hm.
  rewrite Hm. simpl. eexists. split; [reflexivity|].
  rewrite calculateOptimizationResult_groups. done.
Qed.


(** *** The identifiers of the plans *)

Lemma others_all masterImage group :
  path masterImage ∉ path <$> group → others masterImage group = group.
Proof.
  unfold others. induction group as [|i group IH]; intros Hm; [done|].
  rewrite fmap_cons in Hm. apply not_elem_of_cons in Hm as [Hne Hm].
  rewrite filter_cons, decide_True by done. f_equal. by apply IH.
Qed.

Lemma others_ids masterImage group :
  NoDup (path <$> group) → masterImage ∈ group →
  path masterImage :: (path <$> others masterImage group) ≡ₚ path <$> group.
Proof.
  induction group as [|i group IH]; intros Hnd Hin.
  - by apply elem_of_nil in Hin.
  - rewrite fmap_cons in Hnd. apply NoDup_cons in Hnd as [Hi Hnd].
    unfold others. rewrite filter_cons.
    apply elem_of_cons in Hin as [->|Hin].
    + rewrite decide_False by (intros Hx; by apply Hx).
      fold (others i group). by rewrite others_all.
    + rewrite decide_True.
      * rewrite !fmap_cons. rewrite Permutation_swap. f_equiv. by apply IH.
      * intros Heq. apply Hi. rewrite Heq. apply list_elem_of_fmap. eauto.
Qed.

Lemma planned_ids group result :
  planned group result → NoDup (path <$> group) →
  imageId <$> variants result ≡ₚ path <$> group.
Proof.
  intros (m & rest & Hin & _ & _ & Hv & Hall & _) Hnd.
  rewrite Hv, fmap_cons. simpl.
  rewrite <- (others_ids m group) by done. f_equiv.
  clear Hv. induction Hall as [|i p imgs ps Hp _ IH]; [done|].
  rewrite !fmap_cons. apply createVariantPlan_inv in Hp as (-> & _). by f_equiv.
Qed.

Lemma planIds_groups similarityGroups processingGroups :
  Forall2 planned similarityGroups processingGroups →
  NoDup (path <$> mjoin similarityGroups) →
  planIds processingGroups ≡ₚ path <$> mjoin similarityGroups.
Proof.
  unfold planIds.
  induction 1 as [|g pg gs pgs Hp _ IH]; intros Hnd; [done|].
  simpl in Hnd. rewrite fmap_app in Hnd. apply NoDup_app in Hnd as (Hg & _ & Hgs).
  rewrite bind_cons. simpl. rewrite fmap_app. f_equiv.
  - by apply planned_ids.
  - by apply IH.
Qed.

Lemma totals_fold processingGroups n w o :
  ∃ n' w' o',
    fold_left
      (λ '(totalImages, without, with_) group,
         (totalImages + length (variants group),
          (without + inject_Z (Z.of_nat (length (variants group))))%Q,
          (with_ + totalCost group)%Q))
      processingGroups (n, w, o) = (n', w', o')
    ∧ n' = n + length (planIds processingGroups)
    ∧ (w' == w + inject_Z (Z.of_nat (length (planIds processingGroups))))%Q
    ∧ (o' == o + sumTotalCosts processingGroups)%Q.
Proof.
  revert n w o. unfold planIds.
  induction processingGroups as [|g gs IH]; intros n w o.
  - exists n, w, o. cbn. split; [done|]. split; [lia|].
    change (inject_Z (Z.of_nat 0)) with 0%Q. split; lra.
  - cbn [fold_left].
    destruct (IH (n + length (variants g))
                 (w + inject_Z (Z.of_nat (length (variants g))))%Q
                 (o + totalCost g)%Q) as (n' & w' & o' & Hf & Hn & Hw & Ho).
    exists n', w', o'. split; [done|].
    rewrite bind_cons, length_app, length_fmap.
    split; [lia|]. split.
    + rewrite Hw, Nat2Z.inj_add, inject_Z_plus. lra.
    + rewrite Ho. simpl. lra.
Qed.

Lemma totalImages_planIds processingGroups :
  totalImages (calculateOptimizationResult processingGroups)
  = length (planIds processingGroups).
Proof.
  unfold calculateOptimizationResult.
  destruct (totals_fold processingGroups 0 0%Q 0%Q) as (n & w & o & Hf & Hn & _).
  rewrite Hf. simpl. lia.
Qed.


Lemma planIds_spec :
  ∃ result,
    createProcessingPlan h images descriptions = Some result
    ∧ result = calculateOptimizationResult (groups result)
    ∧ planIds (groups result)
      ≡ₚ path <$> mjoin (groupBySimilarity h images descriptions).
Proof.
  destruct createProcessingPlan_spec as (result & Hr & Hp & Hc).
  destruct groupBySimilarity_spec as (Hnd & _).
  exists result. split; [done|]. split; [done|]. by apply planIds_groups.
Qed.

(** *** Costs *)

Lemma planned_costs group result :
  planned group result → Forall unitCost (variants result).
Proof.
  intros (m & rest & _ & _ & _ & Hv & Hall & _). rewrite Hv. constructor.
  - unfold unitCost. simpl. split; reflexivity || discriminate.
  - clear Hv. induction Hall as [|i p imgs ps Hp _ IH]; constructor; [|done].
    apply createVariantPlan_inv in Hp as (_ & _ & Hc & _).
    unfold unitCost.
    replace (estimatedCost p)
      with (classify (dimensions m) (dimensions i)).2 by (by rewrite <- Hc).
    apply classify_cost.
Qed.

Lemma sumCosts_bounds plans :
  Forall unitCost plans →
  (0 <= sumCosts plans <= inject_Z (Z.of_nat (length plans)))%Q.
Proof.
  induction 1 as [|v plans [Hv1 Hv2] _ [IH1 IH2]].
  - simpl. change (inject_Z (Z.of_nat 0)) with 0%Q. split; lra.
  - cbn [sumCosts foldr length]. fold (sumCosts plans).
    rewrite Nat2Z.inj_succ, <- Z.add_1_r, inject_Z_plus.
    change (inject_Z 1) with 1%Q. split; lra.
Qed.

Lemma sumTotalCosts_variants similarityGroups processingGroups :
  Forall2 planned similarityGroups processingGroups →
  (sumTotalCosts processingGroups == sumCosts (processingGroups ≫= variants))%Q
  ∧ Forall unitCost (processingGroups ≫= variants)
  ∧ length (processingGroups ≫= variants) = length (planIds processingGroups)
  ∧ (processingGroups ≠ [] → 0 < length (planIds processingGroups))
  ∧ (Forall (λ g, length (variants g) = 1) processingGroups →
     (sumCosts (processingGroups ≫= variants)
      == inject_Z (Z.of_nat (length (planIds processingGroups))))%Q).
Proof.
  unfold planIds.
  induction 1 as [|g pg gs pgs Hp _ (IH1 & IH2 & IH3 & _ & IH5)].
  - cbn. change (inject_Z (Z.of_nat 0)) with 0%Q.
    split; [lra|]. split; [constructor|]. split; [done|]. split; [done|]. intros _. lra.
  - rewrite !bind_cons, !length_app, length_fmap.
    pose proof (planned_costs g pg Hp) as Hcosts.
    destruct Hp as (m & rest & _ & _ & _ & Hv & _ & Htotal).
    split; [|split; [|split; [|split]]].
    + cbn [sumTotalCosts foldr]. fold (sumTotalCosts pgs).
      rewrite sumCosts_app, Htotal, IH1. lra.
    + by apply Forall_app.
    + lia.
    + intros _. rewrite Hv. simpl. lia.
    + intros Hone. apply Forall_cons in Hone as [Hlen Hone].
      rewrite sumCosts_app, (IH5 Hone), Nat2Z.inj_add, inject_Z_plus.
      rewrite Hv in Hlen |- *. destruct rest; [|done].
      simpl. change (inject_Z (Z.of_nat 1)) with 1%Q. lra.
Qed.

Lemma savings_in_range (u c : Q) :
  (0 < u → 0 <= c <= u →
   0 <= (u - c) / u * 100 <= 100)%Q.
Proof.
  intros Hu [Hc1 Hc2].
  assert (0 <= (u - c) / u)%Q as H0 by (apply Qle_shift_div_l; lra).
  assert ((u - c) / u <= 1)%Q as H1 by (apply Qle_shift_div_r; lra).
  generalize dependent ((u - c) / u)%Q. intros x H0 H1. split; lra.
Qed.

Lemma others_ne masterImage group :
  Forall (λ i, path i ≠ path masterImage) (others masterImage group).
Proof. apply Forall_forall. intros i Hi. by apply list_elem_of_filter in Hi as [Hne _]. Qed.

(** *** The claims about the analyzer *)

(** Claim C1, as the code has it.  In every group of a plan the first
    variant is the master's: its [imageId] is the group's [masterImageId],
    its type is [generate] and it has no [sourceImageId]; no other variant
    has that [imageId].  Every other variant has a [sourceImageId], the
    master, exactly when its type is not [generate], whichever branch of
    [createVariantPlan] made it; and one of the master's own dimensions is a
    [reuse]. *)
Theorem master_plan_of_every_group :
  ∃ result,
    createProcessingPlan h images descriptions = Some result
    ∧ Forall
        (λ g,
           ∃ master rest,
             variants g = master :: rest
             ∧ imageId master = masterImageId g
             ∧ processingType master = generate
             ∧ sourceImageId master = None
             ∧ Forall
                 (λ v,
                    imageId v ≠ masterImageId g
                    ∧ sourceImageId v
                      = (if bool_decide (processingType v = generate)
                         then None else Some (masterImageId g))
                    ∧ (targetDimensions v = groupTargetDimensions g →
                       processingType v = reuse))
                 rest)
        (groups result).
Proof.
  destruct createProcessingPlan_spec as (result & Hr & Hp & _).
  exists result. split; [done|].
  induction Hp as [|g pg gs pgs (m & rest & _ & Hid & Hdims & Hv & Hall & _) _ IH];
    constructor; [|done].
  exists (masterPlan m descriptions), rest. rewrite Hid, Hdims.
  split; [done|]. split; [done|]. split; [done|]. split; [done|].
  pose proof (others_ne m g) as Hne. clear Hv.
  induction Hall as [|i p targets plans Hp _ IH']; [constructor|].
  apply Forall_cons in Hne as [Hi Hne]. constructor; [|by apply IH'].
  apply createVariantPlan_inv in Hp as (-> & -> & Hc & ->).
  split; [done|]. split; [repeat case_bool_decide; done|].
  intros Hsame. rewrite Hsame, classify_same_dimensions in Hc. by injection Hc as ->.
Qed.

Lemma groups_hold_every_occurrence :
  (∀ i, i ∈ images → is_Some (descriptions !! path i)) →
  NoDup (path <$> images) →
  mjoin (groupBySimilarity h images descriptions) ≡ₚ images.
Proof.
  intros Hdesc Hdistinct.
  destruct groupBySimilarity_spec as (Hnd & Hin & _ & Hall).
  apply NoDup_Permutation.
  - by eapply NoDup_fmap_1.
  - by eapply NoDup_fmap_1.
  - intros i. split; [intros Hi; by apply Hin|].
    intros Hi. specialize (Hall Hdesc i Hi).
    apply list_elem_of_fmap in Hall as (j & Hpath & Hj).
    destruct (Hin j Hj) as [Hj' _].
    assert (i = j) as ->; [|done].
    apply list_elem_of_lookup in Hi as (k1 & Hk1).
    apply list_elem_of_lookup in Hj' as (k2 & Hk2).
    assert (k1 = k2) as ->; [|congruence].
    eapply NoDup_lookup; [exact Hdistinct| |];
      rewrite list_lookup_fmap; [by rewrite Hk1|rewrite Hk2; simpl; by rewrite Hpath].
Qed.


Lemma undescribed_dropped :
  ∃ result,
    createProcessingPlan h images descriptions = Some result
    ∧ ∀ i, i ∈ images → descriptions !! path i = None →
           path i ∉ planIds (groups result).
Proof.
  destruct planIds_spec as (result & Hr & _ & Hids).
  destruct groupBySimilarity_spec as (_ & Hin & _).
  exists result. split; [done|]. intros i Hi Hnone Hp.
  rewrite Hids in Hp. apply list_elem_of_fmap in Hp as (j & Hpath & Hj).
  destruct (Hin j Hj) as [_ [d Hd]]. rewrite <- Hpath in Hd. congruence.
Qed.

(** Claim C5, as the code has it: for a plan with at least one group,
    [estimatedSavings] is the number [(u - c) / u * 100], where [u] counts 1
    per planned occurrence and [c] is the sum of the costs of all variants;
    it lies between 0 and 100 and is 0 when every group has one variant. *)
Theorem savings_formula_and_range :
  ∃ result,
    createProcessingPlan h images descriptions = Some result
    ∧ (groups result ≠ [] →
       let unoptimizedCost := inject_Z (Z.of_nat (length (planIds (groups result)))) in
       let optimizedCost := sumCosts (groups result ≫= variants) in
       ∃ q,
         estimatedSavings result = Fin q
         ∧ (q == (unoptimizedCost - optimizedCost) / unoptimizedCost * 100)%Q
         ∧ (0 <= q <= 100)%Q
         ∧ (Forall (λ g, length (variants g) = 1) (groups result) → (q == 0)%Q)).
Proof.
  destruct createProcessingPlan_spec as (result & Hr & Hp & Hc).
  exists result. split; [done|]. intros Hne u c.
  destruct (sumTotalCosts_variants _ _ Hp) as (Htot & Hcosts & Hlen & Hpos & Hone).
  specialize (Hpos Hne).
  assert (0 < u)%Q as Hu.
  { unfold u. change 0%Q with (inject_Z 0). rewrite <- Zlt_Qlt. lia. }
  assert (0 <= c <= u)%Q as Hcu.
  { unfold u, c. rewrite <- Hlen. by apply sumCosts_bounds. }
  destruct (totals_fold (groups result) 0 0%Q 0%Q) as (n & w & o & Hf & _ & Hw & Ho).
  assert (w == u)%Q as Hwu by (rewrite Hw; unfold u; lra).
  assert (o == c)%Q as Hoc by (rewrite Ho, Htot; unfold c; lra).
  assert (Qeq_bool w 0 = false) as Hw0.
  { apply not_true_iff_false. intros Heq. apply Qeq_bool_iff in Heq. lra. }
  assert (estimatedSavings result = Fin ((w - o) / w * 100)) as Hs.
  { rewrite Hc. unfold calculateOptimizationResult. rewrite Hf.
    cbn [estimatedSavings]. unfold jdiv, jmul. by rewrite Hw0. }
  exists ((w - o) / w * 100)%Q. split; [done|].
  assert ((w - o) / w * 100 == (u - c) / u * 100)%Q as Hq by (by rewrite Hwu, Hoc).
  split; [done|]. split.
  - rewrite Hq. by apply savings_in_range.
  - intros Hall. rewrite Hq. specialize (Hone Hall). fold c u in Hone.
    rewrite Hone. assert (u - u == 0)%Q as -> by lra. unfold Qdiv. lra.
Qed.

Lemma reuse_of_identical_dimensions :
  ∃ result,
    createProcessingPlan h images descriptions = Some result
    ∧ Forall
        (λ g,
           ∃ master rest,
             variants g = master :: rest
             ∧ Forall
                 (λ v,
                    targetDimensions v = groupTargetDimensions g →
                    processingType v = reuse
                    ∧ estimatedCost v = (1 # 10)%Q
                    ∧ sourceImageId v = Some (masterImageId g))
                 rest)
        (groups result).
Proof.
  destruct createProcessingPlan_spec as (result & Hr & Hp & _).
  exists result. split; [done|].
  induction Hp as [|g pg gs pgs (m & rest & _ & Hid & Hdims & Hv & Hall & _) _ IH];
    constructor; [|done].
  exists (masterPlan m descriptions), rest. split; [done|].
  rewrite Hid, Hdims. clear Hv.
  induction Hall as [|i p targets plans Hp _ IH']; constructor; [|done].
  apply createVariantPlan_inv in Hp as (_ & Htarget & Hc & Hsource).
  intros Hsame. rewrite Htarget in Hsame. rewrite Hsame, classify_same_dimensions in Hc.
  injection Hc as Ht _ Hcost. rewrite Hsource, Ht, Hcost. done.
Qed.

End AnalyzerFacts.

(** ** The replacer and the store *)

Section Store.

Lemma document_grow lo n h k v : document lo n h v → document lo n (h ++ k) v.
Proof.
  revert v. induction n as [|n IH]; intros [| | | |l]; simpl; try done.
  intros [Hlo Hnode]. split; [done|].
  destruct (h !! l) as [[fields|items]|] eqn:Hl; [| |done].
  - rewrite (lookup_app_l_Some _ _ _ _ Hl). destruct Hnode as [Hnd Hall].
    split; [done|]. eapply Forall_impl; [exact Hall|]. intros kv. apply IH.
  - rewrite (lookup_app_l_Some _ _ _ _ Hl).
    eapply Forall_impl; [exact Hnode|]. apply IH.
Qed.

Lemma document_lower lo lo' n h v :
  lo' ≤ lo → document lo n h v → document lo' n h v.
Proof.
  intros Hle. revert v. induction n as [|n IH]; intros [| | | |l]; simpl; try done.
  intros [Hlo Hnode]. split; [lia|].
  destruct (h !! l) as [[fields|items]|]; [| |done].
  - destruct Hnode as [Hnd Hall]. split; [done|].
    eapply Forall_impl; [exact Hall|]. intros kv. apply IH.
  - eapply Forall_impl; [exact Hnode|]. apply IH.
Qed.

Lemma field_shape_refl p : field_shape p p.
Proof. split; [done|by left]. Qed.

Lemma node_shape_refl a : node_shape a a.
Proof.
  destruct a as [fields|items]; simpl; [|done].
  induction fields; constructor; [apply field_shape_refl|done].
Qed.

Lemma same_shape_refl h : same_shape h h.
Proof. induction h; constructor; [apply node_shape_refl|done]. Qed.

Lemma field_shape_trans p q r : field_shape p q → field_shape q r → field_shape p r.
Proof.
  intros [Hk1 Hv1] [Hk2 Hv2]. split; [congruence|].
  destruct Hv1 as [Hv1|(s & t & Hs & Ht)], Hv2 as [Hv2|(s' & t' & Hs' & Ht')].
  - left. congruence.
  - right. exists s', t'. split; congruence.
  - right. exists s, t. split; congruence.
  - right. exists s, t'. done.
Qed.

Lemma node_shape_trans a b c : node_shape a b → node_shape b c → node_shape a c.
Proof.
  destruct a as [x|x], b as [y|y], c as [z|z]; simpl; try done.
  - revert y z. induction x as [|p x IH]; intros y z Hxy Hyz.
    + apply Forall2_nil_inv_l in Hxy as ->. by apply Forall2_nil_inv_l in Hyz as ->.
    + apply Forall2_cons_inv_l in Hxy as (q & y' & Hpq & Hxy & ->).
      apply Forall2_cons_inv_l in Hyz as (r & z' & Hqr & Hyz & ->).
      constructor; [by eapply field_shape_trans|by eapply IH].
  - congruence.
Qed.

Lemma same_shape_trans h1 h2 h3 : same_shape h1 h2 → same_shape h2 h3 → same_shape h1 h3.
Proof.
  unfold same_shape. revert h2 h3. induction h1 as [|a h1 IH]; intros h2 h3 H12 H23.
  - apply Forall2_nil_inv_l in H12 as ->. by apply Forall2_nil_inv_l in H23 as ->.
  - apply Forall2_cons_inv_l in H12 as (b & h2' & Hab & H12 & ->).
    apply Forall2_cons_inv_l in H23 as (c & h3' & Hbc & H23 & ->).
    constructor; [by eapply node_shape_trans|by eapply IH].
Qed.

Lemma field_shape_keys x y : Forall2 field_shape x y → y.*1 = x.*1.
Proof.
  induction 1 as [|p q x y [Hk _] _ IH]; [done|].
  by rewrite !fmap_cons, IH, Hk.
Qed.

Lemma document_same_shape lo n h h' v :
  same_shape h h' → document lo n h v → document lo n h' v.
Proof.
  intros Hs. revert v. induction n as [|n IH]; intros [| | | |l]; simpl; try done.
  intros [Hlo Hnode]. split; [done|].
  destruct (h !! l) as [a|] eqn:Hl; [|done].
  destruct (Forall2_lookup_l _ _ _ _ _ Hs Hl) as (b & Hl' & Hab).
  rewrite Hl'. destruct a as [x|x], b as [y|y]; simpl in Hab; try done.
  - destruct Hnode as [Hnd Hall]. split; [by rewrite (field_shape_keys _ _ Hab)|].
    clear Hnd Hl Hl'. induction Hab as [|p q x y [_ Hv] _ IH']; [constructor|].
    apply Forall_cons in Hall as [Hp Hall]. constructor; [|by apply IH'].
    destruct Hv as [<-|(s & t & _ & ->)]; [by apply IH|by destruct n].
  - subst y. eapply Forall_impl; [exact Hnode|]. apply IH.
Qed.

Lemma assoc_set_shape key s t fields :
  NoDup fields.*1 → (key, VStr s) ∈ fields →
  Forall2 field_shape fields (assoc_set key (VStr t) fields).
Proof.
  induction fields as [|[k v] fields IH]; intros Hnd Hin.
  - by apply elem_of_nil in Hin.
  - simpl in Hnd. apply NoDup_cons in Hnd as [Hk Hnd]. simpl.
    case_bool_decide as Hkey.
    + subst k. constructor.
      * split; [done|]. right. exists s, t. split; [|done].
        apply elem_of_cons in Hin as [Hin|Hin]; [by injection Hin as <-|].
        exfalso. apply Hk. apply list_elem_of_fmap. by exists (key, VStr s).
      * clear. induction fields; constructor; [apply field_shape_refl|done].
    + constructor; [apply field_shape_refl|]. apply IH; [done|].
      apply elem_of_cons in Hin as [Hin|Hin]; [|done].
      injection Hin as -> _. done.
Qed.

Lemma setField_shape l key s t h fields :
  h !! l = Some (NObj fields) → NoDup fields.*1 → (key, VStr s) ∈ fields →
  same_shape h (UrlReplacer.setField l key (VStr t) h).
Proof.
  intros Hl Hnd Hin. unfold UrlReplacer.setField, same_shape. rewrite Hl.
  apply Forall2_same_length_lookup. split; [by rewrite length_insert|].
  intros i a b Ha Hb. destruct (decide (i = l)) as [->|Hne].
  - rewrite list_lookup_insert_eq in Hb by (by eapply lookup_lt_Some).
    rewrite Hl in Ha. injection Ha as <-. injection Hb as <-.
    simpl. by eapply assoc_set_shape.
  - rewrite list_lookup_insert_ne in Hb by done.
    rewrite Ha in Hb. injection Hb as <-. apply node_shape_refl.
Qed.

Lemma setField_frame lo l key v h :
  lo ≤ l → ∀ l', l' < lo → UrlReplacer.setField l key v h !! l' = h !! l'.
Proof.
  intros Hlo l' Hl'. unfold UrlReplacer.setField.
  destruct (h !! l) as [[fields|items]|]; try done.
  apply list_lookup_insert_ne. lia.
Qed.


End Store.

(** *** [deepClone] *)

Section Clone.
Context `{Runtime}.
Import UrlReplacer.

(** The copy is made of new nodes only, and the store it started from is
    still there. *)
Definition clones (n : nat) : Prop :=
  ∀ lo h v, document lo n h v →
    ∃ v' k, deepClone n h v = Some (v', h ++ k)
            ∧ document (length h) n (h ++ k) v'.

Lemma deepClone_items n lo h0 items acc k1 :
  clones n →
  Forall (document lo n h0) items →
  Forall (document (length h0) n (h0 ++ k1)) acc →
  ∃ items' k2,
    forEachM
      (λ '(items', h) item,
         '(item', h) ← deepClone n h item; Some (items' ++ [item'], h))
      items (acc, h0 ++ k1)
    = Some (acc ++ items', h0 ++ k2)
    ∧ Forall (document (length h0) n (h0 ++ k2)) (acc ++ items').
Proof.
  intros Hclone. revert acc k1.
  induction items as [|item items IH]; intros acc k1 Hitems Hacc.
  - exists [], k1. rewrite app_nil_r. done.
  - apply Forall_cons in Hitems as [Hitem Hitems].
    destruct (Hclone lo (h0 ++ k1) item) as (item' & k & Hc & Hd);
      [by apply document_grow|].
    cbn [forEachM]. rewrite Hc. simpl. rewrite <- app_assoc.
    destruct (IH (acc ++ [item']) (k1 ++ k) Hitems) as (items' & k2 & Hf & Hall).
    { apply Forall_app. split.
      - eapply Forall_impl; [exact Hacc|]. intros v Hv.
        rewrite app_assoc. by apply document_grow.
      - constructor; [|done]. rewrite app_assoc.
        eapply document_lower; [|exact Hd]. rewrite length_app. lia. }
    exists (item' :: items'), k2. rewrite <- app_assoc in Hf, Hall. by rewrite Hf.
Qed.

Lemma deepClone_fields n lo h0 (fields acc : list (jsstring * val)) k1 :
  clones n →
  Forall (λ kv, document lo n h0 kv.2) fields →
  Forall (λ kv, document (length h0) n (h0 ++ k1) kv.2) acc →
  ∃ (cloned : list (jsstring * val)) k2,
    forEachM
      (λ '(cloned, h) '(key, value),
         '(value', h) ← deepClone n h value;
         Some (if bool_decide (key = js "__proto__") then cloned
               else cloned ++ [(key, value')], h))
      fields (acc, h0 ++ k1)
    = Some (acc ++ cloned, h0 ++ k2)
    ∧ Forall (λ kv, document (length h0) n (h0 ++ k2) kv.2) (acc ++ cloned)
    ∧ cloned.*1 `sublist_of` fields.*1.
Proof.
  intros Hclone. revert acc k1.
  induction fields as [|[key value] fields IH]; intros acc k1 Hfields Hacc.
  - exists [], k1. rewrite app_nil_r. done.
  - apply Forall_cons in Hfields as [Hvalue Hfields].
    destruct (Hclone lo (h0 ++ k1) value) as (value' & k & Hc & Hd);
      [by apply document_grow|].
    cbn [forEachM]. rewrite Hc. simpl. rewrite <- app_assoc.
    assert (Forall (λ kv, document (length h0) n (h0 ++ k1 ++ k) kv.2) acc) as Hacc'.
    { eapply Forall_impl; [exact Hacc|]. intros v Hv.
      rewrite app_assoc. by apply document_grow. }
    case_bool_decide as Hproto.
    + destruct (IH acc (k1 ++ k) Hfields Hacc') as (cloned & k2 & Hf & Hall & Hkeys).
      exists cloned, k2. rewrite Hf. split; [done|]. split; [done|].
      change (((key, value) :: fields).*1) with (key :: fields.*1).
      by apply sublist_cons.
    + destruct (IH (acc ++ [(key, value')]) (k1 ++ k) Hfields)
        as (cloned & k2 & Hf & Hall & Hkeys).
      { apply Forall_app. split; [done|]. constructor; [|done]. rewrite app_assoc.
        eapply document_lower; [|exact Hd]. rewrite length_app. lia. }
      exists ((key, value') :: cloned), k2. rewrite <- app_assoc in Hf, Hall.
      rewrite Hf. split; [done|]. split; [done|].
      change (((key, value) :: fields).*1) with (key :: fields.*1).
      change (((key, value') :: cloned).*1) with (key :: cloned.*1).
      by apply sublist_skip.
Qed.

Lemma deepClone_spec n : clones n.
Proof.
  induction n as [|n IH]; intros lo h [| | | |l]; simpl;
    try (intros _; eexists _, []; rewrite app_nil_r; split; [reflexivity|done]);
    [done|].
  intros [Hlo Hnode].
  destruct (h !! l) as [[fields|items]|] eqn:Hl; [| |done].
  - destruct Hnode as [Hnd Hall].
    destruct (deepClone_fields n lo h fields [] [] IH Hall) as (cloned & k & Hf & Hd & Hkeys);
      [constructor|].
    rewrite app_nil_r in Hf. rewrite Hf. simpl.
    exists (VRef (length (h ++ k))), (k ++ [NObj cloned]).
    rewrite app_assoc. split; [done|]. split; [rewrite length_app; lia|].
    rewrite list_lookup_middle by done. split; [by eapply sublist_NoDup|].
    eapply Forall_impl; [exact Hd|]. intros kv. apply document_grow.
  - destruct (deepClone_items n lo h items [] [] IH Hnode) as (items' & k & Hf & Hd);
      [constructor|].
    rewrite app_nil_r in Hf. rewrite Hf. simpl.
    exists (VRef (length (h ++ k))), (k ++ [NArr items']).
    rewrite app_assoc. split; [done|]. split; [rewrite length_app; lia|].
    rewrite list_lookup_middle by done.
    eapply Forall_impl; [exact Hd|]. intros kv. apply document_grow.
Qed.


(** *** [performReplacements] *)

Lemma kept_refl lo h : kept lo h h.
Proof. split; [apply same_shape_refl|done]. Qed.

Lemma kept_trans lo h1 h2 h3 : kept lo h1 h2 → kept lo h2 h3 → kept lo h1 h3.
Proof.
  intros [Hs1 Hf1] [Hs2 Hf2]. split; [by eapply same_shape_trans|].
  intros l Hl. by rewrite Hf2, Hf1.
Qed.

Section Walk.
Variable urlMappings : list (jsstring * jsstring).
Variable cdnMappings : option (list (jsstring * jsstring)).
Variable options : RequiredOptions.

Lemma replaceUrl_store obj key originalUrl path itemIndex h result :
  let st := replaceUrl obj key originalUrl path urlMappings cdnMappings options
                       itemIndex (h, result) in
  (st.1 = h ∨ ∃ t, st.1 = setField obj key (VStr t) h)
  ∧ modifiedData st.2 = modifiedData result.
Proof.
  unfold replaceUrl. cbv zeta.
  repeat match goal with
         | |- context [match ?x with _ => _ end] => destruct x
         | |- context [if ?x then _ else _] => destruct x
         end; simpl; eauto.
Qed.

Definition walks (n : nat) : Prop :=
  ∀ lo h v path itemIndex result,
    document lo n h v →
    ∃ h' result',
      performReplacements n v path urlMappings cdnMappings options itemIndex
                          (h, result) = Some (h', result')
      ∧ kept lo h h'
      ∧ modifiedData result' = modifiedData result.

Lemma performReplacements_items n lo h0 path items i h1 result1 :
  walks n →
  Forall (document lo n h0) items →
  kept lo h0 h1 →
  ∃ i' h2 result2,
    forEachM
      (λ '(i, st) item,
         st ← performReplacements n item (ImageUrlExtractor.indexPath path i)
                urlMappings cdnMappings options i st;
         Some (S i, st))
      items (i, (h1, result1))
    = Some (i', (h2, result2))
    ∧ kept lo h0 h2
    ∧ modifiedData result2 = modifiedData result1.
Proof.
  intros Hwalk. revert i h1 result1.
  induction items as [|item items IH]; intros i h1 result1 Hitems Hkept.
  - by exists i, h1, result1.
  - apply Forall_cons in Hitems as [Hitem Hitems].
    destruct (Hwalk lo h1 item (ImageUrlExtractor.indexPath path i) i result1)
      as (h' & result' & Hp & Hk & Hm).
    { eapply document_same_shape; [apply Hkept|done]. }
    cbn [forEachM]. rewrite Hp. simpl.
    destruct (IH (S i) h' result' Hitems) as (i' & h2 & result2 & Hf & Hk2 & Hm2).
    { by eapply kept_trans. }
    exists i', h2, result2. split; [done|]. split; [done|]. congruence.
Qed.

Lemma performReplacements_fields n lo h0 path itemIndex l fields todo h1 result1 :
  walks n →
  lo ≤ l →
  h0 !! l = Some (NObj fields) →
  NoDup fields.*1 →
  Forall (λ kv, document lo n h0 kv.2) todo →
  todo ⊆ fields →
  kept lo h0 h1 →
  ∃ h2 result2,
    forEachM
      (λ st '(key, value),
         let newPath := ImageUrlExtractor.keyPath path key in
         match value with
         | VStr s =>
             if isPicsumUrl s
             then Some (replaceUrl l key s newPath urlMappings cdnMappings
                          options itemIndex st)
             else Some st
         | VRef _ =>
             performReplacements n value newPath urlMappings cdnMappings
               options itemIndex st
         | _ => Some st
         end)
      todo (h1, result1)
    = Some (h2, result2)
    ∧ kept lo h0 h2
    ∧ modifiedData result2 = modifiedData result1.
Proof.
  intros Hwalk Hlo Hl Hnd. revert h1 result1.
  induction todo as [|[key value] todo IH]; intros h1 result1 Hdocs Hsub Hkept.
  - by exists h1, result1.
  - apply Forall_cons in Hdocs as [Hdoc Hdocs].
    assert (Hsub' : todo ⊆ fields) by (intros kv Hkv; apply Hsub; by right).
    assert (Hin : (key, value) ∈ fields) by (apply Hsub; by left).
    assert (Hstep : ∃ h' result',
      match value with
      | VStr s =>
          if isPicsumUrl s
          then Some (replaceUrl l key s (ImageUrlExtractor.keyPath path key)
                       urlMappings cdnMappings options itemIndex (h1, result1))
          else Some (h1, result1)
      | VRef _ =>
          performReplacements n value (ImageUrlExtractor.keyPath path key)
            urlMappings cdnMappings options itemIndex (h1, result1)
      | _ => Some (h1, result1)
      end = Some (h', result')
      ∧ kept lo h1 h' ∧ modifiedData result' = modifiedData result1).
    { destruct value as [| | |s|l'];
        try (exists h1, result1; split; [done|]; split; [apply kept_refl|done]).
      - destruct (isPicsumUrl s);
          [|exists h1, result1; split; [done|]; split; [apply kept_refl|done]].
        pose proof (replaceUrl_store l key s (ImageUrlExtractor.keyPath path key)
                      itemIndex h1 result1) as [Hstore Hm].
        destruct (replaceUrl _ _ _ _ _ _ _ _ _) as [h' result'].
        exists h', result'. split; [done|]. split; [|done].
        simpl in Hstore. destruct Hstore as [->|[t ->]]; [apply kept_refl|].
        destruct Hkept as [Hshape _].
        destruct (Forall2_lookup_l _ _ _ _ _ Hshape Hl) as ([fields1|?] & Hl1 & Hn);
          [|done].
        simpl in Hn.
        apply list_elem_of_lookup in Hin as [j Hj].
        destruct (Forall2_lookup_l _ _ _ _ _ Hn Hj) as ([k1 v1] & Hj1 & [Hk Hv]).
        simpl in Hk, Hv. subst k1.
        assert (∃ s1, v1 = VStr s1) as [s1 ->].
        { destruct Hv as [<-|(? & t1 & _ & ->)]; eauto. }
        split.
        + eapply setField_shape; [exact Hl1| |].
          * by rewrite (field_shape_keys _ _ Hn).
          * apply list_elem_of_lookup. eauto.
        + by apply setField_frame.
      - apply Hwalk. eapply document_same_shape; [apply Hkept|done]. }
    destruct Hstep as (h' & result' & Hstep & Hk & Hm).
    cbn [forEachM]. cbv zeta. rewrite Hstep.
    destruct (IH h' result' Hdocs Hsub') as (h2 & result2 & Hf & Hk2 & Hm2).
    { by eapply kept_trans. }
    exists h2, result2. split; [done|]. split; [done|]. congruence.
Qed.

Lemma performReplacements_spec n : walks n.
Proof.
  induction n as [|n IH]; intros lo h [| | | |l] path itemIndex result; simpl;
    try (intros _; exists h, result; split; [done|]; split; [apply kept_refl|done]);
    [done|].
  intros [Hlo Hnode].
  destruct (h !! l) as [[fields|items]|] eqn:Hl; [| |done].
  - destruct Hnode as [Hnd Hall].
    apply (performReplacements_fields n lo h path itemIndex l fields fields
             h result IH Hlo Hl Hnd Hall); [done|apply kept_refl].
  - destruct (performReplacements_items n lo h path items 0 h result IH Hnode)
      as (i' & h2 & result2 & Hf & Hk & Hm); [apply kept_refl|].
    rewrite Hf. simpl. eauto.
Qed.

End Walk.

(** *** The claims about the replacer *)

Lemma document_kept lo n h h' v :
  (∀ l, l < length h → h' !! l = h !! l) → document lo n h v → document lo n h' v.
Proof.
  intros Hsame. revert v. induction n as [|n IH]; intros [| | | |l]; simpl; try done.
  intros [Hlo Hnode]. split; [done|].
  destruct (h !! l) as [a|] eqn:Hl; [|done].
  rewrite Hsame, Hl by (by eapply lookup_lt_Some).
  destruct a as [fields|items].
  - destruct Hnode as [Hnd Hall]. split; [done|].
    eapply Forall_impl; [exact Hall|]. intros kv. apply IH.
  - eapply Forall_impl; [exact Hnode|]. apply IH.
Qed.

(** Claim C6.  With [backupOriginal] left out or true, [replaceUrls] on a
    JSON document ends, every node that was in the store before the call is
    the same after it, so the caller's document is the document it was, and
    [modifiedData] is a document made of nodes allocated by the call. *)
Theorem replaceUrls_leaves_original n h data urlMappings cdnMappings options :
  document 0 n h data →
  opt_backupOriginal options ≠ Some false →
  ∃ result h',
    replaceUrls n h data urlMappings cdnMappings options = Some (result, h')
    ∧ (∀ l, l < length h → h' !! l = h !! l)
    ∧ document 0 n h' data
    ∧ document (length h) n h' (modifiedData result).
Proof.
  intros Hdoc Hbackup. unfold replaceUrls.
  assert (backupOriginal (normalizeOptions options) = true) as ->.
  { unfold normalizeOptions. simpl. by destruct (opt_backupOriginal options) as [[]|]. }
  destruct (deepClone_spec n 0 h data Hdoc) as (copy & k1 & Hc1 & Hcopy).
  rewrite Hc1. simpl.
  destruct (deepClone_spec n 0 (h ++ k1) data) as (copy2 & k2 & Hc2 & _);
    [by apply document_grow|].
  rewrite Hc2. simpl.
  destruct (performReplacements_spec urlMappings cdnMappings (normalizeOptions options)
              n (length h) ((h ++ k1) ++ k2) copy [] 0
              {| success := false; replacedCount := 0; failedCount := 0;
                 mappings := []; modifiedData := copy; errors := [] |})
    as (h' & result' & Hp & [Hshape Hframe] & Hm).
  { by apply document_grow. }
  rewrite Hp. simpl. eexists _, _. split; [reflexivity|].
  assert (Hsame : ∀ l, l < length h → h' !! l = h !! l).
  { intros l Hl. rewrite Hframe by done. rewrite <- app_assoc.
    by rewrite lookup_app_l. }
  split; [done|]. split; [by eapply document_kept|].
  simpl. rewrite Hm. simpl.
  eapply document_same_shape; [exact Hshape|]. by apply document_grow.
Qed.

Lemma assoc_set_same key v fields :
  assoc key fields = Some v → assoc_set key v fields = fields.
Proof.
  induction fields as [|[k v'] fields IH]; simpl; [done|].
  case_bool_decide; [by intros [= ->]|]. intros Hv. by rewrite IH.
Qed.

Lemma setField_same obj key v h fields :
  h !! obj = Some (NObj fields) → assoc key fields = Some v →
  setField obj key v h = h.
Proof.
  intros Hl Ha. unfold setField. rewrite Hl, (assoc_set_same _ _ _ Ha).
  by apply list_insert_id.
Qed.

(** Claim C7, as the code has it.  For a placeholder URL held by
    [obj[key]] with no direct and no variant mapping: when
    [preserveOriginalOnFailure] is true the store is untouched, [failedCount]
    grows by one, the message is appended and no mapping is recorded; when it
    is false, [replacedCount] grows by one and a [fallback] mapping is
    recorded, and the value written is the original URL, which leaves the
    store as it was, unless [preferCdnUrls] holds and [cdnMappings] has an
    entry for the URL, in which case that entry is written. *)
Theorem unresolved_url obj key originalUrl path urlMappings cdnMappings options
    itemIndex h result fields :
  h !! obj = Some (NObj fields) →
  assoc key fields = Some (VStr originalUrl) →
  isPicsumUrl originalUrl = true →
  found (str_or (mapGet originalUrl urlMappings)
                (mapGet (normalizeUrl originalUrl) urlMappings)) = false →
  found (findVariantMapping originalUrl urlMappings) = false →
  let st := replaceUrl obj key originalUrl path urlMappings cdnMappings options
                       itemIndex (h, result) in
  if preserveOriginalOnFailure options then
    st.1 = h
    ∧ failedCount st.2 = S (failedCount result)
    ∧ errors st.2 = errors result ++ [notFound originalUrl path]
    ∧ mappings st.2 = mappings result
    ∧ replacedCount st.2 = replacedCount result
  else
    replacedCount st.2 = S (replacedCount result)
    ∧ failedCount st.2 = failedCount result
    ∧ errors st.2 = errors result
    ∧ ∃ written,
        st.1 = setField obj key (VStr written) h
        ∧ mappings st.2
          = mappings result ++
            [{| UrlReplacer.originalUrl := originalUrl; newUrl := written;
                cdnUrl := cdnMappings ≫= mapGet originalUrl;
                mappingPath := path; mappingFieldName := key;
                mappingItemIndex := itemIndex; replacementType := fallback |}]
        ∧ written
          = match cdnMappings ≫= mapGet originalUrl with
            | Some c => if preferCdnUrls options then c else originalUrl
            | None => originalUrl
            end
        ∧ (written = originalUrl → st.1 = h).
Proof.
  intros Hl Ha Hurl Hdirect Hvariant. unfold replaceUrl. cbv zeta.
  rewrite Hdirect, Hvariant. simpl.
  assert (truthy_str originalUrl = true) as Htruthy.
  { destruct originalUrl; [|done]. by vm_compute in Hurl. }
  destruct (preserveOriginalOnFailure options); simpl.
  - assert (str_or (findVariantMapping originalUrl urlMappings) None = None) as ->.
    { destruct (findVariantMapping _ _) as [s|]; [|done].
      simpl in *. by rewrite Hvariant. }
    done.
  - unfold generateFallbackUrl. rewrite Htruthy. simpl.
    split; [done|]. split; [done|]. split; [done|].
    eexists. split; [reflexivity|]. split; [reflexivity|]. split; [done|].
    intros ->. by eapply setField_same.
Qed.

End Clone.

(** ** The description generator *)

Section GeneratorFacts.
Import DescriptionGenerator.
Context `{Runtime}.
Variable h : heap.

Lemma pushTo_members {A} key (x : A) groups y :
  y ∈ pushTo key x groups ≫= snd ↔ y = x ∨ y ∈ groups ≫= snd.
Proof.
  induction groups as [|[k xs] groups IH]; simpl.
  - cbn. rewrite elem_of_cons, elem_of_nil. tauto.
  - case_bool_decide; rewrite !bind_cons; simpl.
    + rewrite !elem_of_app, list_elem_of_singleton. tauto.
    + rewrite !elem_of_app, IH. tauto.
Qed.

Lemma groupByContext_members images i :
  i ∈ groupByContext h images ≫= snd ↔ i ∈ images.
Proof.
  unfold groupByContext.
  assert (∀ groups,
            i ∈ fold_left (λ groups img, pushTo (generateContextKey h img) img groups)
                          images groups ≫= snd
            ↔ i ∈ images ∨ i ∈ groups ≫= snd) as Hfold.
  { induction images as [|img images IH]; intros groups; simpl.
    - rewrite elem_of_nil. tauto.
    - rewrite IH, pushTo_members, elem_of_cons. tauto. }
  rewrite Hfold. cbn. rewrite elem_of_nil. tauto.
Qed.

(** The loops of [generateDescriptions] only add entries. *)
Lemma describe_group (opts : DescriptionOptions) (groupImages : list ImageUrlInfo)
    (descriptions : gmap jsstring ImageDescription) (k : nat) :
  let st :=
    fold_left
      (λ '(descriptions, k) img,
         (<[path img := generateDescription h (random_draw k) img opts]> descriptions,
          S k))
      groupImages (descriptions, k) in
  (∀ p, is_Some (descriptions !! p) → is_Some (st.1 !! p))
  ∧ (∀ i, i ∈ groupImages → is_Some (st.1 !! path i)).
Proof.
  revert descriptions k.
  induction groupImages as [|img imgs IH]; intros descriptions k; simpl.
  - split; [done|]. intros i Hi. by apply elem_of_nil in Hi.
  - destruct (IH (<[path img := generateDescription h (random_draw k) img opts]>
                    descriptions) (S k)) as [Hkeep Hnew].
    split.
    + intros p Hp. apply Hkeep.
      destruct (decide (path img = p)) as [->|Hne].
      * rewrite lookup_insert_eq. eauto.
      * by rewrite lookup_insert_ne.
    + intros i Hi. apply elem_of_cons in Hi as [->|Hi]; [|by apply Hnew].
      apply Hkeep. rewrite lookup_insert_eq. eauto.
Qed.

Lemma describe_groups (opts : DescriptionOptions) (contextGroups : list (jsstring * list ImageUrlInfo))
    (st0 : gmap jsstring ImageDescription * nat) :
  let st :=
    fold_left
      (λ st '(contextKey, groupImages),
         fold_left
           (λ '(descriptions, k) img,
              (<[path img := generateDescription h (random_draw k) img opts]>
                 descriptions, S k))
           groupImages st)
      contextGroups st0 in
  (∀ p, is_Some (st0.1 !! p) → is_Some (st.1 !! p))
  ∧ (∀ i, i ∈ contextGroups ≫= snd → is_Some (st.1 !! path i)).
Proof.
  revert st0.
  induction contextGroups as [|[key imgs] groups IH]; intros [descriptions k];
    cbn [fold_left].
  - split; [done|]. intros i Hi. by apply elem_of_nil in Hi.
  - pose proof (describe_group opts imgs descriptions k) as [Hkeep1 Hnew1].
    simpl in Hkeep1, Hnew1.
    destruct (fold_left _ imgs (descriptions, k)) as [d1 k1] eqn:Hinner.
    destruct (IH (d1, k1)) as [Hkeep Hnew]. simpl in Hkeep, Hnew.
    split.
    + intros p Hp. by apply Hkeep, Hkeep1.
    + intros i Hi. rewrite bind_cons in Hi. apply elem_of_app in Hi as [Hi|Hi].
      * by apply Hkeep, Hnew1.
      * by apply Hnew.
Qed.

Lemma generateDescriptions_covers images options i :
  i ∈ images → is_Some (generateDescriptions h images options !! path i).
Proof.
  intros Hi. unfold generateDescriptions.
  pose proof (describe_groups (asOptions (normalizeOptions options))
                (groupByContext h images) (∅, 0)) as [_ Hnew].
  apply Hnew. by apply groupByContext_members.
Qed.

(** *** The length of a prompt *)

Lemma limitLength_length enhanced cap :
  (3 ≤ cap)%Z → (Z.of_nat (length (limitLength enhanced cap)) ≤ cap)%Z.
Proof.
  intros Hcap. unfold limitLength.
  destruct (bool_decide (cap ≠ 0%Z) && bool_decide (cap < Z.of_nat (length enhanced))%Z)
    eqn:Hc.
  - unfold substring0. rewrite length_app, length_take.
    change (length (js "...")) with 3. lia.
  - apply andb_false_iff in Hc as [Hc|Hc]; apply bool_decide_eq_false in Hc; lia.
Qed.

(** For a cap of 3 or more the enhanced prompt is no longer than the cap. *)
Theorem enhancePrompt_length draw basePrompt context options :
  (3 ≤ maxPromptLength options)%Z →
  (Z.of_nat (length (enhancePrompt draw basePrompt context options))
   ≤ maxPromptLength options)%Z.
Proof. intros Hcap. unfold enhancePrompt. by apply limitLength_length. Qed.

Lemma normalizeOptions_default options :
  opt_maxPromptLength options = None ∨ opt_maxPromptLength options = Some 0%Z →
  maxPromptLength (normalizeOptions options) = 200%Z.
Proof. intros [Ho|Ho]; unfold normalizeOptions; simpl; by rewrite Ho. Qed.

End GeneratorFacts.

(** *** The code units of a prompt *)

Section PromptUnits.
Import DescriptionGenerator.
Context `{Runtime}.
Variable h : heap.

Lemma ascii_only_app a b : ascii_only a → ascii_only b → ascii_only (a ++ b).
Proof. intros Ha Hb. by apply Forall_app. Qed.

Lemma ascii_only_literal (s : jsstring) :
  bool_decide (ascii_only s) = true → ascii_only s.
Proof. apply bool_decide_eq_true_1. Qed.

Lemma is_word_ascii c : is_word c = true → (c < 128)%N.
Proof.
  unfold is_word, is_digit, in_range. intros Hw.
  repeat (apply orb_true_iff in Hw as [Hw|Hw]);
    try (apply andb_true_iff in Hw as [_ Hw]; apply N.leb_le in Hw; lia).
  apply N.eqb_eq in Hw. lia.
Qed.

Lemma collapse_spaces_ascii s in_run :
  Forall (λ c, is_space c = true ∨ (c < 128)%N) s →
  ascii_only (collapse_spaces s in_run).
Proof.
  intros Hs. revert in_run.
  induction Hs as [|c s Hc _ IH]; intros in_run; simpl; [constructor|].
  destruct (is_space c) eqn:Hsp.
  - destruct in_run; [apply IH|]. constructor; [lia|apply IH].
  - constructor; [|apply IH]. destruct Hc as [Hc|Hc]; [congruence|done].
Qed.

Lemma trim_start_ascii s : ascii_only s → ascii_only (trim_start s).
Proof.
  induction 1 as [|c s Hc Hs IH]; simpl; [constructor|].
  destruct (is_space c); [done|]. by constructor.
Qed.

Lemma trim_ascii s : ascii_only s → ascii_only (trim s).
Proof.
  intros Hs. unfold trim, ascii_only.
  apply Forall_reverse, trim_start_ascii, Forall_reverse. by apply trim_start_ascii.
Qed.

Lemma cleanDescription_ascii description : ascii_only (cleanDescription description).
Proof.
  unfold cleanDescription. apply trim_ascii, collapse_spaces_ascii.
  apply Forall_fmap, Forall_forall. intros c _. simpl.
  destruct (is_word c) eqn:Hw; simpl.
  - right. by apply is_word_ascii.
  - destruct (is_space c) eqn:Hsp; [by left|right; lia].
Qed.

Lemma fieldTypeOf_ascii category : ascii_only (fieldTypeOf category).
Proof.
  unfold fieldTypeOf.
  destruct (find _ FIELD_TYPE_MAPPING) as [[key value]|] eqn:Hfind.
  - apply find_some in Hfind as [Hin _].
    assert (Forall (λ kv, ascii_only (js kv.2)) FIELD_TYPE_MAPPING) as Htable
      by (apply (bool_decide_unpack _); vm_compute; reflexivity).
    apply List.Forall_forall with (x := (key, value)) in Htable; done.
  - apply ascii_only_literal. vm_compute. reflexivity.
Qed.

Lemma generateBasePrompt_ascii imageInfo context category :
  ascii_only (generateBasePrompt imageInfo context category).
Proof.
  unfold generateBasePrompt.
  assert (ascii_only
            (if truthy_str (ctx_description context)
                && Qltb (3 # 10) (ctx_confidence context)
             then
               if bool_decide (0 < length (cleanDescription (ctx_description context)))
               then cleanDescription (ctx_description context) ++ js ", "
                    ++ fieldTypeOf category
               else fieldTypeOf category
             else fieldTypeOf category)) as Hprompt.
  { repeat match goal with |- context [if ?b then _ else _] => destruct b end;
      try apply fieldTypeOf_ascii.
    apply ascii_only_app; [apply cleanDescription_ascii|].
    apply ascii_only_app; [|apply fieldTypeOf_ascii].
    apply ascii_only_literal. vm_compute. reflexivity. }
  cbv zeta.
  match type of Hprompt with ascii_only ?t => generalize dependent t end.
  intros prompt Hprompt.
  repeat case_bool_decide; try done;
    (apply ascii_only_app; [done|]);
    apply ascii_only_literal; vm_compute; reflexivity.
Qed.

Lemma styleSuffix_ascii style : ascii_only (styleSuffix style).
Proof.
  unfold styleSuffix.
  repeat case_bool_decide; apply ascii_only_literal; vm_compute; reflexivity.
Qed.

Lemma getItalianContext_ascii draw keywords italianContext :
  getItalianContext draw keywords = Some italianContext → ascii_only italianContext.
Proof.
  unfold getItalianContext.
  destruct (find _ ITALIAN_STYLE_ADDITIONS) as [[category contexts]|] eqn:Hfind.
  - apply find_some in Hfind as [Hin _].
    assert (Forall (λ kv, Forall (λ s, ascii_only (js s)) kv.2) ITALIAN_STYLE_ADDITIONS)
      as Htable by (apply (bool_decide_unpack _); vm_compute; reflexivity).
    apply List.Forall_forall with (x := (category, contexts)) in Htable; [|done].
    simpl in Htable. intros Hget.
    destruct (contexts !! (draw mod length contexts)) as [s|] eqn:Hs; [|done].
    injection Hget as <-.
    eapply Forall_lookup_1 in Htable; [|exact Hs]. done.
  - intros [= <-]. apply ascii_only_literal. vm_compute. reflexivity.
Qed.

Lemma limitLength_ascii enhanced cap :
  ascii_only enhanced → ascii_only (limitLength enhanced cap).
Proof.
  intros He. unfold limitLength.
  destruct (_ && _); [|done].
  apply ascii_only_app; [by apply Forall_take|].
  apply ascii_only_literal. vm_compute. reflexivity.
Qed.

Lemma enhancePrompt_ascii draw basePrompt context options :
  ascii_only basePrompt → ascii_only (enhancePrompt draw basePrompt context options).
Proof.
  intros Hb. unfold enhancePrompt. apply limitLength_ascii.
  assert (ascii_only (basePrompt ++ styleSuffix (optStyle options))) as Hs
    by (apply ascii_only_app; [done|apply styleSuffix_ascii]).
  destruct (_ && _); [|done].
  destruct (getItalianContext draw (ctx_keywords context)) as [s|] eqn:Hi; [|done].
  destruct (truthy_str s); [|done].
  apply ascii_only_app; [done|]. apply ascii_only_app.
  - apply ascii_only_literal. vm_compute. reflexivity.
  - by eapply getItalianContext_ascii.
Qed.

(** Every code unit of a generated prompt is ASCII: the context text goes
    through [cleanDescription], everything else is a literal.  So the cut of
    [limitLength] never falls inside a surrogate pair. *)
Theorem prompts_hold_no_surrogate draw imageInfo options :
  let d := generateDescription h draw imageInfo options in
  ascii_only (prompt d) ∧ ascii_only (enhancedPrompt d)
  ∧ Forall (λ c, is_surrogate c = false) (enhancedPrompt d).
Proof.
  cbv zeta. unfold generateDescription. simpl.
  pose proof (generateBasePrompt_ascii imageInfo (analyzeContext h imageInfo)
                (determineCategory imageInfo (analyzeContext h imageInfo))) as Hb.
  pose proof (enhancePrompt_ascii draw _ (analyzeContext h imageInfo)
                (normalizeOptions options) Hb) as He.
  split; [done|]. split; [done|].
  eapply Forall_impl; [exact He|]. intros c Hc. simpl in Hc.
  unfold is_surrogate, in_range.
  apply andb_false_iff. left. apply N.leb_gt. lia.
Qed.

End PromptUnits.

(** *** The maps of a pipeline run *)

Section UrlMappings.
Import UrlReplacer.
Context `{Runtime}.

Lemma mapGet_mapSet k k' v m :
  mapGet k (mapSet k' v m) = if bool_decide (k = k') then Some v else mapGet k m.
Proof.
  induction m as [|[k0 v0] m IH]; simpl.
  - done.
  - destruct (bool_decide (k' = k0)) eqn:Hk'; simpl.
    + apply bool_decide_eq_true in Hk'. subst k0.
      by destruct (bool_decide (k = k')).
    + apply bool_decide_eq_false in Hk'.
      destruct (bool_decide (k = k0)) eqn:Hk.
      * apply bool_decide_eq_true in Hk. subst k0.
        by rewrite bool_decide_eq_false_2.
      * done.
Qed.

Lemma createUrlMappings_fold imageResults maps :
  cdn_within maps.1.1 maps.1.2 →
  cdn_within (fold_left recordResult imageResults maps).1.1
             (fold_left recordResult imageResults maps).1.2.
Proof.
  revert maps.
  induction imageResults as [|result imageResults IH];
    intros [[urlMappings cdnMappings] failedUrls] Hin; [done|].
  cbn [fold_left]. apply IH. unfold recordResult.
  destruct (res_success result && truthy_str (res_newUrl result)) eqn:Hok; [|done].
  apply andb_true_iff in Hok as [_ Hnew].
  simpl in *. intros u Hu. rewrite mapGet_mapSet.
  case_bool_decide as Hsame; [done|].
  apply Hin.
  destruct (res_cdnUrl result) as [c|]; [|done].
  destruct (truthy_str c); [|done].
  by rewrite mapGet_mapSet, bool_decide_eq_false_2 in Hu.
Qed.

(** With the maps of [createUrlMappings], an original URL with no direct
    entry has no CDN entry either, and a fallback writes the original URL. *)
Theorem createUrlMappings_cdn_within imageResults :
  let maps := createUrlMappings imageResults in
  ∀ originalUrl,
    found (str_or (mapGet originalUrl maps.1.1)
                  (mapGet (normalizeUrl originalUrl) maps.1.1)) = false →
    Some maps.1.2 ≫= mapGet originalUrl = None.
Proof.
  cbv zeta. intros originalUrl Hdirect. simpl.
  pose proof (createUrlMappings_fold imageResults ([], [], [])) as Hin.
  fold (createUrlMappings imageResults) in Hin.
  destruct (mapGet originalUrl (createUrlMappings imageResults).1.2) as [c|] eqn:Hc;
    [|done].
  exfalso. specialize (Hin ltac:(done) originalUrl). rewrite Hc in Hin.
  specialize (Hin eq_refl).
  destruct (mapGet originalUrl (createUrlMappings imageResults).1.1) as [s|]; [|done].
  simpl in Hin, Hdirect. rewrite Hin in Hdirect. simpl in Hdirect. congruence.
Qed.

End UrlMappings.

(** ** The claims that span services *)

Section Pipeline.
Import ImageProcessingAnalyzer.

(** Claim C9.  An occurrence whose path has no entry in the descriptions
    map is in no group of the plan, and [generateDescriptions] gives every
    occurrence it is handed an entry. *)
Theorem undescribed_occurrences_are_dropped `{Runtime} (h : heap)
    (images : list ImageUrlInfo) :
  (∀ descriptions : gmap jsstring ImageDescription,
     ∃ result,
       createProcessingPlan h images descriptions = Some result
       ∧ ∀ i, i ∈ images → descriptions !! path i = None →
              path i ∉ planIds (groups result))
  ∧ (∀ options i,
       i ∈ images →
       is_Some (DescriptionGenerator.generateDescriptions h images options !! path i)).
Proof.
  split.
  - intros descriptions. apply undescribed_dropped.
  - intros options i. apply generateDescriptions_covers.
Qed.

(** Claim C10.  On an empty list of occurrences the plan has no group and
    no image, both costs are 0, and [estimatedSavings] is 0 / 0 * 100, which
    is [NaN]. *)
Theorem empty_run_is_not_a_number `{Runtime} (h : heap)
    (descriptions : gmap jsstring ImageDescription) :
  ∃ result,
    createProcessingPlan h [] descriptions = Some result
    ∧ groups result = []
    ∧ totalImages result = 0
    ∧ estimatedSavings result = jmul (jdiv (Fin (0 - 0)) (Fin 0)) (Fin 100)
    ∧ estimatedSavings result = NaN.
Proof.
  unfold createProcessingPlan, groupBySimilarity. simpl.
  eexists. split; [reflexivity|]. unfold calculateOptimizationResult. simpl.
  repeat split; reflexivity.
Qed.

(** In a run of the pipeline the descriptions are those of
    [generateDescriptions], and the plan's [imageId]s are the occurrences'
    paths with nothing assumed. *)
Theorem pipeline_plans_every_occurrence `{Runtime} (h : heap)
    (images : list ImageUrlInfo) (options : DescriptionGenerator.DescriptionOptions) :
  ∃ result,
    createProcessingPlan h images
      (DescriptionGenerator.generateDescriptions h images options) = Some result
    ∧ NoDup (planIds (groups result))
    ∧ (∀ p, p ∈ planIds (groups result) ↔ p ∈ path <$> images).
Proof.
  destruct (planIds_spec h images
              (DescriptionGenerator.generateDescriptions h images options))
    as (result & Hr & _ & Hids).
  destruct (groupBySimilarity_spec h images
              (DescriptionGenerator.generateDescriptions h images options))
    as (Hnd & Hin & _ & Hall).
  exists result. split; [done|]. split; [by rewrite Hids|].
  intros p. rewrite Hids. split.
  - intros Hp. apply list_elem_of_fmap in Hp as (i & -> & Hi).
    apply list_elem_of_fmap. exists i. split; [done|]. by apply Hin.
  - intros Hp. apply list_elem_of_fmap in Hp as (i & -> & Hi).
    apply Hall; [|done]. intros j Hj. by apply generateDescriptions_covers.
Qed.

End Pipeline.

(** ** Decimal numerals *)

Section Decimal.

Lemma js_String a s : js (String a s) = N_of_ascii a :: js s.
Proof. done. Qed.

Lemma js_app a b : js (a +:+ b) = js a ++ js b.
Proof.
  induction a as [|c a IH]; [done|].
  change (String c a +:+ b) with (String c (a +:+ b)).
  by rewrite !js_String, IH.
Qed.

Lemma js_inj a b : js a = js b → a = b.
Proof.
  revert b. induction a as [|c a IH]; intros [|d b]; try done.
  rewrite !js_String. intros [= Hc Hs].
  f_equal; [|by apply IH].
  rewrite <- (ascii_N_embedding c), <- (ascii_N_embedding d). by rewrite Hc.
Qed.

Lemma pretty_N_char_code d :
  (d < 10)%N → N_of_ascii (pretty_N_char d) = (48 + d)%N.
Proof.
  intros Hd.
  assert (d = 0 ∨ d = 1 ∨ d = 2 ∨ d = 3 ∨ d = 4 ∨ d = 5 ∨ d = 6 ∨ d = 7 ∨ d = 8 ∨ d = 9)%N
    as Hcases by lia.
  repeat (destruct Hcases as [->|Hcases]; [done|]). by subst d.
Qed.

(** The digits of [x] in front of [s]: every one a digit, and read back by
    the loop of [parseInt] as [x]. *)
Lemma pretty_N_go_digits x s :
  ∃ ds, js (pretty_N_go x s) = ds ++ js s
        ∧ Forall (λ c, is_digit c = true) ds
        ∧ ((0 < x)%N → ds ≠ [])
        ∧ ∀ acc, fold_left (λ acc c, acc * 10 + (c - 48))%N ds acc
                 = (acc * 10 ^ N.of_nat (length ds) + x)%N.
Proof.
  revert s. induction (N.lt_wf_0 x) as [x _ IH]; intros s.
  destruct (decide (0 < x)%N) as [Hpos|Hzero].
  - rewrite pretty_N_go_step by done.
    destruct (IH (x `div` 10)%N (N.div_lt x 10 Hpos eq_refl)
                (String (pretty_N_char (x `mod` 10)) s)) as (ds & Hds & Hall & _ & Hfold).
    pose proof (N.mod_upper_bound x 10 ltac:(done)) as Hmod.
    exists (ds ++ [N_of_ascii (pretty_N_char (x `mod` 10))]).
    split; [by rewrite Hds, js_String, <- app_assoc|]. split; [|split].
    + apply Forall_app. split; [done|]. constructor; [|done].
      rewrite pretty_N_char_code by done. unfold is_digit, in_range.
      generalize dependent (x `mod` 10)%N. intros r _ Hr.
      apply andb_true_iff. split; apply N.leb_le; lia.
    + intros _. by destruct ds.
    + intros acc. rewrite fold_left_app, Hfold. simpl.
      rewrite pretty_N_char_code by done.
      rewrite length_app, Nat2N.inj_add. simpl.
      rewrite N.pow_add_r. change (10 ^ 1)%N with 10%N.
      pose proof (N.div_mod' x 10) as Hx.
      set (p := (10 ^ N.of_nat (length ds))%N) in *.
      set (q := (x `div` 10)%N) in *. set (r := (x `mod` 10)%N) in *.
      clearbody p q r. nia.
  - assert (x = 0%N) as -> by lia. exists []. rewrite pretty_N_go_0.
    split; [done|]. split; [done|]. split; [lia|]. intros acc. simpl. lia.
Qed.

Lemma of_N_str_digits n :
  Forall (λ c, is_digit c = true) (of_N_str n) ∧ of_N_str n ≠ [].
Proof.
  unfold of_N_str, pretty, pretty_N. case_decide as Hz; [by repeat constructor|].
  destruct (pretty_N_go_digits n "") as (ds & Hds & Hall & Hne & _).
  rewrite Hds, app_nil_r. split; [done|]. apply Hne. lia.
Qed.

(** [parseInt(`${n}`)] is [n]. *)
Lemma parseInt_of_N_str n : parseInt (of_N_str n) = n.
Proof.
  unfold of_N_str, pretty, pretty_N, parseInt. case_decide as Hz; [by subst n|].
  destruct (pretty_N_go_digits n "") as (ds & Hds & _ & _ & Hfold).
  rewrite Hds, app_nil_r, Hfold. lia.
Qed.

Lemma of_N_str_inj n m : of_N_str n = of_N_str m → n = m.
Proof. intros Heq. rewrite <- (parseInt_of_N_str n), <- (parseInt_of_N_str m). by rewrite Heq. Qed.

Lemma of_nat_str_of_N n : of_nat_str n = of_N_str (N.of_nat n).
Proof. done. Qed.

(** A greedy run stops at the first character outside the class. *)
Lemma span_app P run c rest :
  Forall (λ x, P x = true) run → P c = false →
  span P (run ++ c :: rest) = (run, c :: rest).
Proof.
  intros Hrun Hc. induction Hrun as [|x run Hx _ IH]; simpl.
  - by rewrite Hc.
  - by rewrite Hx, IH.
Qed.

Lemma span_all P run :
  Forall (λ x, P x = true) run → span P run = (run, []).
Proof.
  induction 1 as [|x run Hx _ IH]; simpl; [done|]. by rewrite Hx, IH.
Qed.

Lemma run1_app P run c rest :
  Forall (λ x, P x = true) run → run ≠ [] → P c = false →
  run1 P (run ++ c :: rest) = Some (run, c :: rest).
Proof.
  intros Hrun Hne Hc. unfold run1. rewrite span_app by done. by destruct run.
Qed.

Lemma run1_all P run :
  Forall (λ x, P x = true) run → run ≠ [] → run1 P run = Some (run, []).
Proof.
  intros Hrun Hne. unfold run1. rewrite span_all by done. by destruct run.
Qed.

End Decimal.

(** ** More of the analyzer *)

(** *** The counters of a plan *)

Section AnalyzerCounts.
Import ImageProcessingAnalyzer.

Lemma countType_variants t (plans : list ProcessingPlan) n :
  fold_left (λ n variant, if bool_decide (processingType variant = t) then S n else n)
            plans n
  = n + length (filter (λ variant, processingType variant = t) plans).
Proof.
  revert n. induction plans as [|v plans IH]; intros n; simpl; [lia|].
  rewrite IH, filter_cons. case_bool_decide.
  - rewrite decide_True by done. simpl. lia.
  - by rewrite decide_False.
Qed.

Lemma countType_filterPlansByType t processingGroups :
  countType t processingGroups = length (filterPlansByType processingGroups t).
Proof.
  unfold countType, filterPlansByType.
  assert (∀ n,
    fold_left
      (λ n group,
         fold_left
           (λ n variant, if bool_decide (processingType variant = t) then S n else n)
           (variants group) n)
      processingGroups n
    = n + length (processingGroups ≫=
                    (λ group, filter (λ variant, processingType variant = t)
                                     (variants group)))) as Hfold.
  { induction processingGroups as [|g gs IH]; intros n; [cbn; lia|].
    cbn [fold_left]. rewrite IH, countType_variants, bind_cons, length_app. lia. }
  by rewrite Hfold.
Qed.

Lemma filter_types_length (plans : list ProcessingPlan) :
  length (filter (λ v, processingType v = generate) plans)
  + length (filter (λ v, processingType v = resize) plans)
  + length (filter (λ v, processingType v = crop) plans)
  + length (filter (λ v, processingType v = reuse) plans)
  = length plans.
Proof.
  induction plans as [|v plans IH]; [done|].
  rewrite !filter_cons.
  destruct (processingType v) eqn:Ht;
    repeat (rewrite decide_True by done || rewrite decide_False by done);
    simpl; lia.
Qed.

Lemma calculateOptimizationResult_counters processingGroups :
  let result := calculateOptimizationResult processingGroups in
  generatedImages result = countType generate processingGroups
  ∧ resizedImages result = countType resize processingGroups
  ∧ croppedImages result = countType crop processingGroups
  ∧ reusedImages result = countType reuse processingGroups.
Proof.
  cbv zeta. unfold calculateOptimizationResult.
  by destruct (fold_left _ _ _) as [[? ?] ?].
Qed.

Lemma filterPlansByType_lengths processingGroups :
  length (filterPlansByType processingGroups generate)
  + length (filterPlansByType processingGroups resize)
  + length (filterPlansByType processingGroups crop)
  + length (filterPlansByType processingGroups reuse)
  = length (planIds processingGroups).
Proof.
  unfold filterPlansByType, planIds.
  induction processingGroups as [|g gs IH]; [done|].
  rewrite !bind_cons, !length_app, length_fmap.
  pose proof (filter_types_length (variants g)). lia.
Qed.

(** The four counters of [calculateOptimizationResult] are the numbers of
    plans that [filterPlansByType] returns for the four types, and they add
    up to [totalImages]. *)
Theorem type_counts_add_up processingGroups :
  let result := calculateOptimizationResult processingGroups in
  generatedImages result = length (filterPlansByType (groups result) generate)
  ∧ resizedImages result = length (filterPlansByType (groups result) resize)
  ∧ croppedImages result = length (filterPlansByType (groups result) crop)
  ∧ reusedImages result = length (filterPlansByType (groups result) reuse)
  ∧ generatedImages result + resizedImages result + croppedImages result
    + reusedImages result = totalImages result.
Proof.
  cbv zeta. rewrite calculateOptimizationResult_groups, totalImages_planIds.
  destruct (calculateOptimizationResult_counters processingGroups)
    as (-> & -> & -> & ->).
  rewrite !countType_filterPlansByType.
  repeat (split; [done|]). apply filterPlansByType_lengths.
Qed.

End AnalyzerCounts.

(** *** The similarity measures *)

Section Similarity.
Import ImageProcessingAnalyzer.
Context `{Runtime}.
Variable h : heap.

(** *** The edit distance *)

(** What an entry [v] of the matrix at row [i] and column [j] is bounded by. *)
Definition cell (i j v : nat) : Prop := i - j ≤ v ∧ j - i ≤ v ∧ v ≤ Nat.max i j.

Lemma levenshteinRow_cells c2 i str1 j diag left above :
  cell i j diag → cell (S i) j left →
  length above = length str1 →
  (∀ k v, above !! k = Some v → cell i (S j + k) v) →
  let row := levenshteinRow c2 str1 diag left above in
  length row = length str1
  ∧ ∀ k v, row !! k = Some v → cell (S i) (S j + k) v.
Proof.
  revert j diag left above.
  induction str1 as [|c1 str1 IH]; intros j diag left [|up above] Hd Hl Hlen Ha;
    cbv zeta; simpl in Hlen; try discriminate.
  - split; [done|]. intros k v Hk. simpl in Hk. by rewrite lookup_nil in Hk.
  - cbn [levenshteinRow].
    set (v := if (c2 =? c1)%N then diag
              else Nat.min (diag + 1) (Nat.min (left + 1) (up + 1))).
    assert (Hup : cell i (S j) up).
    { specialize (Ha 0 up eq_refl). by rewrite Nat.add_0_r in Ha. }
    assert (Hv : cell (S i) (S j) v).
    { unfold v, cell in *. destruct (c2 =? c1)%N; lia. }
    destruct (IH (S j) up v above Hup Hv) as [Hlen' Hrow]; [lia| |].
    { intros k w Hk. specialize (Ha (S k) w Hk).
      by replace (S (S j) + k) with (S j + S k) by lia. }
    split; [simpl; by rewrite Hlen'|].
    intros [|k] w Hk; simpl in Hk.
    + injection Hk as <-. by rewrite Nat.add_0_r.
    + replace (S j + S k) with (S (S j) + k) by lia. by apply Hrow.
Qed.

(** A row of the matrix: as long as [str1] and one more, each entry within
    its bounds. *)
Definition row_cells (str1 : jsstring) (i : nat) (row : list nat) : Prop :=
  length row = S (length str1) ∧ ∀ j v, row !! j = Some v → cell i j v.

Lemma levenshtein_rows str1 str2 above i :
  row_cells str1 i above →
  row_cells str1 (i + length str2)
    (fold_left
       (λ '(above, i) c2,
          (i :: levenshteinRow c2 str1 (hd 0 above) i (tl above), S i))
       str2 (above, S i)).1.
Proof.
  revert above i. induction str2 as [|c2 str2 IH]; intros above i Hrow.
  - simpl. by rewrite Nat.add_0_r.
  - cbn [fold_left length]. replace (i + S (length str2)) with (S i + length str2) by lia.
    apply IH. destruct Hrow as [Hlen Hcells].
    destruct above as [|d above]; [done|]. simpl in Hlen. simpl.
    destruct (levenshteinRow_cells c2 i str1 0 d (S i) above) as [Hlen' Hrow'].
    + by apply (Hcells 0 d).
    + unfold cell. lia.
    + lia.
    + intros k v Hk. by apply (Hcells (S k) v).
    + split; [simpl; by rewrite Hlen'|].
      intros [|j] v Hj; simpl in Hj.
      * injection Hj as <-. unfold cell. lia.
      * by apply Hrow'.
Qed.

Lemma last_lookup_default (l : list nat) d :
  List.last l d = default d (l !! (length l - 1)).
Proof.
  induction l as [|a [|b l] IH]; [done|done|].
  change (List.last (a :: b :: l) d) with (List.last (b :: l) d).
  rewrite IH. simpl. by rewrite Nat.sub_0_r.
Qed.

Lemma row0_cells str1 : row_cells str1 0 (seq 0 (S (length str1))).
Proof.
  split; [by rewrite length_seq|].
  intros j v Hj. apply lookup_seq in Hj as [-> _]. unfold cell. lia.
Qed.

Lemma levenshteinDistance_cell str1 str2 :
  cell (length str2) (length str1) (levenshteinDistance str1 str2).
Proof.
  unfold levenshteinDistance. cbv zeta.
  destruct (levenshtein_rows str1 str2 (seq 0 (S (length str1))) 0 (row0_cells str1))
    as [Hlen Hcells].
  rewrite last_lookup_default, Hlen. simpl. rewrite Nat.sub_0_r.
  destruct (fold_left _ _ _).1 as [|a row] eqn:Hrow; [done|].
  destruct (lookup_lt_is_Some_2 (a :: row) (length str1)) as [v Hv];
    [rewrite Hlen; lia|].
  rewrite Hv. by apply Hcells.
Qed.

(** The entry below and to the right of [d] is [d] where the characters
    agree. *)
Lemma levenshteinRow_diagonal c2 str1 diag left above k d :
  str1 !! k = Some c2 → (diag :: above) !! k = Some d → k < length above →
  levenshteinRow c2 str1 diag left above !! k = Some d.
Proof.
  revert diag left above k.
  induction str1 as [|c1 str1 IH]; intros diag left [|up above] k Hc Hd Hk;
    simpl in *; try done; try lia.
  destruct k as [|k]; simpl in *.
  - injection Hc as ->. injection Hd as ->. by rewrite N.eqb_refl.
  - apply IH; [done|done|lia].
Qed.

Lemma levenshteinRow_length c2 str1 diag left above :
  length above = length str1 →
  length (levenshteinRow c2 str1 diag left above) = length str1.
Proof.
  revert diag left above.
  induction str1 as [|c1 str1 IH]; intros diag left [|up above] Hlen;
    simpl in *; try done.
  rewrite IH; [done|lia].
Qed.

Lemma levenshtein_same_rows s done_ rest above :
  s = done_ ++ rest →
  length above = S (length s) →
  above !! length done_ = Some 0 →
  (fold_left
     (λ '(above, i) c2,
        (i :: levenshteinRow c2 s (hd 0 above) i (tl above), S i))
     rest (above, S (length done_))).1 !! length s = Some 0.
Proof.
  revert done_ above. induction rest as [|c rest IH]; intros done_ above Hs Hlen Hz.
  - rewrite app_nil_r in Hs. subst s. done.
  - cbn [fold_left].
    specialize (IH (done_ ++ [c])
                  (S (length done_)
                   :: levenshteinRow c s (hd 0 above) (S (length done_)) (tl above))).
    rewrite length_app in IH. simpl in IH. rewrite Nat.add_1_r in IH.
    destruct above as [|d above]; [done|]. simpl in Hlen. simpl in *.
    apply IH.
    + by rewrite <- app_assoc.
    + rewrite levenshteinRow_length; [done|lia].
    + apply levenshteinRow_diagonal; [|done|].
      * subst s. by rewrite list_lookup_middle.
      * subst s. rewrite length_app in Hlen. simpl in Hlen. lia.
Qed.

Lemma levenshteinDistance_same s : levenshteinDistance s s = 0.
Proof.
  unfold levenshteinDistance. cbv zeta.
  pose proof (levenshtein_same_rows s [] s (seq 0 (S (length s))) eq_refl) as Hrow.
  rewrite length_seq in Hrow. specialize (Hrow eq_refl eq_refl).
  destruct (levenshtein_rows s s (seq 0 (S (length s))) 0 (row0_cells s)) as [Hlen _].
  rewrite last_lookup_default, Hlen. simpl. rewrite Nat.sub_0_r.
  simpl in Hrow. by rewrite Hrow.
Qed.

(** The edit distance is at least the difference of the two lengths and at
    most the greater of them; it is 0 between a string and itself. *)
Lemma levenshteinDistance_bounds str1 str2 :
  length str1 - length str2 ≤ levenshteinDistance str1 str2
  ∧ length str2 - length str1 ≤ levenshteinDistance str1 str2
  ∧ levenshteinDistance str1 str2 ≤ Nat.max (length str1) (length str2).
Proof. pose proof (levenshteinDistance_cell str1 str2) as Hc. unfold cell in Hc. lia. Qed.

(** *** The three measures *)

Lemma Qdiv_unit (a b : Q) : (0 <= a → a <= b → 0 < b → 0 <= a / b <= 1)%Q.
Proof.
  intros Ha Hab Hb. split.
  - apply Qle_shift_div_l; lra.
  - apply Qle_shift_div_r; lra.
Qed.

Lemma inject_nat_le (a b : nat) : a ≤ b → (inject_Z (Z.of_nat a) <= inject_Z (Z.of_nat b))%Q.
Proof. intros Hab. rewrite <- Zle_Qle. lia. Qed.

Lemma inject_nat_pos (a : nat) : 0 < a → (0 < inject_Z (Z.of_nat a))%Q.
Proof. intros Ha. change 0%Q with (inject_Z 0). rewrite <- Zlt_Qlt. lia. Qed.

Lemma calculateStringSimilarity_unit str1 str2 :
  (0 <= calculateStringSimilarity str1 str2 <= 1)%Q.
Proof.
  unfold calculateStringSimilarity. cbv zeta.
  set (longer := if bool_decide (length str2 < length str1) then str1 else str2).
  set (shorter := if bool_decide (length str2 < length str1) then str2 else str1).
  case_bool_decide as Hzero; [split; lra|].
  assert (length shorter ≤ length longer) as Hle.
  { unfold longer, shorter. case_bool_decide; lia. }
  pose proof (levenshteinDistance_bounds longer shorter) as (_ & _ & Hd).
  rewrite Nat.max_l in Hd by done.
  set (d := levenshteinDistance longer shorter) in *.
  apply Qdiv_unit.
  - pose proof (inject_nat_le _ _ Hd). lra.
  - pose proof (inject_nat_le 0 d ltac:(lia)) as H0.
    change (inject_Z (Z.of_nat 0)) with 0%Q in H0. lra.
  - apply inject_nat_pos. lia.
Qed.

Lemma calculateStringSimilarity_same s : (calculateStringSimilarity s s == 1)%Q.
Proof.
  unfold calculateStringSimilarity. cbv zeta.
  rewrite (bool_decide_eq_false_2 (length s < length s)) by lia.
  case_bool_decide as Hzero; [reflexivity|].
  rewrite levenshteinDistance_same. change (inject_Z (Z.of_nat 0)) with 0%Q.
  assert (0 < inject_Z (Z.of_nat (length s)))%Q by (apply inject_nat_pos; lia).
  field. lra.
Qed.

Lemma calculateContextSimilarity_unit img1 img2 :
  (0 <= calculateContextSimilarity h img1 img2 <= 1)%Q.
Proof.
  unfold calculateContextSimilarity. cbv zeta.
  destruct (negb (truthy (context img1)) || negb (truthy (context img2)));
    [split; lra|].
  assert (∀ fields (similarity : Q) (comparisons : nat),
    (0 <= similarity <= inject_Z (Z.of_nat comparisons))%Q →
    let st :=
      fold_left
        (λ '(similarity, comparisons) field,
           match js_get h (context img1) field, js_get h (context img2) field with
           | Some v1, Some v2 =>
               if truthy v1 && truthy v2 then
                 if strict_eq v1 v2 then ((similarity + 1)%Q, S comparisons)
                 else
                   match v1, v2 with
                   | VStr s1, VStr s2 =>
                       ((similarity + calculateStringSimilarity s1 s2)%Q,
                        S comparisons)
                   | _, _ => (similarity, S comparisons)
                   end
               else (similarity, comparisons)
           | _, _ => (similarity, comparisons)
           end)
        fields (similarity, comparisons) in
    (0 <= st.1 <= inject_Z (Z.of_nat st.2))%Q) as Hfold.
  { induction fields as [|field fields IH]; intros similarity comparisons Hs; [done|].
    cbn [fold_left]. 
    assert (inject_Z (Z.of_nat (S comparisons)) == inject_Z (Z.of_nat comparisons) + 1)%Q
      as Hsucc.
    { rewrite Nat2Z.inj_succ, <- Z.add_1_r, inject_Z_plus. reflexivity. }
    destruct (js_get h (context img1) field) as [v1|]; [|by apply IH].
    destruct (js_get h (context img2) field) as [v2|]; [|by apply IH].
    destruct (truthy v1 && truthy v2); [|by apply IH].
    destruct (strict_eq v1 v2); [apply IH; rewrite Hsucc; lra|].
    destruct v1 as [| | |s1|]; try (apply IH; rewrite Hsucc; lra).
    destruct v2 as [| | |s2|]; try (apply IH; rewrite Hsucc; lra).
    pose proof (calculateStringSimilarity_unit s1 s2).
    apply IH. rewrite Hsucc. lra. }
  specialize (Hfold keyFields 0%Q 0).
  destruct (fold_left _ keyFields _) as [similarity comparisons].
  simpl in Hfold. case_bool_decide as Hc; [|split; lra].
  apply Qdiv_unit.
  - apply Hfold. change (inject_Z (Z.of_nat 0)) with 0%Q. split; lra.
  - apply Hfold. change (inject_Z (Z.of_nat 0)) with 0%Q. split; lra.
  - by apply inject_nat_pos.
Qed.

Lemma split_go_nonempty P s cur in_run : split_go P s cur in_run ≠ [].
Proof.
  revert cur in_run. induction s as [|c s IH]; intros cur in_run; simpl; [done|].
  destruct (P c); [destruct in_run|]; [apply IH|done|apply IH].
Qed.

Lemma words_nonempty s : words s ≠ ∅.
Proof.
  unfold words, split_on.
  pose proof (split_go_nonempty is_space (toLowerCase s) [] false) as Hne.
  destruct (split_go _ _ _ _) as [|w ws]; [done|].
  intros Hempty. apply (not_elem_of_empty (C := gset jsstring) w).
  rewrite <- Hempty. apply elem_of_list_to_set. by left.
Qed.

Lemma wordSimilarity_unit (words1 words2 : gset jsstring) :
  words1 ≠ ∅ →
  (0 <= inject_Z (Z.of_nat (size (words1 ∩ words2)))
        / inject_Z (Z.of_nat (size (words1 ∪ words2))) <= 1)%Q.
Proof.
  intros Hne. apply Qdiv_unit.
  - pose proof (inject_nat_le 0 (size (words1 ∩ words2)) ltac:(lia)) as H0.
    by change (inject_Z (Z.of_nat 0)) with 0%Q in H0.
  - apply inject_nat_le, subseteq_size.
    transitivity words1; [apply intersection_subseteq_l|apply union_subseteq_l].
  - apply inject_nat_pos.
    assert (size (words1 ∪ words2) ≠ 0); [|lia].
    intros Hz. apply size_empty_inv, empty_union in Hz as [Hz _]. apply Hne.
    by apply leibniz_equiv.
Qed.

Lemma calculateDescriptionSimilarity_unit desc1 desc2 :
  (0 <= calculateDescriptionSimilarity desc1 desc2 <= 1)%Q.
Proof.
  unfold calculateDescriptionSimilarity. cbv zeta.
  pose proof (wordSimilarity_unit (words (prompt desc1)) (words (prompt desc2))
                (words_nonempty _)) as Hw.
  set (w := (inject_Z _ / inject_Z _)%Q) in *.
  do 2 case_bool_decide; split; lra.
Qed.

(** The similarity of two descriptions does not depend on their order, and
    is 1 between descriptions with the same category, prompt and style. *)
Lemma calculateDescriptionSimilarity_comm desc1 desc2 :
  calculateDescriptionSimilarity desc1 desc2 = calculateDescriptionSimilarity desc2 desc1.
Proof.
  unfold calculateDescriptionSimilarity. cbv zeta.
  rewrite (comm_L (∩) (words (prompt desc1))), (comm_L (∪) (words (prompt desc1))).
  rewrite (bool_decide_ext (category desc1 = category desc2)
                           (category desc2 = category desc1)) by (split; congruence).
  rewrite (bool_decide_ext (style desc1 = style desc2)
                           (style desc2 = style desc1)) by (split; congruence).
  done.
Qed.

Lemma calculateDescriptionSimilarity_same desc1 desc2 :
  category desc1 = category desc2 → prompt desc1 = prompt desc2 →
  style desc1 = style desc2 →
  (calculateDescriptionSimilarity desc1 desc2 == 1)%Q.
Proof.
  intros Hc Hp Hs. unfold calculateDescriptionSimilarity. cbv zeta.
  rewrite Hc, Hp, Hs, !bool_decide_eq_true_2 by done.
  rewrite (idemp_L (∩)), (idemp_L (∪)).
  assert (0 < inject_Z (Z.of_nat (size (words (prompt desc2)))))%Q.
  { apply inject_nat_pos.
    assert (size (words (prompt desc2)) ≠ 0); [|lia].
    intros Hz. apply size_empty_inv in Hz. apply (words_nonempty (prompt desc2)).
    by apply leibniz_equiv. }
  field. lra.
Qed.

(** The edit distance of two strings is at least the difference of their
    lengths and at most the greater length, and 0 from a string to itself.
    The string similarity made of it lies between 0 and 1, and is 1 for a
    string and itself. *)
Theorem edit_distance_bounds str1 str2 :
  (length str1 - length str2 ≤ levenshteinDistance str1 str2
   ∧ length str2 - length str1 ≤ levenshteinDistance str1 str2
   ∧ levenshteinDistance str1 str2 ≤ Nat.max (length str1) (length str2))
  ∧ levenshteinDistance str1 str1 = 0
  ∧ (0 <= calculateStringSimilarity str1 str2 <= 1)%Q
  ∧ (calculateStringSimilarity str1 str1 == 1)%Q.
Proof.
  split; [apply levenshteinDistance_bounds|].
  split; [apply levenshteinDistance_same|].
  split; [apply calculateStringSimilarity_unit|apply calculateStringSimilarity_same].
Qed.

(** The similarity of two descriptions lies between 0 and 1, does not depend
    on their order, and is 1 for a description and itself; the similarity of
    the contexts of two occurrences lies between 0 and 1 as well.  So both
    can be compared with the threshold 0.8 of [groupBySimilarity]. *)
Theorem similarity_measures desc1 desc2 img1 img2 :
  (0 <= calculateDescriptionSimilarity desc1 desc2 <= 1)%Q
  ∧ calculateDescriptionSimilarity desc1 desc2
    = calculateDescriptionSimilarity desc2 desc1
  ∧ (calculateDescriptionSimilarity desc1 desc1 == 1)%Q
  ∧ (0 <= calculateContextSimilarity h img1 img2 <= 1)%Q.
Proof.
  split; [apply calculateDescriptionSimilarity_unit|].
  split; [apply calculateDescriptionSimilarity_comm|].
  split; [by apply calculateDescriptionSimilarity_same|].
  apply calculateContextSimilarity_unit.
Qed.

End Similarity.

(** *** The groups of [groupBySimilarity] *)

Section Grouping.
Import ImageProcessingAnalyzer.
Context `{Runtime}.
Variable h : heap.
Variable images : list ImageUrlInfo.
Variable descriptions : gmap jsstring ImageDescription.

(** [other] passes the test of [groupBySimilarity] against [first]. *)
Definition alike (first other : ImageUrlInfo) : Prop :=
  ∃ d d', descriptions !! path first = Some d
          ∧ descriptions !! path other = Some d'
          ∧ similar h first other d d' = true.

(** [other] is described and fails the test against [first]. *)
Definition unlike (first other : ImageUrlInfo) : Prop :=
  ∃ d d', descriptions !! path first = Some d
          ∧ descriptions !! path other = Some d'
          ∧ similar h first other d d' = false.

Lemma collectSimilar_alike image currentDesc others currentGroup processed :
  descriptions !! path image = Some currentDesc →
  ∃ added processed',
    fold_left (collectSimilar h descriptions image currentDesc) others
              (currentGroup, processed)
    = (currentGroup ++ added, processed')
    ∧ Forall (alike image) added
    ∧ processed ⊆ processed'
    ∧ ∀ i d, i ∈ others → path i ∉ processed' → descriptions !! path i = Some d →
             similar h image i currentDesc d = false.
Proof.
  intros Hdesc. revert currentGroup processed.
  induction others as [|other others IH]; intros currentGroup processed.
  - exists [], processed. rewrite app_nil_r. split; [done|]. split; [done|].
    split; [done|]. intros i d Hi. by apply elem_of_nil in Hi.
  - cbn [fold_left]. unfold collectSimilar at 2.
    case_bool_decide as Hproc;
      [|destruct (descriptions !! path other) as [otherDesc|] eqn:Hother;
        [destruct (similar h image other currentDesc otherDesc) eqn:Hsim|]].
    + destruct (IH currentGroup processed) as (added & ps & Hf & Ha & Hsub & Hrest).
      exists added, ps. split; [done|]. split; [done|]. split; [done|].
      intros i d Hi Hnot Hd. apply elem_of_cons in Hi as [->|Hi]; [|by eapply Hrest].
      exfalso. apply Hnot. by apply Hsub.
    + destruct (IH (currentGroup ++ [other]) ({[path other]} ∪ processed))
        as (added & ps & Hf & Ha & Hsub & Hrest).
      exists (other :: added), ps. split; [by rewrite Hf, <- app_assoc|]. split.
      { constructor; [|done]. by exists currentDesc, otherDesc. }
      split.
      { intros p Hp. apply Hsub. by apply elem_of_union_r. }
      intros i d Hi Hnot Hd. apply elem_of_cons in Hi as [->|Hi]; [|by eapply Hrest].
      exfalso. apply Hnot, Hsub, elem_of_union_l. by apply elem_of_singleton.
    + destruct (IH currentGroup processed) as (added & ps & Hf & Ha & Hsub & Hrest).
      exists added, ps. split; [done|]. split; [done|]. split; [done|].
      intros i d Hi Hnot Hd. apply elem_of_cons in Hi as [->|Hi]; [|by eapply Hrest].
      rewrite Hother in Hd. by injection Hd as <-.
    + destruct (IH currentGroup processed) as (added & ps & Hf & Ha & Hsub & Hrest).
      exists added, ps. split; [done|]. split; [done|]. split; [done|].
      intros i d Hi Hnot Hd. apply elem_of_cons in Hi as [->|Hi]; [|by eapply Hrest].
      congruence.
Qed.

(** What the outer loop keeps true of the groups emitted so far: each is a
    first occurrence followed by occurrences that passed the test against
    it; no occurrence still unprocessed passes the test against the first
    of any group; and the first of a group fails the test against the first
    of every group emitted before. *)
Record started (groups : list (list ImageUrlInfo)) (processed : gset jsstring) : Prop := {
  started_alike :
    Forall (λ g, ∃ first rest, g = first :: rest ∧ Forall (alike first) rest) groups;
  started_closed :
    ∀ first rest i d, first :: rest ∈ groups → i ∈ images → path i ∉ processed →
      descriptions !! path i = Some d → unlike first i;
  started_apart :
    ∀ k1 k2 a b ra rb, k1 < k2 →
      groups !! k1 = Some (a :: ra) → groups !! k2 = Some (b :: rb) → unlike a b;
}.

Lemma started_grow groups processed processed' :
  processed ⊆ processed' → started groups processed → started groups processed'.
Proof.
  intros Hsub [Ha Hc Hp]. split; [done| |done].
  intros first rest i d Hg Hi Hnot. eapply Hc; [done|done|]. intros Hin. by apply Hnot, Hsub.
Qed.

Lemma startGroup_started todo groups processed :
  (∀ i, i ∈ todo → i ∈ images) →
  started groups processed →
  ∃ groups' processed',
    fold_left (startGroup h images descriptions) todo (groups, processed)
    = (groups', processed')
    ∧ started groups' processed'.
Proof.
  revert groups processed.
  induction todo as [|image todo IH]; intros groups processed Hin Hst.
  - by exists groups, processed.
  - assert (Hin' : ∀ i, i ∈ todo → i ∈ images)
      by (intros i Hi; apply Hin; by right).
    cbn [fold_left]. unfold startGroup at 2.
    case_bool_decide as Hproc; [by apply IH|].
    destruct (descriptions !! path image) as [currentDesc|] eqn:Hdesc.
    + destruct (collectSimilar_alike image currentDesc images [image]
                  ({[path image]} ∪ processed) Hdesc)
        as (added & ps & Hf & Ha & Hsub & Hrest).
      rewrite Hf. apply IH; [done|].
      assert (Hsub' : processed ⊆ ps).
      { intros p Hp. apply Hsub. by apply elem_of_union_r. }
      destruct (started_grow _ _ _ Hsub' Hst) as [Halike Hclosed Hapart].
      split.
      * apply Forall_app. split; [done|]. constructor; [|done].
        by exists image, added.
      * intros first rest i d Hg Hi Hnot Hd.
        apply elem_of_app in Hg as [Hg|Hg]; [by eapply Hclosed|].
        apply list_elem_of_singleton in Hg. injection Hg as -> ->.
        exists currentDesc, d. split; [done|]. split; [done|]. by apply Hrest.
      * intros k1 k2 a b ra rb Hk H1 H2.
        destruct (decide (k2 < length groups)) as [Hlt|Hge].
        { rewrite lookup_app_l in H1 by lia. rewrite lookup_app_l in H2 by done.
          exact (Hapart _ _ _ _ _ _ Hk H1 H2). }
        rewrite lookup_app_r in H2 by lia.
        apply list_lookup_singleton_Some in H2 as [Hk2 Hb]. injection Hb as <- <-.
        rewrite lookup_app_l in H1 by lia.
        destruct Hst as [_ Hclosed0 _].
        eapply Hclosed0; [by eapply list_elem_of_lookup_2| |done|done].
        apply Hin. by left.
    + apply IH; [done|]. eapply started_grow; [|done].
      intros p Hp. by apply elem_of_union_r.
Qed.

Lemma groupBySimilarity_started :
  ∃ processed, started (groupBySimilarity h images descriptions) processed.
Proof.
  unfold groupBySimilarity.
  destruct (startGroup_started images [] ∅) as (gs & ps & Hf & Hst).
  - done.
  - split; [constructor| |].
    + intros first rest i d Hg. by apply elem_of_nil in Hg.
    + intros k1 k2 a b ra rb _ H1. by rewrite lookup_nil in H1.
  - rewrite Hf. by exists ps.
Qed.

(** Every occurrence of a group but the first passed the similarity test
    against the first one: by description or by context. *)
Theorem group_members_resemble_first :
  Forall
    (λ g, ∃ first rest, g = first :: rest ∧ Forall (alike first) rest)
    (groupBySimilarity h images descriptions).
Proof. destruct groupBySimilarity_started as (ps & [Ha _ _]). done. Qed.

End Grouping.

(** *** The plans of a group *)

Section Plans.
Import ImageProcessingAnalyzer.
Context `{Runtime}.
Variable h : heap.
Variable images : list ImageUrlInfo.
Variable descriptions : gmap jsstring ImageDescription.

(** The cost that [createVariantPlan] and [optimizeGroup] give to a plan of
    each type. *)
Definition costOfType (t : ProcessingType) : Q :=
  match t with
  | generate => 1
  | resize => 2 # 10
  | crop => 3 # 10
  | reuse => 1 # 10
  end.

(** A crop region of the target's size that lies inside the source. *)
Definition cropWithin (sourceDims targetDims : Dimensions) (r : CropRegion) : Prop :=
  crop_width r = width targetDims
  ∧ crop_height r = height targetDims
  ∧ (crop_x r + crop_width r ≤ width sourceDims)%N
  ∧ (crop_y r + crop_height r ≤ height sourceDims)%N
  ∧ (2 * crop_x r ≤ width sourceDims - width targetDims ≤ 2 * crop_x r + 1)%N
  ∧ (2 * crop_y r ≤ height sourceDims - height targetDims ≤ 2 * crop_y r + 1)%N.

(** What holds of one plan of a group whose master has dimensions
    [masterDims]. *)
Definition wellFormed (masterDims : Dimensions) (v : ProcessingPlan) : Prop :=
  (1 ≤ priority v ≤ 10)%Z
  ∧ is_Some (description v)
  ∧ description v = descriptions !! imageId v
  ∧ estimatedCost v = costOfType (processingType v)
  ∧ match cropRegion v with
    | Some r => processingType v = crop ∧ cropWithin masterDims (targetDimensions v) r
    | None => processingType v ≠ crop
    end.

Lemma calculatePriority_range image description :
  (1 ≤ calculatePriority image description ≤ 10)%Z.
Proof. unfold calculatePriority. cbv zeta. case_bool_decide; lia. Qed.

Lemma calculateOptimalCrop_within sourceDims targetDims :
  canCropEfficiently sourceDims targetDims = true →
  cropWithin sourceDims targetDims (calculateOptimalCrop sourceDims targetDims).
Proof.
  unfold canCropEfficiently. cbv zeta. intros Hc.
  apply andb_true_iff in Hc as [Hc _]. apply andb_true_iff in Hc as [Hw Hh].
  apply bool_decide_eq_true in Hw, Hh.
  unfold cropWithin, calculateOptimalCrop. simpl.
  split; [done|]. split; [done|].
  pose proof (N.div_mod' (width sourceDims - width targetDims) 2) as Hx.
  pose proof (N.mod_upper_bound (width sourceDims - width targetDims) 2 ltac:(done)) as Hx'.
  pose proof (N.div_mod' (height sourceDims - height targetDims) 2) as Hy.
  pose proof (N.mod_upper_bound (height sourceDims - height targetDims) 2 ltac:(done)) as Hy'.
  set (qx := ((width sourceDims - width targetDims) `div` 2)%N) in *.
  set (rx := ((width sourceDims - width targetDims) `mod` 2)%N) in *.
  set (qy := ((height sourceDims - height targetDims) `div` 2)%N) in *.
  set (ry := ((height sourceDims - height targetDims) `mod` 2)%N) in *.
  clearbody qx rx qy ry. repeat split; lia.
Qed.

Lemma classify_wellFormed masterDims targetDims :
  let '(t, c, q) := classify masterDims targetDims in
  q = costOfType t
  ∧ match c with
    | Some r => t = crop ∧ cropWithin masterDims targetDims r
    | None => t ≠ crop
    end.
Proof.
  unfold classify. cbv zeta.
  destruct (_ && _); [done|].
  destruct (_ && _); [done|].
  destruct (canCropEfficiently masterDims targetDims) eqn:Hcrop; [|done].
  split; [done|]. split; [done|]. by apply calculateOptimalCrop_within.
Qed.

Lemma createVariantPlan_wellFormed targetImage masterImage plan :
  createVariantPlan targetImage masterImage descriptions = Some plan →
  wellFormed (dimensions masterImage) plan.
Proof.
  unfold createVariantPlan. intros Hp.
  destruct (descriptions !! path targetImage) as [targetDesc|] eqn:Hd; [|done].
  simpl in Hp.
  pose proof (classify_wellFormed (dimensions masterImage) (dimensions targetImage)) as Hc.
  destruct (classify _ _) as [[t c] q]. injection Hp as <-.
  unfold wellFormed. simpl. split; [apply calculatePriority_range|].
  split; [done|]. split; [done|]. done.
Qed.

Lemma planned_wellFormed group result :
  (∀ i, i ∈ group → is_Some (descriptions !! path i)) →
  planned descriptions group result →
  Forall (wellFormed (groupTargetDimensions result)) (variants result).
Proof.
  intros Hd (m & rest & Hin & _ & Hdims & Hv & Hall & _). rewrite Hv, Hdims.
  constructor.
  - unfold wellFormed. simpl. split; [lia|]. split; [by apply Hd|]. done.
  - clear Hv. induction Hall as [|i p imgs ps Hp _ IH]; constructor; [|done].
    by eapply createVariantPlan_wellFormed.
Qed.

(** Every plan of a processing plan has a priority from 1 to 10, carries
    the description of its own occurrence, costs what its type costs, and
    has a crop region exactly when it is a [crop]: a centred region of the
    target's size inside the master. *)
Theorem plans_are_well_formed :
  ∃ result,
    createProcessingPlan h images descriptions = Some result
    ∧ Forall (λ g, Forall (wellFormed (groupTargetDimensions g)) (variants g))
             (groups result).
Proof.
  destruct (createProcessingPlan_spec h images descriptions) as (result & Hr & Hp & _).
  destruct (groupBySimilarity_spec h images descriptions) as (_ & Hin & _).
  exists result. split; [done|].
  assert (Hd : ∀ g, g ∈ groupBySimilarity h images descriptions →
                ∀ i, i ∈ g → is_Some (descriptions !! path i)).
  { intros g Hg i Hi. apply Hin. apply list_elem_of_join. eauto. }
  clear Hin. revert Hd. induction Hp as [|g pg gs pgs Hpl _ IH]; intros Hd; constructor.
  - eapply planned_wellFormed; [|done]. apply Hd. by left.
  - apply IH. intros g' Hg'. apply Hd. by right.
Qed.

End Plans.

(** *** [getOptimizationStats] *)

Section OptimizationStatsFacts.
Import ImageProcessingAnalyzer.

(** The statistics of the analyzer's plan.  The first entry of the breakdown
    is the sum of the other four.  The efficiency score is a whole
    percentage between 0 and 100, and 0 when every plan is a generation; for
    a plan of no image it is [NaN], and so is the saving in the summary. *)
Theorem optimization_stats `{Runtime} (h : heap) (images : list ImageUrlInfo)
    (descriptions : gmap jsstring ImageDescription) :
  ∃ result,
    createProcessingPlan h images descriptions = Some result
    ∧ let stats := getOptimizationStats result in
      (∃ total generated resized cropped reused,
         breakdown stats = [(js "Immagini totali", total);
                            (js "Nuove generazioni", generated);
                            (js "Ridimensionamenti", resized);
                            (js "Ritagli", cropped);
                            (js "Riutilizzi", reused)]
         ∧ total = generated + resized + cropped + reused)
      ∧ (if bool_decide (totalImages result = 0)
         then efficiencyScore stats = NaN
              ∧ optimization_summary stats
                = js "Ottimizzazione: NaN% risparmio, 0/0 generazioni necessarie"
         else ∃ e, efficiencyScore stats = Fin (inject_Z e) ∧ (0 ≤ e ≤ 100)%Z
                   ∧ (generatedImages result = totalImages result → e = 0%Z)).
Proof.
  destruct (createProcessingPlan_spec h images descriptions)
    as (result & Hplan & Hplanned & Hresult).
  exists result. split; [done|]. cbv zeta.
  set (processingGroups := groups result) in *.
  pose proof (totalImages_planIds processingGroups) as Htotal.
  destruct (calculateOptimizationResult_counters processingGroups)
    as (Hg & Hr & Hc & Hu).
  pose proof (filterPlansByType_lengths processingGroups) as Hsum.
  rewrite <- !countType_filterPlansByType, <- Hg, <- Hr, <- Hc, <- Hu, <- Htotal in Hsum.
  destruct (sumTotalCosts_variants descriptions _ _ Hplanned)
    as (_ & _ & _ & Hsome & _).
  rewrite <- Htotal in Hsome. rewrite <- Hresult in *. clear Hg Hr Hc Hu Htotal.
  split.
  { eexists _, _, _, _, _. split; [reflexivity|]. lia. }
  unfold getOptimizationStats. cbn [efficiencyScore optimization_summary].
  case_bool_decide as Hnone.
  - assert (processingGroups = []) as Hnil.
    { destruct processingGroups; [done|]. specialize (Hsome ltac:(done)). lia. }
    rewrite Hresult. fold processingGroups. rewrite Hnil. done.
  - set (t := totalImages result) in *.
    set (a := resizedImages result + croppedImages result + reusedImages result).
    assert (a ≤ t) as Hle by (unfold a; lia).
    assert (0 < inject_Z (Z.of_nat t))%Q as Hpos.
    { change 0%Q with (inject_Z 0). rewrite <- Zlt_Qlt. lia. }
    assert (0 <= inject_Z (Z.of_nat a) <= inject_Z (Z.of_nat t))%Q as [H0 H1].
    { change 0%Q with (inject_Z 0). rewrite <- !Zle_Qle. lia. }
    unfold jdiv. destruct (Qeq_bool (inject_Z (Z.of_nat t)) 0) eqn:Hz.
    { apply Qeq_bool_iff in Hz. lra. }
    cbn [jmul jround]. eexists. split; [reflexivity|].
    set (x := (inject_Z (Z.of_nat a) / inject_Z (Z.of_nat t))%Q).
    assert (0 <= x)%Q as Hx0 by (apply Qle_shift_div_l; [done|lra]).
    assert (x <= 1)%Q as Hx1 by (apply Qle_shift_div_r; [done|lra]).
    split; [split|].
    + apply (Qfloor_resp_le 0). lra.
    + transitivity (Qfloor (100 + (1 # 2))); [apply Qfloor_resp_le; lra|done].
    + intros Hall. assert (a = 0) as Ha by (unfold a; lia).
      assert (x == 0)%Q as Hx.
      { unfold x. rewrite Ha. unfold Qdiv. change (inject_Z (Z.of_nat 0)) with 0%Q. lra. }
      assert (x * 100 + (1 # 2) == 1 # 2)%Q as -> by lra. done.
Qed.

End OptimizationStatsFacts.

(** ** More of the extractor *)

(** *** Maps of arrays *)

Section Maps.
Context {A : Type}.
Implicit Types (groups : list (jsstring * list A)) (x : A) (k : jsstring).

Lemma groupOf_pushTo k k' x groups :
  groupOf k (pushTo k' x groups)
  = if bool_decide (k = k') then groupOf k groups ++ [x] else groupOf k groups.
Proof.
  unfold groupOf. induction groups as [|[k0 xs] groups IH]; simpl.
  - destruct (decide (k = k')) as [->|Hne].
    + by rewrite !bool_decide_eq_true_2.
    + by rewrite !bool_decide_eq_false_2 by congruence.
  - destruct (decide (k0 = k')) as [->|Hne].
    + rewrite (bool_decide_eq_true_2 (k' = k')) by done. simpl.
      destruct (decide (k = k')) as [->|Hne'].
      * by rewrite !bool_decide_eq_true_2.
      * by rewrite !bool_decide_eq_false_2 by congruence.
    + rewrite (bool_decide_eq_false_2 (k0 = k')) by done. simpl.
      destruct (decide (k0 = k)) as [->|Hne'].
      * rewrite (bool_decide_eq_true_2 (k = k)) by done.
        by rewrite bool_decide_eq_false_2.
      * rewrite (bool_decide_eq_false_2 (k0 = k)) by done. apply IH.
Qed.

Lemma pushTo_keys k x groups :
  (pushTo k x groups).*1
  = if bool_decide (k ∈ groups.*1) then groups.*1 else groups.*1 ++ [k].
Proof.
  induction groups as [|[k0 xs] groups IH]; simpl; [done|].
  destruct (decide (k0 = k)) as [->|Hne].
  - rewrite (bool_decide_eq_true_2 (k = k)) by done.
    by rewrite bool_decide_eq_true_2 by (by left).
  - rewrite (bool_decide_eq_false_2 (k0 = k)) by done.
    rewrite fmap_cons, IH. simpl.
    destruct (decide (k ∈ groups.*1)) as [Hin|Hnot].
    + rewrite !bool_decide_eq_true_2; [done|by right|done].
    + rewrite !bool_decide_eq_false_2; [done| |done].
      intros Hin. apply elem_of_cons in Hin as [->|Hin]; done.
Qed.

Lemma pushTo_NoDup k x groups : NoDup groups.*1 → NoDup (pushTo k x groups).*1.
Proof.
  intros Hnd. rewrite pushTo_keys. case_bool_decide as Hin; [done|].
  apply NoDup_app. split; [done|]. split; [|apply NoDup_singleton].
  intros k' Hk' Hk. apply list_elem_of_singleton in Hk. by subst k'.
Qed.

Lemma pushTo_nonempty k x groups :
  Forall (λ kv, kv.2 ≠ []) groups → Forall (λ kv, kv.2 ≠ []) (pushTo k x groups).
Proof.
  induction 1 as [|[k0 xs] groups Hxs Hrest IH]; simpl.
  - by repeat constructor.
  - destruct (bool_decide (k0 = k)); constructor; try done.
    simpl. by destruct xs.
Qed.

Lemma groupOf_elem k xs groups :
  NoDup groups.*1 → (k, xs) ∈ groups → groupOf k groups = xs.
Proof.
  unfold groupOf. induction groups as [|[k0 ys] groups IH]; intros Hnd Hin.
  - by apply elem_of_nil in Hin.
  - simpl in Hnd. apply NoDup_cons in Hnd as [Hk0 Hnd]. simpl.
    apply elem_of_cons in Hin as [Hin|Hin].
    + injection Hin as <- <-. by rewrite bool_decide_eq_true_2.
    + rewrite bool_decide_eq_false_2; [by apply IH|].
      intros ->. apply Hk0. apply list_elem_of_fmap. by exists (k, xs).
Qed.

Lemma groupOf_key k groups :
  k ∈ groups.*1 → (k, groupOf k groups) ∈ groups.
Proof.
  unfold groupOf. induction groups as [|[k0 ys] groups IH]; intros Hin.
  - by apply elem_of_nil in Hin.
  - simpl in *. destruct (decide (k0 = k)) as [->|Hne].
    + rewrite bool_decide_eq_true_2 by done. by left.
    + rewrite bool_decide_eq_false_2 by done. right. apply IH.
      apply elem_of_cons in Hin as [->|Hin]; done.
Qed.

Variable key : A → jsstring.

(** A map of arrays filled by one [push] per element, each under its key:
    the keys are distinct, in the order of their first elements, and the
    array under a key holds, in order, the elements with that key. *)
Lemma pushTo_fold (l : list A) groups :
  let result := fold_left (λ groups x, pushTo (key x) x groups) l groups in
  (NoDup groups.*1 → NoDup result.*1)
  ∧ (Forall (λ kv, kv.2 ≠ []) groups → Forall (λ kv, kv.2 ≠ []) result)
  ∧ (∀ k, groupOf k result = groupOf k groups ++ filter (λ x, key x = k) l)
  ∧ (∀ k, k ∈ result.*1 ↔ k ∈ groups.*1 ∨ k ∈ key <$> l).
Proof.
  revert groups. induction l as [|x l IH]; intros groups; cbv zeta.
  - simpl. split; [done|]. split; [done|]. split.
    + intros k. by rewrite app_nil_r.
    + intros k. rewrite elem_of_nil. tauto.
  - cbn [fold_left]. destruct (IH (pushTo (key x) x groups)) as (Hnd & Hne & Hg & Hk).
    split; [|split; [|split]].
    + intros Hnd0. by apply Hnd, pushTo_NoDup.
    + intros Hne0. by apply Hne, pushTo_nonempty.
    + intros k. rewrite Hg, groupOf_pushTo, filter_cons.
      destruct (decide (key x = k)) as [<-|Hne'].
      * rewrite bool_decide_eq_true_2 by done. by rewrite <- app_assoc.
      * by rewrite bool_decide_eq_false_2 by congruence.
    + intros k. rewrite Hk, pushTo_keys, fmap_cons, elem_of_cons.
      case_bool_decide as Hin.
      * split; [intros [?|?]; auto|]. intros [?|[->|?]]; auto.
      * rewrite elem_of_app, list_elem_of_singleton. tauto.
Qed.

Lemma pushTo_groups (l : list A) :
  let result := fold_left (λ groups x, pushTo (key x) x groups) l [] in
  NoDup result.*1
  ∧ (∀ k xs, (k, xs) ∈ result ↔ xs ≠ [] ∧ xs = filter (λ x, key x = k) l)
  ∧ length (mjoin result.*2) = length l.
Proof.
  cbv zeta. destruct (pushTo_fold l []) as (Hnd & Hne & Hg & Hk).
  specialize (Hnd (NoDup_nil_2)). specialize (Hne (Forall_nil_2 _)).
  split; [done|]. split.
  - intros k xs. split.
    + intros Hin. split.
      * by apply (proj1 (Forall_forall _ _) Hne (k, xs)).
      * rewrite <- (groupOf_elem k xs _ Hnd Hin). apply Hg.
    + intros [Hxs ->]. rewrite <- (app_nil_l (filter _ l)).
      change (@nil A) with (groupOf k (@nil (jsstring * list A))) at 1.
      rewrite <- Hg. apply groupOf_key. apply Hk. right.
      destruct (filter _ l) as [|x xs] eqn:Hf; [done|].
      assert (x ∈ filter (λ x, key x = k) l) as Hx by (rewrite Hf; by left).
      apply list_elem_of_filter in Hx as [<- Hx]. apply list_elem_of_fmap. eauto.
  - clear Hnd Hne Hg Hk.
    assert (∀ groups,
      length (mjoin (fold_left (λ groups x, pushTo (key x) x groups) l groups).*2)
      = length (mjoin groups.*2) + length l) as Hlen.
    { induction l as [|x l IH]; intros groups; [simpl; lia|].
      cbn [fold_left length]. rewrite IH.
      assert (length (mjoin (pushTo (key x) x groups).*2) = S (length (mjoin groups.*2)))
        as ->; [|lia].
      clear IH. induction groups as [|[k0 xs] groups IHg]; simpl; [done|].
      destruct (bool_decide (k0 = key x)); simpl; rewrite !length_app; simpl; [lia|].
      unfold fmap in IHg. lia. }
    by rewrite Hlen.
Qed.

End Maps.

(** *** Groups of occurrences *)

Section ExtractorGroups.
Import ImageUrlExtractor.
Context `{Runtime}.

Lemma dimensionKey_inj d d' : dimensionKey d = dimensionKey d' → d = d'.
Proof.
  unfold dimensionKey. intros Heq.
  destruct (of_N_str_digits (width d)) as [Hw Hwne].
  destruct (of_N_str_digits (width d')) as [Hw' Hwne'].
  assert (span is_digit (of_N_str (width d) ++ js "x" ++ of_N_str (height d))
          = span is_digit (of_N_str (width d') ++ js "x" ++ of_N_str (height d')))
    as Hspan by (by rewrite Heq).
  change (js "x" ++ ?s) with (120%N :: s) in Hspan.
  rewrite !span_app in Hspan by done.
  injection Hspan as Hwidth Hheight.
  apply of_N_str_inj in Hwidth, Hheight.
  destruct d, d'; simpl in *. by subst.
Qed.

(** [groupBySimilarDimensions] files every occurrence under its
    dimensions, when these are whole numbers that binary64 holds exactly:
    the keys are distinct, and the array under a key holds, in the order of
    the input, all the occurrences of one width and height. *)
Theorem groups_by_dimensions (images : list ImageUrlInfo) :
  Forall (λ i, safeInteger (width (dimensions i))
               ∧ safeInteger (height (dimensions i))) images →
  let groups := groupBySimilarDimensions images in
  NoDup groups.*1
  ∧ ∀ k imgs,
      (k, imgs) ∈ groups
      ↔ imgs ≠ []
        ∧ ∃ d, k = dimensionKey d ∧ imgs = filter (λ i, dimensions i = d) images.
Proof.
  intros _. cbv zeta. unfold groupBySimilarDimensions.
  destruct (pushTo_groups (λ i, dimensionKey (dimensions i)) images) as (Hnd & Hg & _).
  split; [done|]. intros k imgs. rewrite Hg. split.
  - intros [Hne ->]. split; [done|].
    destruct (filter _ images) as [|x xs] eqn:Hf; [done|].
    assert (x ∈ filter (λ i, dimensionKey (dimensions i) = k) images) as Hx
      by (rewrite Hf; by left).
    apply list_elem_of_filter in Hx as [<- _].
    exists (dimensions x). split; [done|]. rewrite <- Hf.
    apply list_filter_iff. intros i. split; [apply dimensionKey_inj|by intros ->].
  - intros [Hne (d & -> & ->)]. split; [done|].
    apply list_filter_iff. intros i. split; [by intros ->|apply dimensionKey_inj].
Qed.

(** *** [filterByFieldType] *)

Lemma pushBucket_filter (images : list ImageUrlInfo) (r : FieldTypeGroups) :
  let result := fold_left (λ result img, pushBucket result (fieldBucket img) img) images r in
  thumbnails result = thumbnails r ++ filter (λ i, fieldBucket i = Thumbnails) images
  ∧ banners result = banners r ++ filter (λ i, fieldBucket i = Banners) images
  ∧ squares result = squares r ++ filter (λ i, fieldBucket i = Squares) images
  ∧ portraits result = portraits r ++ filter (λ i, fieldBucket i = Portraits) images
  ∧ landscapes result = landscapes r ++ filter (λ i, fieldBucket i = Landscapes) images
  ∧ generic result = generic r ++ filter (λ i, fieldBucket i = Generic) images.
Proof.
  revert r. induction images as [|img images IH]; intros r; cbv zeta.
  - simpl. by rewrite !app_nil_r.
  - cbn [fold_left]. destruct (IH (pushBucket r (fieldBucket img) img))
      as (H1 & H2 & H3 & H4 & H5 & H6).
    rewrite H1, H2, H3, H4, H5, H6, !filter_cons.
    destruct (fieldBucket img); simpl;
      repeat (rewrite decide_True by done || rewrite decide_False by done);
      rewrite <- ?app_assoc; done.
Qed.

Lemma bool_eq_decide (b : bool) (P : Prop) `{Decision P} :
  (b = true ↔ P) → b = bool_decide P.
Proof.
  intros Hb. destruct b.
  - symmetry. apply bool_decide_eq_true_2. by apply Hb.
  - symmetry. apply bool_decide_eq_false_2. intros HP. by apply Hb in HP.
Qed.

Lemma Qdiv_le_iff (c a b : Q) : (0 < b → (c <= a / b ↔ c * b <= a))%Q.
Proof.
  intros Hb. split.
  - intros Hc. apply Qnot_lt_le. intros Hlt.
    apply (Qlt_shift_div_r _ _ _ Hb) in Hlt. lra.
  - by apply Qle_shift_div_l.
Qed.

Lemma Qdiv_ge_iff (c a b : Q) : (0 < b → (a / b <= c ↔ a <= c * b))%Q.
Proof.
  intros Hb. split.
  - intros Hc. apply Qnot_lt_le. intros Hlt.
    apply (Qlt_shift_div_l _ _ _ Hb) in Hlt. lra.
  - by apply Qle_shift_div_r.
Qed.

(** The tests on [width / height] in terms of the width and the height. *)
Lemma ratio_tests (w ht : N) :
  let ratio := jdiv (jnum_of_N w) (jnum_of_N ht) in
  jeq ratio (Fin 1) = bool_decide (w = ht ∧ ht ≠ 0%N)
  ∧ jlt ratio (Fin 1) = bool_decide (w < ht)%N
  ∧ jlt (Fin 2) ratio = bool_decide (2 * ht < w)%N
  ∧ jlt (Fin 1) ratio = bool_decide (ht < w)%N.
Proof.
  cbv zeta. unfold jdiv, jnum_of_N.
  assert (Hle : ∀ x y : N, (inject_Z (Z.of_N x) <= inject_Z (Z.of_N y))%Q ↔ (x ≤ y)%N).
  { intros x y. rewrite <- Zle_Qle. lia. }
  destruct (Qeq_bool (inject_Z (Z.of_N ht)) 0) eqn:Hz.
  - apply Qeq_bool_iff in Hz.
    assert (ht ≤ 0)%N as Hht
      by (apply Hle; change (inject_Z (Z.of_N 0)) with 0%Q; lra).
    assert (ht = 0%N) as -> by lia. clear Hht.
    destruct (Qeq_bool (inject_Z (Z.of_N w)) 0) eqn:Hw.
    + apply Qeq_bool_iff in Hw.
      assert (w ≤ 0)%N as Hw0
        by (apply Hle; change (inject_Z (Z.of_N 0)) with 0%Q; lra).
      assert (w = 0%N) as -> by lia. clear Hw0.
      by vm_compute.
    + assert (w ≠ 0%N) as Hw0 by (intros ->; done).
      assert (Qle_bool 0 (inject_Z (Z.of_N w)) = true) as ->.
      { apply Qle_bool_iff. apply (Hle 0%N). lia. }
      unfold jeq, jlt. repeat split; apply bool_eq_decide; split; try done; try lia.
  - assert (ht ≠ 0%N) as Hht by (intros ->; done).
    assert (0 < inject_Z (Z.of_N ht))%Q as Hb.
    { apply Qnot_le_lt. intros Hc. apply (Hle ht 0%N) in Hc. lia. }
    assert ((1 <= inject_Z (Z.of_N w) / inject_Z (Z.of_N ht))%Q ↔ (ht ≤ w)%N) as E1.
    { rewrite (Qdiv_le_iff _ _ _ Hb), <- Hle. split; intros; lra. }
    assert ((inject_Z (Z.of_N w) / inject_Z (Z.of_N ht) <= 1)%Q ↔ (w ≤ ht)%N) as E2.
    { rewrite (Qdiv_ge_iff _ _ _ Hb), <- Hle. split; intros; lra. }
    assert ((inject_Z (Z.of_N w) / inject_Z (Z.of_N ht) <= 2)%Q ↔ (w ≤ 2 * ht)%N) as E3.
    { rewrite (Qdiv_ge_iff _ _ _ Hb), <- Hle, N2Z.inj_mul, inject_Z_mult.
      change (inject_Z (Z.of_N 2)) with 2%Q. split; intros; lra. }
    set (r := (inject_Z (Z.of_N w) / inject_Z (Z.of_N ht))%Q) in *.
    unfold jeq, jlt, Qltb. repeat split; apply bool_eq_decide.
    + rewrite Qeq_bool_iff. split.
      * intros Heq. assert (ht ≤ w)%N by (apply E1; lra).
        assert (w ≤ ht)%N by (apply E2; lra). split; [lia|done].
      * intros [-> _]. apply Qle_antisym; [apply E2|apply E1]; lia.
    + rewrite negb_true_iff, <- not_true_iff_false, Qle_bool_iff, E1. lia.
    + rewrite negb_true_iff, <- not_true_iff_false, Qle_bool_iff, E3. lia.
    + rewrite negb_true_iff, <- not_true_iff_false, Qle_bool_iff, E2. lia.
Qed.

(** The six arrays of [filterByFieldType] are the occurrences filtered by
    [fieldBucket], each in the order of the input.  An occurrence is filed
    by its field name first and by its shape otherwise: square when width
    and height are equal and not 0, portrait when narrower than high,
    banner when more than twice as wide as high (a height of 0 included),
    landscape when wider than high, and generic only when both are 0. *)
Theorem field_type_arrays (images : list ImageUrlInfo) :
  let result := filterByFieldType images in
  thumbnails result = filter (λ i, fieldBucket i = Thumbnails) images
  ∧ banners result = filter (λ i, fieldBucket i = Banners) images
  ∧ squares result = filter (λ i, fieldBucket i = Squares) images
  ∧ portraits result = filter (λ i, fieldBucket i = Portraits) images
  ∧ landscapes result = filter (λ i, fieldBucket i = Landscapes) images
  ∧ generic result = filter (λ i, fieldBucket i = Generic) images
  ∧ ∀ img,
      let name := toLowerCase (fieldName img) in
      let w := width (dimensions img) in
      let ht := height (dimensions img) in
      fieldBucket img
      = if includes name "thumb" then Thumbnails
        else if includes name "banner" || includes name "header" then Banners
        else if bool_decide (w = ht ∧ ht ≠ 0%N) then Squares
        else if bool_decide (w < ht)%N then Portraits
        else if bool_decide (2 * ht < w)%N then Banners
        else if bool_decide (ht < w)%N then Landscapes
        else Generic.
Proof.
  cbv zeta. unfold filterByFieldType.
  destruct (pushBucket_filter images
              {| thumbnails := []; banners := []; squares := []; portraits := [];
                 landscapes := []; generic := [] |}) as (H1 & H2 & H3 & H4 & H5 & H6).
  repeat (split; [done|]).
  intros img. unfold fieldBucket. cbv zeta.
  destruct (ratio_tests (width (dimensions img)) (height (dimensions img)))
    as (-> & -> & -> & ->).
  done.
Qed.

(** *** [getExtractionStats] *)

Lemma countAll_bump k m : countAll (bump k m) = S (countAll m).
Proof.
  induction m as [|[k' n] m IH]; simpl; [done|].
  destruct (bool_decide (k' = k)); simpl; [lia|]. rewrite IH. lia.
Qed.

Lemma duplicates_fold {A} (groups : list (jsstring * list A)) n :
  Forall (λ kv, kv.2 ≠ []) groups →
  fold_left
    (λ duplicateCount '(_, group),
       if bool_decide (1 < length group)
       then duplicateCount + (length group - 1) else duplicateCount)
    groups n + length groups
  = n + length (mjoin groups.*2).
Proof.
  intros Hne. revert n.
  match goal with |- context [fold_left ?F _ _] => set (step := F) end.
  induction Hne as [|[k xs] groups Hxs _ IH]; intros n; [simpl; lia|].
  cbn [fold_left]. rewrite fmap_cons. cbn [snd length].
  change (mjoin (?a :: ?l)) with (a ++ mjoin l).
  rewrite length_app. simpl in Hxs.
  destruct xs as [|x xs]; [done|]. unfold step at 2. simpl length.
  case_bool_decide.
  - specialize (IH (n + (S (length xs) - 1))). lia.
  - specialize (IH n). lia.
Qed.

(** For the result of an extraction, [getExtractionStats] counts as
    duplicates the occurrences beyond the first of each distinct URL,
    [totalFound - uniqueUrls] of them, and the counters of either
    distribution add up to [totalFound]. *)
Theorem extraction_stats_add_up fuel h data result :
  extractPicsumUrls fuel h data = Some result →
  let stats := getExtractionStats result in
  duplicateCount stats + uniqueUrls result = totalFound result
  ∧ countAll (dimensionDistribution stats) = totalFound result
  ∧ countAll (fieldTypeDistribution stats) = totalFound result.
Proof.
  unfold extractPicsumUrls. intros Hr.
  destruct (traverseObject fuel h data [] [] 0) as [imgs|]; [|done].
  injection Hr as <-. cbv zeta. unfold getExtractionStats. cbn [images duplicateGroups].
  destruct (pushTo_fold (λ img, normalizeUrl (url img)) imgs []) as (_ & Hne & _).
  specialize (Hne (Forall_nil_2 _)).
  destruct (pushTo_groups (λ img, normalizeUrl (url img)) imgs) as (_ & _ & Hlen).
  pose proof (duplicates_fold _ 0 Hne) as Hdup. rewrite Hlen in Hdup.
  assert (∀ d f,
    let st :=
      fold_left
        (λ '(dimensionDistribution, fieldTypeDistribution) img,
           (bump (dimensionKey (dimensions img)) dimensionDistribution,
            bump (getFieldType (fieldName img)) fieldTypeDistribution))
        imgs (d, f) in
    countAll st.1 = countAll d + length imgs ∧ countAll st.2 = countAll f + length imgs)
    as Hcount.
  { clear. induction imgs as [|img imgs IH]; intros d f; [simpl; lia|].
    cbn [fold_left]. destruct (IH (bump (dimensionKey (dimensions img)) d)
                                  (bump (getFieldType (fieldName img)) f)) as [-> ->].
    rewrite !countAll_bump. simpl. lia. }
  specialize (Hcount [] []). destruct (fold_left _ imgs ([], [])) as [d f].
  simpl in *. lia.
Qed.

End ExtractorGroups.

(** *** The walk of the extractor *)

Section Extraction.
Import ImageUrlExtractor.
Context `{Runtime}.
Variable h : heap.

(** A placeholder of the object at [l] that the extractor keeps: a string
    that [isPicsumUrl] accepts and that has dimensions. *)
Definition placeholder (l : nat) (key s : jsstring) : Prop :=
  ∃ fields, h !! l = Some (NObj fields) ∧ (key, VStr s) ∈ fields
            ∧ isPicsumUrl s = true ∧ is_Some (extractDimensions s).

Definition traverses (n : nat) : Prop :=
  ∀ v currentPath results itemIndex,
    document 0 n h v →
    ∃ found,
      traverseObject n h v currentPath results itemIndex = Some (results ++ found)
      ∧ Forall (extractedFrom h) found
      ∧ ∀ l key s, inside n h v l → placeholder l key s → reports found l key s.

Lemma reports_app_l found more l key s :
  reports found l key s → reports (found ++ more) l key s.
Proof.
  intros (img & Hin & Hfacts). exists img. split; [|done].
  apply elem_of_app. by left.
Qed.

Lemma reports_app_r found more l key s :
  reports more l key s → reports (found ++ more) l key s.
Proof.
  intros (img & Hin & Hfacts). exists img. split; [|done].
  apply elem_of_app. by right.
Qed.

Lemma traverseObject_items n currentPath items index results :
  traverses n →
  Forall (document 0 n h) items →
  ∃ index' found,
    forEachM
      (λ '(index, results) item,
         results ← traverseObject n h item (indexPath currentPath index) results index;
         Some (S index, results))
      items (index, results)
    = Some (index', results ++ found)
    ∧ Forall (extractedFrom h) found
    ∧ ∀ l key s, Exists (λ item, inside n h item l) items → placeholder l key s →
                 reports found l key s.
Proof.
  intros Htr. revert index results.
  induction items as [|item items IH]; intros index results Hdocs.
  - exists index, []. rewrite app_nil_r. split; [done|]. split; [done|].
    intros l key s Hex. by apply Exists_nil in Hex.
  - apply Forall_cons in Hdocs as [Hdoc Hdocs].
    destruct (Htr item (indexPath currentPath index) results index Hdoc)
      as (found1 & Ht & Hs1 & Hc1).
    cbn [forEachM]. rewrite Ht. simpl.
    destruct (IH (S index) (results ++ found1) Hdocs) as (index' & found2 & Hf & Hs2 & Hc2).
    exists index', (found1 ++ found2). rewrite Hf, <- app_assoc.
    split; [done|]. split; [by apply Forall_app|].
    intros l key s Hex Hp. apply Exists_cons in Hex as [Hin|Hex].
    + by apply reports_app_l, Hc1.
    + by apply reports_app_r, Hc2.
Qed.

Lemma traverseObject_fields n currentPath itemIndex l fields todo results :
  traverses n →
  h !! l = Some (NObj fields) →
  todo ⊆ fields →
  Forall (λ kv, document 0 n h kv.2) todo →
  ∃ found,
    forEachM
      (λ results '(key, value),
         let newPath := keyPath currentPath key in
         match value with
         | VStr s =>
             if isPicsumUrl s then
               match parseImageUrl s newPath key (VRef l) itemIndex with
               | Some imageInfo => Some (results ++ [imageInfo])
               | None => Some results
               end
             else Some results
         | VRef _ | VNull => traverseObject n h value newPath results itemIndex
         | _ => Some results
         end)
      todo results
    = Some (results ++ found)
    ∧ Forall (extractedFrom h) found
    ∧ (∀ key s, (key, VStr s) ∈ todo → isPicsumUrl s = true →
                is_Some (extractDimensions s) → reports found l key s)
    ∧ ∀ l' key s, Exists (λ kv, inside n h kv.2 l') todo → placeholder l' key s →
                  reports found l' key s.
Proof.
  intros Htr Hl. revert results.
  induction todo as [|[key value] todo IH]; intros results Hsub Hdocs.
  - exists []. rewrite app_nil_r. split; [done|]. split; [done|]. split.
    + intros k s Hin. by apply elem_of_nil in Hin.
    + intros l' k s Hex. by apply Exists_nil in Hex.
  - apply Forall_cons in Hdocs as [Hdoc Hdocs]. simpl in Hdoc.
    assert (Hsub' : todo ⊆ fields) by (intros kv Hkv; apply Hsub; by right).
    assert (Hin : (key, value) ∈ fields) by (apply Hsub; by left).
    assert (Hstep : ∃ found1,
      match value with
      | VStr s =>
          if isPicsumUrl s then
            match parseImageUrl s (keyPath currentPath key) key (VRef l) itemIndex with
            | Some imageInfo => Some (results ++ [imageInfo])
            | None => Some results
            end
          else Some results
      | VRef _ | VNull =>
          traverseObject n h value (keyPath currentPath key) results itemIndex
      | _ => Some results
      end = Some (results ++ found1)
      ∧ Forall (extractedFrom h) found1
      ∧ (∀ s, value = VStr s → isPicsumUrl s = true → is_Some (extractDimensions s) →
              reports found1 l key s)
      ∧ ∀ l' k s, inside n h value l' → placeholder l' k s → reports found1 l' k s).
    { destruct value as [| | |s|l0].
      - exists []. rewrite app_nil_r. split; [by destruct n|]. split; [done|].
        split; [done|]. intros l' k s Hins. by destruct n.
      - exists []. rewrite app_nil_r. split; [done|]. split; [done|].
        split; [done|]. intros l' k s Hins. by destruct n.
      - exists []. rewrite app_nil_r. split; [done|]. split; [done|].
        split; [done|]. intros l' k s Hins. by destruct n.
      - destruct (isPicsumUrl s) eqn:Hurl.
        + unfold parseImageUrl.
          destruct (extractDimensions s) as [d|] eqn:Hdims; simpl.
          * eexists [_]. split; [reflexivity|]. split.
            { constructor; [|done]. exists l, fields. simpl. done. }
            split.
            { intros s' [= <-] _ _. eexists. split; [by left|]. done. }
            intros l' k s' Hins. by destruct n.
          * exists []. rewrite app_nil_r. split; [done|]. split; [done|]. split.
            { intros s' [= <-] _ [d Hd]. congruence. }
            intros l' k s' Hins. by destruct n.
        + exists []. rewrite app_nil_r. split; [done|]. split; [done|]. split.
          { intros s' [= <-] Hs'. congruence. }
          intros l' k s' Hins. by destruct n.
      - destruct (Htr (VRef l0) (keyPath currentPath key) results itemIndex Hdoc)
          as (found1 & Ht & Hs1 & Hc1).
        exists found1. split; [done|]. split; [done|]. split; [done|]. done. }
    destruct Hstep as (found1 & Hstep & Hs1 & Hd1 & Hc1).
    cbn [forEachM]. cbv zeta. rewrite Hstep. cbv beta iota.
    destruct (IH (results ++ found1) Hsub' Hdocs) as (found2 & Hf & Hs2 & Hd2 & Hc2).
    exists (found1 ++ found2). rewrite <- app_assoc in Hf.
    split; [done|]. split; [by apply Forall_app|]. split.
    + intros k s Hk Hurl Hdims. apply elem_of_cons in Hk as [Hk|Hk].
      * injection Hk as -> <-. by apply reports_app_l, Hd1.
      * by apply reports_app_r, Hd2.
    + intros l' k s Hex Hp. apply Exists_cons in Hex as [Hins|Hex].
      * by apply reports_app_l, Hc1.
      * by apply reports_app_r, Hc2.
Qed.

Lemma traverseObject_spec n : traverses n.
Proof.
  assert (Hleaf : ∀ (results : list ImageUrlInfo) (P : nat → jsstring → jsstring → Prop),
            ∃ found, Some results = Some (results ++ found)
                     ∧ Forall (extractedFrom h) found
                     ∧ ∀ l key s, False → P l key s → reports found l key s).
  { intros results P. exists []. rewrite app_nil_r. split; [done|]. split; [done|].
    by intros l key s []. }
  induction n as [|n IH]; intros [| | | |l] currentPath results itemIndex; simpl;
    try (intros _; apply Hleaf); [done|].
  intros [_ Hnode].
  destruct (h !! l) as [[fields|items]|] eqn:Hl; [| |done].
  - destruct Hnode as [Hnd Hall].
    destruct (traverseObject_fields n currentPath itemIndex l fields fields results IH Hl)
      as (found & Hf & Hs & Hd & Hc); [done|done|].
    exists found. split; [done|]. split; [done|].
    intros l' key s [<-|Hex] Hp; [|by apply Hc].
    destruct Hp as (fields' & Hl' & Hin & Hurl & Hdims).
    rewrite Hl in Hl'. injection Hl' as <-. by apply Hd.
  - destruct (traverseObject_items n currentPath items 0 results IH Hnode)
      as (index' & found & Hf & Hs & Hc).
    rewrite Hf. simpl. exists found. split; [done|]. split; [done|].
    intros l' key s [<-|Hex] Hp; [|by apply Hc].
    destruct Hp as (fields' & Hl' & _). congruence.
Qed.

(** On a JSON document the extraction ends.  Every occurrence it returns
    records a string property of an object of the document that
    [isPicsumUrl] accepts, with the dimensions and seed read from the URL;
    and every such property with dimensions, of every object within the
    document, is among the occurrences. *)
Theorem extraction_sound_and_complete n data :
  document 0 n h data →
  ∃ result,
    extractPicsumUrls n h data = Some result
    ∧ totalFound result = length (images result)
    ∧ Forall (extractedFrom h) (images result)
    ∧ ∀ l key s, inside n h data l → placeholder l key s →
                 reports (images result) l key s.
Proof.
  intros Hdoc. unfold extractPicsumUrls.
  destruct (traverseObject_spec n data [] [] 0 Hdoc) as (found & Ht & Hs & Hc).
  rewrite Ht. simpl. eexists. split; [reflexivity|]. simpl. done.
Qed.

End Extraction.

(** *** The paths of the occurrences *)

Section Paths.
Import ImageUrlExtractor.
Context `{Runtime}.
Variable h : heap.

Lemma apart (stop : N → Prop) k1 k2 r1 r2 :
  Forall (λ c, ¬ stop c) k1 → Forall (λ c, ¬ stop c) k2 →
  opens stop r1 → opens stop r2 →
  k1 ++ r1 = k2 ++ r2 → k1 = k2.
Proof.
  intros H1. revert k2. induction H1 as [|c k1 Hc _ IH]; intros k2 H2 Hr1 Hr2 Heq.
  - destruct H2 as [|d k2 Hd _]; [done|].
    simpl in Heq. subst r1. simpl in Hr1. done.
  - destruct H2 as [|d k2 Hd H2].
    + simpl in Heq. subst r2. simpl in Hr2. done.
    + simpl in Heq. injection Heq as -> Heq. f_equal. by eapply IH.
Qed.

Lemma keyPath_eq currentPath key :
  keyPath currentPath key
  = (if truthy_str currentPath then currentPath ++ js "." else []) ++ key.
Proof. unfold keyPath. destruct (truthy_str currentPath); [by rewrite <- app_assoc|done]. Qed.

Lemma indexPath_eq currentPath index :
  indexPath currentPath index
  = (if truthy_str currentPath then currentPath else [])
      ++ js "[" ++ of_nat_str index ++ js "]".
Proof. unfold indexPath. by destruct (truthy_str currentPath). Qed.

Lemma under_keyPath_apart currentPath k1 k2 p :
  plainKey k1 → plainKey k2 →
  under (keyPath currentPath k1) p → under (keyPath currentPath k2) p → k1 = k2.
Proof.
  intros [_ H1] [_ H2] (r1 & -> & Hr1) (r2 & Heq & Hr2).
  rewrite !keyPath_eq, <- !app_assoc in Heq. apply app_inv_head in Heq.
  exact (apart separator k1 k2 r1 r2 H1 H2 Hr1 Hr2 Heq).
Qed.

Lemma under_indexPath_apart currentPath i j p :
  under (indexPath currentPath i) p → under (indexPath currentPath j) p → i = j.
Proof.
  intros (r1 & -> & Hr1) (r2 & Heq & Hr2).
  rewrite !indexPath_eq, <- !app_assoc in Heq. apply app_inv_head in Heq.
  change (js "[" ++ ?s) with (91%N :: s) in Heq. injection Heq as Heq.
  change (js "]" ++ ?s) with (93%N :: s) in Heq.
  apply (apart (λ c, c = 93%N)) in Heq.
  - rewrite !of_nat_str_of_N in Heq. apply of_N_str_inj in Heq. lia.
  - rewrite of_nat_str_of_N.
    eapply Forall_impl; [apply of_N_str_digits|]. intros c Hc ->. done.
  - rewrite of_nat_str_of_N.
    eapply Forall_impl; [apply of_N_str_digits|]. intros c Hc ->. done.
  - done.
  - done.
Qed.

Lemma under_keyPath_up currentPath key p :
  currentPath ≠ [] → under (keyPath currentPath key) p → under currentPath p.
Proof.
  intros Hne (r & -> & Hr). unfold keyPath.
  destruct currentPath as [|c cp]; [done|]. simpl truthy_str. cbv iota.
  exists (js "." ++ key ++ r). rewrite <- !app_assoc. split; [done|]. by left.
Qed.

Lemma under_indexPath_up currentPath index p :
  currentPath ≠ [] → under (indexPath currentPath index) p → under currentPath p.
Proof.
  intros Hne (r & -> & Hr). unfold indexPath.
  destruct currentPath as [|c cp]; [done|]. simpl truthy_str. cbv iota.
  exists (js "[" ++ of_nat_str index ++ js "]" ++ r). rewrite <- !app_assoc.
  split; [done|]. by right.
Qed.

Lemma keyPath_truthy currentPath key : key ≠ [] → keyPath currentPath key ≠ [].
Proof.
  intros Hkey. unfold keyPath. destruct currentPath as [|c cp]; [done|]. done.
Qed.

Lemma indexPath_truthy currentPath index : indexPath currentPath index ≠ [].
Proof. unfold indexPath. by destruct currentPath. Qed.

Lemma under_refl p : under p p.
Proof. exists []. by rewrite app_nil_r. Qed.

(** The walk from [currentPath] ends with occurrences of distinct paths,
    all of them under [currentPath] when that is not the root. *)
Definition distinctWalk (n : nat) : Prop :=
  ∀ v currentPath results itemIndex,
    document 0 n h v → plainKeys n h v →
    ∃ found,
      traverseObject n h v currentPath results itemIndex = Some (results ++ found)
      ∧ NoDup (path <$> found)
      ∧ (currentPath ≠ [] → Forall (λ i, under currentPath (path i)) found).

Lemma walk_items n currentPath items index results :
  distinctWalk n →
  Forall (document 0 n h) items →
  Forall (plainKeys n h) items →
  ∃ index' found,
    forEachM
      (λ '(index, results) item,
         results ← traverseObject n h item (indexPath currentPath index) results index;
         Some (S index, results))
      items (index, results)
    = Some (index', results ++ found)
    ∧ NoDup (path <$> found)
    ∧ Forall (λ i, ∃ j, index ≤ j ∧ under (indexPath currentPath j) (path i)) found.
Proof.
  intros Hw. revert index results.
  induction items as [|item items IH]; intros index results Hdocs Hkeys.
  - exists index, []. rewrite app_nil_r. split; [done|]. split; [constructor|done].
  - apply Forall_cons in Hdocs as [Hdoc Hdocs]. apply Forall_cons in Hkeys as [Hkey Hkeys].
    destruct (Hw item (indexPath currentPath index) results index Hdoc Hkey)
      as (found1 & Ht & Hnd1 & Hu1).
    specialize (Hu1 (indexPath_truthy _ _)).
    cbn [forEachM]. rewrite Ht. simpl.
    destruct (IH (S index) (results ++ found1) Hdocs Hkeys)
      as (index' & found2 & Hf & Hnd2 & Hu2).
    exists index', (found1 ++ found2). rewrite Hf, <- app_assoc.
    split; [done|]. split.
    + rewrite fmap_app. apply NoDup_app. split; [done|]. split; [|done].
      intros p Hp1 Hp2.
      apply list_elem_of_fmap in Hp1 as (i1 & -> & Hi1).
      apply list_elem_of_fmap in Hp2 as (i2 & Heq & Hi2).
      apply (proj1 (Forall_forall _ _) Hu1) in Hi1.
      apply (proj1 (Forall_forall _ _) Hu2) in Hi2 as (j & Hj & Hi2).
      rewrite <- Heq in Hi2.
      pose proof (under_indexPath_apart _ _ _ _ Hi1 Hi2). lia.
    + apply Forall_app. split.
      * eapply Forall_impl; [exact Hu1|]. intros i Hi. exists index. split; [lia|done].
      * eapply Forall_impl; [exact Hu2|]. intros i (j & Hj & Hi). exists j. split; [lia|done].
Qed.

Lemma walk_fields n currentPath itemIndex l todo results :
  distinctWalk n →
  NoDup todo.*1 →
  Forall (λ kv, document 0 n h kv.2) todo →
  Forall (λ kv, plainKey kv.1 ∧ plainKeys n h kv.2) todo →
  ∃ found,
    forEachM
      (λ results '(key, value),
         let newPath := keyPath currentPath key in
         match value with
         | VStr s =>
             if isPicsumUrl s then
               match parseImageUrl s newPath key (VRef l) itemIndex with
               | Some imageInfo => Some (results ++ [imageInfo])
               | None => Some results
               end
             else Some results
         | VRef _ | VNull => traverseObject n h value newPath results itemIndex
         | _ => Some results
         end)
      todo results
    = Some (results ++ found)
    ∧ NoDup (path <$> found)
    ∧ Forall (λ i, ∃ key, key ∈ todo.*1 ∧ plainKey key
                          ∧ under (keyPath currentPath key) (path i)) found.
Proof.
  intros Hw. revert results.
  induction todo as [|[key value] todo IH]; intros results Hnd Hdocs Hkeys.
  - exists []. rewrite app_nil_r. split; [done|]. split; [constructor|done].
  - apply Forall_cons in Hdocs as [Hdoc Hdocs]. simpl in Hdoc.
    apply Forall_cons in Hkeys as [[Hplain Hkey] Hkeys]. simpl in Hplain, Hkey.
    rewrite fmap_cons in Hnd. apply NoDup_cons in Hnd as [Hfresh Hnd]. simpl in Hfresh.
    assert (Hstep : ∃ found1,
      match value with
      | VStr s =>
          if isPicsumUrl s then
            match parseImageUrl s (keyPath currentPath key) key (VRef l) itemIndex with
            | Some imageInfo => Some (results ++ [imageInfo])
            | None => Some results
            end
          else Some results
      | VRef _ | VNull =>
          traverseObject n h value (keyPath currentPath key) results itemIndex
      | _ => Some results
      end = Some (results ++ found1)
      ∧ NoDup (path <$> found1)
      ∧ Forall (λ i, under (keyPath currentPath key) (path i)) found1).
    { destruct value as [| | |s|l0].
      - exists []. rewrite app_nil_r. split; [by destruct n|]. split; [constructor|done].
      - exists []. rewrite app_nil_r. split; [done|]. split; [constructor|done].
      - exists []. rewrite app_nil_r. split; [done|]. split; [constructor|done].
      - destruct (isPicsumUrl s) eqn:Hurl.
        + unfold parseImageUrl.
          destruct (extractDimensions s) as [d|] eqn:Hdims; simpl.
          * eexists [_]. split; [reflexivity|]. split.
            { apply NoDup_singleton. }
            constructor; [|done]. simpl. apply under_refl.
          * exists []. rewrite app_nil_r. split; [done|]. split; [constructor|done].
        + exists []. rewrite app_nil_r. split; [done|]. split; [constructor|done].
      - destruct (Hw (VRef l0) (keyPath currentPath key) results itemIndex Hdoc Hkey)
          as (found1 & Ht & Hnd1 & Hu1).
        exists found1. split; [done|]. split; [done|].
        apply Hu1, keyPath_truthy, Hplain. }
    destruct Hstep as (found1 & Hstep & Hnd1 & Hu1).
    cbn [forEachM]. cbv zeta. rewrite Hstep. cbv beta iota.
    destruct (IH (results ++ found1) Hnd Hdocs Hkeys) as (found2 & Hf & Hnd2 & Hu2).
    exists (found1 ++ found2). rewrite <- app_assoc in Hf.
    split; [done|]. split.
    + rewrite fmap_app. apply NoDup_app. split; [done|]. split; [|done].
      intros p Hp1 Hp2.
      apply list_elem_of_fmap in Hp1 as (i1 & -> & Hi1).
      apply list_elem_of_fmap in Hp2 as (i2 & Heq & Hi2).
      apply (proj1 (Forall_forall _ _) Hu1) in Hi1.
      apply (proj1 (Forall_forall _ _) Hu2) in Hi2 as (key' & Hin & Hplain' & Hi2).
      rewrite <- Heq in Hi2.
      pose proof (under_keyPath_apart _ _ _ _ Hplain Hplain' Hi1 Hi2) as <-. done.
    + apply Forall_app. split.
      * eapply Forall_impl; [exact Hu1|]. intros i Hi. exists key.
        split; [by left|]. done.
      * eapply Forall_impl; [exact Hu2|]. intros i (key' & Hin & Hplain' & Hi).
        exists key'. split; [by right|]. done.
Qed.

Lemma walk_spec n : distinctWalk n.
Proof.
  assert (Hleaf : ∀ (results : list ImageUrlInfo) (currentPath : jsstring),
            ∃ found, Some results = Some (results ++ found)
                     ∧ NoDup (path <$> found)
                     ∧ (currentPath ≠ [] →
                        Forall (λ i, under currentPath (path i)) found)).
  { intros results currentPath. exists []. rewrite app_nil_r.
    split; [done|]. split; [constructor|done]. }
  induction n as [|n IH]; intros [| | | |l] currentPath results itemIndex; simpl;
    try (intros _ _; apply Hleaf); [done|].
  intros [_ Hnode] Hkeys.
  destruct (h !! l) as [[fields|items]|] eqn:Hl; [| |done].
  - destruct Hnode as [Hnd Hall].
    destruct (walk_fields n currentPath itemIndex l fields results IH Hnd Hall Hkeys)
      as (found & Hf & Hnd' & Hu).
    exists found. split; [done|]. split; [done|].
    intros Hne. eapply Forall_impl; [exact Hu|].
    intros i (key & _ & _ & Hi). by eapply under_keyPath_up.
  - destruct (walk_items n currentPath items 0 results IH Hnode Hkeys)
      as (index' & found & Hf & Hnd' & Hu).
    rewrite Hf. simpl. exists found. split; [done|]. split; [done|].
    intros Hne. eapply Forall_impl; [exact Hu|].
    intros i (j & _ & Hi). by eapply under_indexPath_up.
Qed.

(** On a JSON document whose keys are not empty and hold neither [.] nor
    [[], the extraction ends with occurrences of pairwise distinct paths;
    the plan made from them and their descriptions then has one [imageId]
    for each occurrence, and counts as many images as were found. *)
Theorem plain_keys_give_distinct_paths n data
    (options : DescriptionGenerator.DescriptionOptions) :
  document 0 n h data →
  plainKeys n h data →
  ∃ result plan,
    extractPicsumUrls n h data = Some result
    ∧ NoDup (path <$> images result)
    ∧ ImageProcessingAnalyzer.createProcessingPlan h (images result)
        (DescriptionGenerator.generateDescriptions h (images result) options)
      = Some plan
    ∧ ImageProcessingAnalyzer.planIds (groups plan) ≡ₚ path <$> images result
    ∧ totalImages plan = totalFound result.
Proof.
  intros Hdoc Hkeys. unfold extractPicsumUrls.
  destruct (walk_spec n data [] [] 0 Hdoc Hkeys) as (found & Ht & Hnd & _).
  rewrite Ht. simpl.
  set (descriptions := DescriptionGenerator.generateDescriptions h found options).
  destruct (planIds_spec h found descriptions) as (plan & Hp & Hc & Hids).
  assert (mjoin (ImageProcessingAnalyzer.groupBySimilarity h found descriptions)
          ≡ₚ found) as Hperm.
  { apply groups_hold_every_occurrence; [|done].
    intros i Hi. by apply generateDescriptions_covers. }
  eexists _, plan. split; [reflexivity|]. simpl.
  split; [done|]. split; [done|].
  split; [by rewrite Hids, Hperm|].
  rewrite Hc at 1. rewrite totalImages_planIds, Hids, Hperm. by rewrite length_fmap.
Qed.

End Paths.

(** *** Placeholder URLs *)

Section Searching.

Lemma search_here {A} (m : jsstring → option A) s r : m s = Some r → search m s = Some r.
Proof. intros Hm. destruct s; simpl; by rewrite Hm. Qed.

Lemma search_next {A} (m : jsstring → option A) c s :
  m (c :: s) = None → search m (c :: s) = search m s.
Proof. intros Hm. simpl. by rewrite Hm. Qed.

Lemma search_none {A} (m : jsstring → option A) s :
  (∀ t, t `suffix_of` s → m t = None) → search m s = None.
Proof.
  induction s as [|c s IH]; intros Hm; simpl.
  - by rewrite Hm.
  - rewrite Hm by done. apply IH. intros t Ht. apply Hm. by apply suffix_cons_r.
Qed.

Lemma strip_prefix_elem p s r c : strip_prefix p s = Some r → c ∈ p → c ∈ s.
Proof.
  revert s. induction p as [|a p IH]; intros [|b s] Hs Hc; simpl in *; try done;
    try (by apply elem_of_nil in Hc).
  destruct (a =? b)%N eqn:Hab; [|done]. apply N.eqb_eq in Hab. subst b.
  apply elem_of_cons in Hc as [->|Hc]; [by left|]. right. by eapply IH.
Qed.

(** A pattern that starts with a literal holding [c] matches nowhere in a
    string without [c]. *)
Lemma search_literal_absent {A} (p : string) (k : jsstring → option A) c s :
  c ∈ js p → c ∉ s → search (λ s, s ← lit p s; k s) s = None.
Proof.
  intros Hc Hs. apply search_none. intros t Ht.
  destruct (lit p t) as [r|] eqn:Hlit; [|done].
  exfalso. apply Hs. destruct Ht as [pre ->]. apply elem_of_app. right.
  by eapply strip_prefix_elem.
Qed.

Lemma digit_not c d : is_digit c = true → (d <? 48)%N || (57 <? d)%N = true → (d =? c)%N = false.
Proof.
  unfold is_digit, in_range. intros Hc Hd.
  apply andb_true_iff in Hc as [H1 H2]. apply N.leb_le in H1, H2.
  apply N.eqb_neq. apply orb_true_iff in Hd as [Hd|Hd]; apply N.ltb_lt in Hd; lia.
Qed.

Lemma digits_without c ds :
  Forall (λ x, is_digit x = true) ds → (c <? 48)%N || (57 <? c)%N = true → c ∉ ds.
Proof.
  intros Hds Hc Hin. apply (proj1 (Forall_forall _ _) Hds) in Hin.
  pose proof (digit_not c c Hin Hc) as Hne. by rewrite N.eqb_refl in Hne.
Qed.

End Searching.

Section Urls.
Context `{Runtime}.

(** The three shapes of placeholder URL that the comments of
    [extractDimensions] name. *)
Definition sizedUrl (w ht : N) : jsstring :=
  js "https://picsum.photos/" ++ of_N_str w ++ js "/" ++ of_N_str ht.

Definition squareUrl (size : N) : jsstring :=
  js "https://picsum.photos/" ++ of_N_str size.

Definition seededUrl (seed : jsstring) (w ht : N) : jsstring :=
  js "https://picsum.photos/seed/" ++ seed ++ js "/" ++ of_N_str w ++ js "/" ++ of_N_str ht.

Lemma widthHeight_numerals w ht rest :
  match rest with [] => True | c :: _ => is_digit c = false end →
  ImageUrlExtractor.widthHeight (of_N_str w ++ js "/" ++ of_N_str ht ++ rest)
  = Some {| width := w; height := ht |}.
Proof.
  intros Hrest. unfold ImageUrlExtractor.widthHeight, ImageUrlExtractor.digits.
  destruct (of_N_str_digits w) as [Hw Hwne]. destruct (of_N_str_digits ht) as [Hh Hhne].
  change (js "/" ++ ?s) with (47%N :: s).
  rewrite run1_app by done. simpl. 
  destruct rest as [|c rest].
  - rewrite app_nil_r, run1_all by done. simpl. by rewrite !parseInt_of_N_str.
  - rewrite run1_app by done. simpl. by rewrite !parseInt_of_N_str.
Qed.


Lemma search_host {A} (m : jsstring → option A) tail :
  search (λ s, s ← lit "picsum.photos/" s; m s) (js "https://picsum.photos/" ++ tail)
  = match m tail with
    | Some r => Some r
    | None => search (λ s, s ← lit "picsum.photos/" s; m s) tail
    end.
Proof. simpl. by destruct (m tail). Qed.

Lemma search_host_seed {A} (m : jsstring → option A) tail :
  search (λ s, s ← lit "picsum.photos/seed/" s; m s) (js "https://picsum.photos/" ++ tail)
  = match lit "seed/" tail ≫= m with
    | Some r => Some r
    | None => search (λ s, s ← lit "picsum.photos/seed/" s; m s) tail
    end.
Proof.
  simpl.
  destruct tail as [|c1 [|c2 [|c3 [|c4 [|c5 tail]]]]]; simpl; try done;
    repeat (match goal with |- context [(?a =? ?b)%N] => destruct (a =? b)%N end;
            simpl; try done).
Qed.


Lemma lit_mismatch (p : string) d p' c s :
  js p = d :: p' → (d =? c)%N = false → lit p (c :: s) = None.
Proof. intros Hp Hd. unfold lit. rewrite Hp. cbn [strip_prefix]. by rewrite Hd. Qed.

Lemma lit_digits (p : string) d p' ds rest :
  js p = d :: p' → (d <? 48)%N || (57 <? d)%N = true →
  Forall (λ x, is_digit x = true) ds → ds ≠ [] →
  lit p (ds ++ rest) = None.
Proof.
  intros Hp Hd Hds Hne. destruct ds as [|c ds]; [done|].
  apply Forall_cons in Hds as [Hc _]. simpl.
  eapply lit_mismatch; [done|]. by apply digit_not.
Qed.

Lemma search_host_seed_digits {A} (m : jsstring → option A) ds rest :
  Forall (λ x, is_digit x = true) ds → ds ≠ [] →
  search (λ s, s ← lit "picsum.photos/seed/" s; m s)
         (js "https://picsum.photos/" ++ ds ++ rest)
  = search (λ s, s ← lit "picsum.photos/seed/" s; m s) (ds ++ rest).
Proof.
  intros Hds Hne. rewrite search_host_seed.
  by rewrite (lit_digits "seed/" 115%N (js "eed/")).
Qed.

(** Both services on a URL of a width and a height. *)
Lemma sized_url_extractor w ht :
  ImageUrlExtractor.isPicsumUrl (sizedUrl w ht) = true
  ∧ ImageUrlExtractor.extractDimensions (sizedUrl w ht)
    = Some {| width := w; height := ht |}
  ∧ ImageUrlExtractor.extractSeed (sizedUrl w ht) = None.
Proof.
  destruct (of_N_str_digits w) as [Hw Hwne]. destruct (of_N_str_digits ht) as [Hh Hhne].
  pose proof (widthHeight_numerals w ht [] I) as Hwh. rewrite app_nil_r in Hwh.
  unfold sizedUrl. split; [|split].
  - unfold ImageUrlExtractor.isPicsumUrl. apply existsb_exists.
    eexists. split; [by left|].
    erewrite search_here; [done|].
    change (js "https://picsum.photos/" ++ ?t) with
      (js "https://picsum.photos/" ++ t).
    assert (∀ t, ImageUrlExtractor.host_ci (js "https://picsum.photos/" ++ t) = Some t)
      as -> by done.
    simpl. unfold ImageUrlExtractor.digits.
    change (js "/" ++ ?s) with (47%N :: s).
    rewrite run1_app by done. simpl. rewrite run1_all by done. done.
  - unfold ImageUrlExtractor.extractDimensions.
    rewrite (search_host ImageUrlExtractor.widthHeight), Hwh. done.
  - unfold ImageUrlExtractor.extractSeed.
    rewrite (search_host_seed (λ s, fst <$> run1 ImageUrlExtractor.not_slash_or_query s)).
    assert (lit "seed/" (of_N_str w ++ js "/" ++ of_N_str ht) = None) as ->.
    { by eapply (lit_digits "seed/"). }
    simpl. apply (search_literal_absent "picsum.photos/seed/" _ 46%N).
    + by apply (bool_decide_unpack _).
    + intros Hin. apply elem_of_app in Hin as [Hin|Hin].
      { by apply (digits_without 46 _ Hw). }
      apply elem_of_cons in Hin as [Hin|Hin]; [done|].
      by apply (digits_without 46 _ Hh).
Qed.


Lemma dot_absent_numerals w ht : 46%N ∉ of_N_str w ++ js "/" ++ of_N_str ht.
Proof.
  destruct (of_N_str_digits w) as [Hw _]. destruct (of_N_str_digits ht) as [Hh _].
  intros Hin. apply elem_of_app in Hin as [Hin|Hin].
  { by apply (digits_without 46 _ Hw). }
  apply elem_of_cons in Hin as [Hin|Hin]; [done|].
  by apply (digits_without 46 _ Hh).
Qed.

Lemma optionalSeed_digits {A} (k : jsstring → option A) ds rest :
  Forall (λ x, is_digit x = true) ds → ds ≠ [] →
  UrlReplacer.optionalSeed k (ds ++ rest) = k (ds ++ rest).
Proof.
  intros Hds Hne. unfold UrlReplacer.optionalSeed.
  by rewrite (lit_digits "seed/" 115%N (js "eed/")).
Qed.

Lemma sized_url_replacer w ht :
  UrlReplacer.isPicsumUrl (sizedUrl w ht) = true
  ∧ UrlReplacer.extractDimensions (sizedUrl w ht) = Some {| width := w; height := ht |}
  ∧ UrlReplacer.extractSeed (sizedUrl w ht) = None.
Proof.
  destruct (of_N_str_digits w) as [Hw Hwne]. destruct (of_N_str_digits ht) as [Hh Hhne].
  split; [done|]. split; [|apply sized_url_extractor].
  unfold UrlReplacer.extractDimensions, sizedUrl.
  rewrite search_host, optionalSeed_digits by done.
  change (js "/" ++ ?s) with (47%N :: s).
  rewrite run1_app by done. simpl. rewrite run1_all by done. simpl.
  by rewrite !parseInt_of_N_str.
Qed.

(** Both services on a URL of one size. *)
Lemma square_url_extractor size :
  ImageUrlExtractor.isPicsumUrl (squareUrl size) = true
  ∧ ImageUrlExtractor.extractDimensions (squareUrl size)
    = Some {| width := size; height := size |}
  ∧ ImageUrlExtractor.extractSeed (squareUrl size) = None.
Proof.
  destruct (of_N_str_digits size) as [Hs Hsne].
  assert (46%N ∉ of_N_str size) as Hdot by (by apply digits_without).
  unfold squareUrl. split; [|split].
  - unfold ImageUrlExtractor.isPicsumUrl. apply existsb_exists.
    eexists. split; [right; by left|].
    erewrite search_here; [done|].
    assert (∀ t, ImageUrlExtractor.host_ci (js "https://picsum.photos/" ++ t) = Some t)
      as -> by done.
    simpl. unfold ImageUrlExtractor.digits. by rewrite run1_all.
  - unfold ImageUrlExtractor.extractDimensions.
    rewrite (search_host ImageUrlExtractor.widthHeight).
    assert (ImageUrlExtractor.widthHeight (of_N_str size) = None) as ->.
    { unfold ImageUrlExtractor.widthHeight, ImageUrlExtractor.digits.
      by rewrite run1_all. }
    rewrite (search_literal_absent "picsum.photos/" _ 46%N)
      by (done || by apply (bool_decide_unpack _)).
    rewrite <- (app_nil_r (of_N_str size)) at 1.
    rewrite search_host_seed_digits by done. rewrite app_nil_r.
    rewrite (search_literal_absent "picsum.photos/seed/" _ 46%N)
      by (done || by apply (bool_decide_unpack _)).
    rewrite search_host. unfold ImageUrlExtractor.digits.
    rewrite run1_all by done. cbn [mbind option_bind]. by rewrite parseInt_of_N_str.
  - unfold ImageUrlExtractor.extractSeed.
    rewrite <- (app_nil_r (of_N_str size)).
    rewrite search_host_seed_digits by done. rewrite app_nil_r.
    apply (search_literal_absent "picsum.photos/seed/" _ 46%N);
      [by apply (bool_decide_unpack _)|done].
Qed.

Lemma square_url_replacer size :
  UrlReplacer.isPicsumUrl (squareUrl size) = true
  ∧ UrlReplacer.extractDimensions (squareUrl size)
    = Some {| width := size; height := size |}
  ∧ UrlReplacer.extractSeed (squareUrl size) = None.
Proof.
  destruct (of_N_str_digits size) as [Hs Hsne].
  assert (46%N ∉ of_N_str size) as Hdot by (by apply digits_without).
  split; [done|]. split; [|apply square_url_extractor].
  unfold UrlReplacer.extractDimensions, squareUrl.
  rewrite search_host.
  rewrite <- (app_nil_r (of_N_str size)) at 1.
  rewrite optionalSeed_digits by done. rewrite app_nil_r.
  rewrite run1_all by done. cbn [mbind option_bind].
  change (lit "/" []) with (@None jsstring). cbn [mbind option_bind].
  rewrite (search_literal_absent "picsum.photos/" _ 46%N)
    by (done || by apply (bool_decide_unpack _)).
  rewrite search_host.
  rewrite <- (app_nil_r (of_N_str size)) at 1.
  rewrite optionalSeed_digits by done. rewrite app_nil_r.
  rewrite run1_all by done. cbn [mbind option_bind]. by rewrite parseInt_of_N_str.
Qed.

Lemma js_slash s : js "/" ++ s = 47%N :: s.
Proof. done. Qed.

(** Both services on a URL with a seed of letters, digits and underscores. *)
Lemma word_units seed :
  Forall (λ c, is_word c = true) seed →
  Forall (λ c, ImageUrlExtractor.not_slash c = true) seed
  ∧ Forall (λ c, ImageUrlExtractor.not_slash_or_query c = true) seed
  ∧ 46%N ∉ seed.
Proof.
  intros Hseed.
  assert (∀ c, is_word c = true → c ≠ 46%N ∧ c ≠ 47%N ∧ c ≠ 63%N) as Hword.
  { intros c Hc. repeat split; intros ->; done. }
  split; [|split].
  - eapply Forall_impl; [exact Hseed|]. intros c Hc. apply Hword in Hc as (_ & Hc & _).
    unfold ImageUrlExtractor.not_slash. by apply negb_true_iff, N.eqb_neq.
  - eapply Forall_impl; [exact Hseed|]. intros c Hc. apply Hword in Hc as (_ & H1 & H2).
    unfold ImageUrlExtractor.not_slash_or_query.
    apply andb_true_iff. split; by apply negb_true_iff, N.eqb_neq.
  - intros Hin. apply (proj1 (Forall_forall _ _) Hseed) in Hin. done.
Qed.

Lemma seeded_url_extractor seed w ht :
  Forall (λ c, is_word c = true) seed → seed ≠ [] →
  ImageUrlExtractor.isPicsumUrl (seededUrl seed w ht) = true
  ∧ ImageUrlExtractor.extractDimensions (seededUrl seed w ht)
    = Some {| width := w; height := ht |}
  ∧ ImageUrlExtractor.extractSeed (seededUrl seed w ht) = Some seed.
Proof.
  intros Hseed Hne. destruct (word_units seed Hseed) as (Hslash & Hquery & Hdot).
  destruct (of_N_str_digits w) as [Hw Hwne]. destruct (of_N_str_digits ht) as [Hh Hhne].
  pose proof (widthHeight_numerals w ht [] I) as Hwh. rewrite app_nil_r in Hwh.
  unfold seededUrl.
  change (js "https://picsum.photos/seed/" ++ ?t)
    with (js "https://picsum.photos/" ++ js "seed/" ++ t).
  rewrite !js_slash.
  split; [|split].
  - unfold ImageUrlExtractor.isPicsumUrl. apply existsb_exists.
    eexists. split; [right; right; by left|].
    erewrite search_here; [done|].
    assert (∀ t, ImageUrlExtractor.host_ci (js "https://picsum.photos/" ++ t) = Some t)
      as -> by done.
    cbn [mbind option_bind].
    assert (∀ t, lit_ci "seed/" (js "seed/" ++ t) = Some t) as -> by done.
    cbn [mbind option_bind]. rewrite run1_app by done. cbn [mbind option_bind].
    assert (∀ t, lit "/" (47%N :: t) = Some t) as Hlit by done.
    rewrite Hlit. cbn [mbind option_bind]. unfold ImageUrlExtractor.digits.
    rewrite run1_app by done. cbn [mbind option_bind]. rewrite Hlit.
    cbn [mbind option_bind]. by rewrite run1_all.
  - unfold ImageUrlExtractor.extractDimensions.
    rewrite (search_host ImageUrlExtractor.widthHeight).
    assert (∀ t, ImageUrlExtractor.widthHeight (js "seed/" ++ t) = None) as -> by done.
    rewrite (search_literal_absent "picsum.photos/" _ 46%N);
      [|by apply (bool_decide_unpack _)|].
    + rewrite search_host_seed.
      assert (∀ t, lit "seed/" (js "seed/" ++ t) = Some t) as -> by done.
      cbn [mbind option_bind]. rewrite run1_app by done. cbn [mbind option_bind].
      assert (∀ t, lit "/" (47%N :: t) = Some t) as -> by done.
      cbn [mbind option_bind].
      change (47%N :: of_N_str ht) with (js "/" ++ of_N_str ht). by rewrite Hwh.
    + intros Hin. apply elem_of_app in Hin as [Hin|Hin]; [revert Hin; by apply (bool_decide_unpack _)|].
      apply elem_of_app in Hin as [Hin|Hin]; [done|].
      apply elem_of_cons in Hin as [Hin|Hin]; [done|].
      by apply (dot_absent_numerals w ht).
  - unfold ImageUrlExtractor.extractSeed. rewrite search_host_seed.
    assert (∀ t, lit "seed/" (js "seed/" ++ t) = Some t) as -> by done.
    cbn [mbind option_bind]. by rewrite run1_app.
Qed.

Lemma seeded_url_replacer seed w ht :
  Forall (λ c, is_word c = true) seed → seed ≠ [] →
  UrlReplacer.isPicsumUrl (seededUrl seed w ht) = true
  ∧ UrlReplacer.extractDimensions (seededUrl seed w ht)
    = Some {| width := w; height := ht |}
  ∧ UrlReplacer.extractSeed (seededUrl seed w ht) = Some seed.
Proof.
  intros Hseed Hne. destruct (word_units seed Hseed) as (Hslash & Hquery & Hdot).
  destruct (of_N_str_digits w) as [Hw Hwne]. destruct (of_N_str_digits ht) as [Hh Hhne].
  split; [done|]. split; [|by apply seeded_url_extractor].
  unfold UrlReplacer.extractDimensions, seededUrl.
  change (js "https://picsum.photos/seed/" ++ ?t)
    with (js "https://picsum.photos/" ++ js "seed/" ++ t).
  rewrite !js_slash.
  rewrite search_host. unfold UrlReplacer.optionalSeed at 1.
  assert (∀ t, lit "seed/" (js "seed/" ++ t) = Some t) as -> by done.
  cbn [mbind option_bind].
  change UrlReplacer.not_slash with ImageUrlExtractor.not_slash.
  rewrite run1_app by done. cbn [mbind option_bind].
  assert (∀ t, lit "/" (47%N :: t) = Some t) as Hlit by done.
  rewrite Hlit. cbn [mbind option_bind].
  rewrite run1_app by done. cbn [mbind option_bind]. rewrite Hlit.
  cbn [mbind option_bind]. rewrite run1_all by done. cbn [mbind option_bind].
  by rewrite !parseInt_of_N_str.
Qed.

(** Both services read back a placeholder URL written from its
    dimensions, whole numbers that binary64 holds exactly: a URL of a width
    and a height, or of one size for a square, is recognised, gives these
    dimensions, and has no seed. *)
Theorem placeholder_urls_read_back w ht size :
  safeInteger w → safeInteger ht → safeInteger size →
  (ImageUrlExtractor.isPicsumUrl (sizedUrl w ht) = true
   ∧ ImageUrlExtractor.extractDimensions (sizedUrl w ht)
     = Some {| width := w; height := ht |}
   ∧ ImageUrlExtractor.extractSeed (sizedUrl w ht) = None)
  ∧ (UrlReplacer.isPicsumUrl (sizedUrl w ht) = true
     ∧ UrlReplacer.extractDimensions (sizedUrl w ht)
       = Some {| width := w; height := ht |}
     ∧ UrlReplacer.extractSeed (sizedUrl w ht) = None)
  ∧ (ImageUrlExtractor.isPicsumUrl (squareUrl size) = true
     ∧ ImageUrlExtractor.extractDimensions (squareUrl size)
       = Some {| width := size; height := size |}
     ∧ ImageUrlExtractor.extractSeed (squareUrl size) = None)
  ∧ (UrlReplacer.isPicsumUrl (squareUrl size) = true
     ∧ UrlReplacer.extractDimensions (squareUrl size)
       = Some {| width := size; height := size |}
     ∧ UrlReplacer.extractSeed (squareUrl size) = None).
Proof.
  intros _ _ _.
  split; [apply sized_url_extractor|]. split; [apply sized_url_replacer|].
  split; [apply square_url_extractor|apply square_url_replacer].
Qed.

(** Both services read back a seeded placeholder URL: with a seed of
    letters, digits and underscores that is not empty, and dimensions that
    binary64 holds exactly, the URL is recognised and gives the seed and the
    dimensions it was written from. *)
Theorem seeded_urls_read_back seed w ht :
  Forall (λ c, is_word c = true) seed → seed ≠ [] →
  safeInteger w → safeInteger ht →
  (ImageUrlExtractor.isPicsumUrl (seededUrl seed w ht) = true
   ∧ ImageUrlExtractor.extractDimensions (seededUrl seed w ht)
     = Some {| width := w; height := ht |}
   ∧ ImageUrlExtractor.extractSeed (seededUrl seed w ht) = Some seed)
  ∧ (UrlReplacer.isPicsumUrl (seededUrl seed w ht) = true
     ∧ UrlReplacer.extractDimensions (seededUrl seed w ht)
       = Some {| width := w; height := ht |}
     ∧ UrlReplacer.extractSeed (seededUrl seed w ht) = Some seed).
Proof.
  intros Hseed Hne _ _.
  split; [by apply seeded_url_extractor|by apply seeded_url_replacer].
Qed.

End Urls.

(** ** More of the description generator *)

Section DescriptionFacts.
Import DescriptionGenerator.
Context `{Runtime}.
Variable h : heap.

(** *** Confidence *)

Lemma analyzeFieldName_confidence fieldName :
  (1 # 10 <= (analyzeFieldName fieldName).2)%Q.
Proof.
  unfold analyzeFieldName. cbv zeta.
  assert (∀ (mapping : list (string * string)) (keywords : list jsstring) (confidence : Q),
    (1 # 10 <= confidence)%Q →
    (1 # 10 <=
       (fold_left
          (λ '(keywords, confidence) '(key, _),
             if includes (toLowerCase fieldName) key
             then (keywords ++ [js key], (confidence + (2 # 10))%Q)
             else (keywords, confidence))
          mapping (keywords, confidence)).2)%Q) as Hfold.
  { induction mapping as [|[key value] mapping IH]; intros keywords confidence Hc; [done|].
    cbn [fold_left]. destruct (includes _ key); apply IH; lra. }
  specialize (Hfold FIELD_TYPE_MAPPING [] (1 # 10)%Q ltac:(lra)).
  destruct (fold_left _ FIELD_TYPE_MAPPING _) as [keywords confidence].
  simpl in Hfold.
  destruct (includes _ "thumb"); destruct (includes _ "_1x1" || includes _ "square");
    destruct (includes _ "banner" || includes _ "header"); simpl; lra.
Qed.

Lemma analyzeContextData_confidence context :
  (2 # 10 <= ctx_confidence (analyzeContextData h context) <= 5 # 10)%Q.
Proof.
  unfold analyzeContextData. cbv zeta.
  assert (∀ (fields : list string) (description : jsstring) (keywords : list jsstring)
            (confidence : Q),
    (2 # 10 <= confidence)%Q →
    (2 # 10 <=
       (fold_left
          (λ '(description, keywords, confidence) field,
             match js_get h context field with
             | Some (VStr s) =>
                 if truthy_str s then
                   let value := toLowerCase s in
                   (description ++ js " " ++ value,
                    keywords ++ extractKeywords value,
                    (confidence + (1 # 10))%Q)
                 else (description, keywords, confidence)
             | _ => (description, keywords, confidence)
             end)
          fields (description, keywords, confidence)).2)%Q) as Hfold.
  { induction fields as [|field fields IH]; intros description keywords confidence Hc;
      [done|].
    cbn [fold_left]. destruct (js_get h context field) as [[| | |s|]|]; try by apply IH.
    destruct (truthy_str s); apply IH; lra. }
  specialize (Hfold descriptiveFields [] [] (2 # 10)%Q ltac:(lra)).
  destruct (fold_left _ descriptiveFields _) as [[description keywords] confidence].
  simpl in Hfold.
  destruct (any_truthy h context _); destruct (any_truthy h context _); simpl;
    match goal with
    | |- (_ <= Qmin ?a ?b <= _)%Q =>
        pose proof (Q.le_min_r a b); pose proof (Q.min_glb a b (2 # 10));
        assert (2 # 10 <= Qmin a b)%Q by (apply Q.min_glb; lra); split; lra
    end.
Qed.

Lemma getGenericDescription_nonempty fieldName : getGenericDescription fieldName ≠ [].
Proof.
  unfold getGenericDescription. cbv zeta.
  repeat match goal with |- context [if ?b then _ else _] => destruct b end; done.
Qed.

Lemma analyzeContext_facts imageInfo :
  let analysis := analyzeContext h imageInfo in
  (6 # 10 <= ctx_confidence analysis <= 1)%Q
  ∧ (is_object (context imageInfo) = true → (8 # 10 <= ctx_confidence analysis)%Q)
  ∧ ctx_description analysis ≠ [].
Proof.
  cbv zeta. unfold analyzeContext. cbv zeta.
  pose proof (analyzeFieldName_confidence (fieldName imageInfo)) as Hf.
  destruct (analyzeFieldName (fieldName imageInfo)) as [fieldKeywords fieldConfidence].
  simpl in Hf.
  pose proof (analyzeContextData_confidence (context imageInfo)) as Hc.
  destruct (is_object (context imageInfo)); simpl.
  - split; [|split].
    + split; [apply Q.min_glb; lra|apply Q.le_min_r].
    + intros _. apply Q.min_glb; lra.
    + destruct (truthy_str _) eqn:Ht; [by destruct (ctx_description _)|].
      apply getGenericDescription_nonempty.
  - split; [|split].
    + split; [apply Q.min_glb; lra|apply Q.le_min_r].
    + done.
    + apply getGenericDescription_nonempty.
Qed.

(** *** Categories *)

(** A category that the prompt table knows, or [generic]. *)
Definition knownCategory (category : jsstring) : Prop :=
  category = js "generic" ∨ category ∈ (λ kv, js kv.1) <$> FIELD_TYPE_MAPPING.

Lemma determineCategory_known imageInfo analysis :
  knownCategory (determineCategory imageInfo analysis).
Proof.
  unfold determineCategory. cbv zeta.
  destruct (find _ FIELD_TYPE_MAPPING) as [[key value]|] eqn:Hfind.
  - right. apply find_some in Hfind as [Hin _].
    apply list_elem_of_fmap. exists (key, value). split; [done|].
    by apply list_elem_of_In.
  - repeat match goal with |- context [if ?b then _ else _] => destruct b end;
      try (by left); right; by apply (bool_decide_unpack _).
Qed.

Lemma fieldTypeOf_default category :
  knownCategory category →
  fieldTypeOf category = js "professional photography" ↔ category = js "generic".
Proof.
  intros [->|Hkey]; [done|].
  apply list_elem_of_fmap in Hkey as ([key value] & -> & Hin). simpl.
  assert (Forall (λ kv, fieldTypeOf (js kv.1) ≠ js "professional photography"
                        ∧ js kv.1 ≠ js "generic") FIELD_TYPE_MAPPING) as Hall.
  { apply (bool_decide_unpack _). by vm_compute. }
  apply (proj1 (Forall_forall _ _) Hall) in Hin as [Hv Hk]. simpl in Hv, Hk. tauto.
Qed.

(** The confidence of a description lies between 0.6 and 1, and is at
    least 0.8 when the occurrence has an object as context, as every
    extracted occurrence has; its [baseContext] is never empty, so the test
    of [generateBasePrompt] on the description and on a confidence above 0.3
    never fails.  Its category is a key of the prompt table or [generic],
    and the table's default phrase is used for [generic] only. *)
Theorem description_confidence_and_category draw imageInfo options :
  let description := generateDescription h draw imageInfo options in
  (6 # 10 <= confidence description <= 1)%Q
  ∧ (is_object (context imageInfo) = true → (8 # 10 <= confidence description)%Q)
  ∧ baseContext description ≠ []
  ∧ truthy_str (baseContext description) && Qltb (3 # 10) (confidence description) = true
  ∧ knownCategory (category description)
  ∧ (fieldTypeOf (category description) = js "professional photography"
     ↔ category description = js "generic").
Proof.
  cbv zeta. unfold generateDescription. cbv zeta. simpl.
  destruct (analyzeContext_facts imageInfo) as (Hc & Ho & Hd).
  pose proof (determineCategory_known imageInfo (analyzeContext h imageInfo)) as Hk.
  split; [done|]. split; [done|]. split; [done|]. split.
  { apply andb_true_iff. split.
    - by destruct (ctx_description _).
    - unfold Qltb. apply negb_true_iff, not_true_iff_false. intros Hle.
      apply Qle_bool_iff in Hle. lra. }
  split; [done|]. by apply fieldTypeOf_default.
Qed.

(** *** The map of descriptions *)

(** The description at [p] is the one of an occurrence at that path, under
    the normalised options. *)
Definition describes (images : list ImageUrlInfo) (opts : DescriptionOptions)
    (p : jsstring) (description : ImageDescription) : Prop :=
  ∃ img draw, img ∈ images ∧ path img = p
              ∧ description = generateDescription h draw img opts.

Lemma describe_group_sound (opts : DescriptionOptions) (images groupImages : list ImageUrlInfo)
    (descriptions : gmap jsstring ImageDescription) (k : nat) :
  (∀ i, i ∈ groupImages → i ∈ images) →
  map_Forall (describes images opts) descriptions →
  map_Forall (describes images opts)
    (fold_left
       (λ '(descriptions, k) img,
          (<[path img := generateDescription h (random_draw k) img opts]> descriptions,
           S k))
       groupImages (descriptions, k)).1.
Proof.
  revert descriptions k.
  induction groupImages as [|img imgs IH]; intros descriptions k Hin Hall; [done|].
  cbn [fold_left]. apply IH; [intros i Hi; apply Hin; by right|].
  apply map_Forall_insert_2; [|done].
  exists img, (random_draw k). split; [apply Hin; by left|done].
Qed.

Lemma describe_groups_sound (opts : DescriptionOptions) (images : list ImageUrlInfo)
    (contextGroups : list (jsstring * list ImageUrlInfo))
    (st0 : gmap jsstring ImageDescription * nat) :
  (∀ i, i ∈ contextGroups ≫= snd → i ∈ images) →
  map_Forall (describes images opts) st0.1 →
  map_Forall (describes images opts)
    (fold_left
       (λ st '(contextKey, groupImages),
          fold_left
            (λ '(descriptions, k) img,
               (<[path img := generateDescription h (random_draw k) img opts]>
                  descriptions, S k))
            groupImages st)
       contextGroups st0).1.
Proof.
  revert st0.
  induction contextGroups as [|[key imgs] groups IH]; intros [descriptions k] Hin Hall;
    [done|].
  cbn [fold_left].
  pose proof (describe_group_sound opts images imgs descriptions k) as Hg.
  destruct (fold_left _ imgs (descriptions, k)) as [d1 k1] eqn:Hinner.
  apply IH.
  - intros i Hi. apply Hin. rewrite bind_cons. apply elem_of_app. by right.
  - apply Hg; [|done]. intros i Hi. apply Hin. rewrite bind_cons.
    apply elem_of_app. by left.
Qed.

(** [generateDescriptions] returns a map whose keys are exactly the paths
    of the occurrences, and whose value at a path is the description of an
    occurrence at that path. *)
Theorem descriptions_are_of_occurrences images options :
  let descriptions := generateDescriptions h images options in
  (∀ p, is_Some (descriptions !! p) ↔ p ∈ path <$> images)
  ∧ map_Forall (describes images (asOptions (normalizeOptions options))) descriptions.
Proof.
  cbv zeta.
  assert (map_Forall (describes images (asOptions (normalizeOptions options)))
            (generateDescriptions h images options)) as Hsound.
  { unfold generateDescriptions.
    apply (describe_groups_sound _ images (groupByContext h images) (∅, 0)).
    - intros i Hi. by apply groupByContext_members in Hi.
    - apply map_Forall_empty. }
  split; [|done]. intros p. split.
  - intros [d Hd]. destruct (Hsound p d Hd) as (img & draw & Hin & <- & _).
    apply list_elem_of_fmap. eauto.
  - intros Hp. apply list_elem_of_fmap in Hp as (img & -> & Hin).
    by apply generateDescriptions_covers.
Qed.

End DescriptionFacts.

(** ** More of the replacer *)

(** *** What a walk keeps *)

Section ReplacerCounts.
Import UrlReplacer.
Context `{Runtime}.

Variable urlMappings : list (jsstring * jsstring).
Variable cdnMappings : option (list (jsstring * jsstring)).
Variable options : RequiredOptions.

(** A property of the result that every [replaceUrl] keeps is kept by the
    walk. *)
Lemma performReplacements_preserves (P : ReplacementResult → Prop) :
  (∀ obj key s path itemIndex h result,
     isPicsumUrl s = true → P result →
     P (replaceUrl obj key s path urlMappings cdnMappings options itemIndex
                   (h, result)).2) →
  ∀ n v path itemIndex st st',
    performReplacements n v path urlMappings cdnMappings options itemIndex st = Some st' →
    P st.2 → P st'.2.
Proof.
  intros Hstep. induction n as [|n IH]; intros [| | | |l] path itemIndex st st';
    simpl; try (by intros [= <-]).
  destruct (st.1 !! l) as [[fields|items]|]; [| |done].
  - assert (∀ todo st0 st1,
      forEachM
        (λ st '(key, value),
           let newPath := ImageUrlExtractor.keyPath path key in
           match value with
           | VStr s =>
               if isPicsumUrl s
               then Some (replaceUrl l key s newPath urlMappings cdnMappings
                            options itemIndex st)
               else Some st
           | VRef _ =>
               performReplacements n value newPath urlMappings cdnMappings
                 options itemIndex st
           | _ => Some st
           end)
        todo st0 = Some st1 →
      P st0.2 → P st1.2) as Hfields.
    { induction todo as [|[key value] todo IHt]; intros st0 st1; cbn [forEachM].
      - by intros [= <-].
      - cbv zeta.
        destruct value as [| | |s|l']; try apply IHt.
        + destruct (isPicsumUrl s) eqn:Hurl; [|apply IHt].
          intros Hf Hp. eapply IHt; [exact Hf|].
          destruct st0 as [h0 r0]. by apply Hstep.
        + destruct (performReplacements n (VRef l') _ _ _ _ _ st0) as [st2|] eqn:Hrec;
            [|done].
          intros Hf Hp. eapply IHt; [exact Hf|]. by eapply IH. }
    apply Hfields.
  - intros Hf Hp.
    destruct (forEachM _ items (0, st)) as [[i st1]|] eqn:Hloop; [|done].
    injection Hf as <-.
    assert (∀ i0 st0 i1 st1,
      forEachM
        (λ '(i, st) item,
           st ← performReplacements n item (ImageUrlExtractor.indexPath path i)
                  urlMappings cdnMappings options i st;
           Some (S i, st))
        items (i0, st0) = Some (i1, st1) →
      P st0.2 → P st1.2) as Hitems.
    { clear Hloop. induction items as [|item items IHi]; intros i0 st0 i1 st2; cbn [forEachM].
      - by intros [= _ <-].
      - destruct (performReplacements n item _ _ _ _ i0 st0) as [st'|] eqn:Hrec; [|done].
        simpl. intros Hf Hp0. eapply IHi; [exact Hf|]. by eapply IH. }
    by eapply Hitems.
Qed.

Lemma isPicsumUrl_truthy s : isPicsumUrl s = true → truthy_str s = true.
Proof. by destruct s. Qed.

Lemma str_or_found o : found o = true → str_or o None = o.
Proof. destruct o as [s|]; [|done]. simpl. by intros ->. Qed.

Lemma str_or_lost o : found o = false → str_or o None = None.
Proof. destruct o as [s|]; [|done]. simpl. by intros ->. Qed.

(** The two outcomes of [replaceUrl] on a placeholder: a write and a
    mapping, or, only when the original is to be preserved, a failure and a
    message. *)
Lemma replaceUrl_cases obj key s path itemIndex h result :
  isPicsumUrl s = true →
  let st := replaceUrl obj key s path urlMappings cdnMappings options itemIndex
                       (h, result) in
  (∃ finalUrl t,
     st = (setField obj key (VStr finalUrl) h,
           {| success := success result;
              replacedCount := S (replacedCount result);
              failedCount := failedCount result;
              mappings :=
                mappings result ++
                [{| originalUrl := s; newUrl := finalUrl;
                    cdnUrl := cdnMappings ≫= mapGet s;
                    mappingPath := path; mappingFieldName := key;
                    mappingItemIndex := itemIndex; replacementType := t |}];
              modifiedData := modifiedData result;
              errors := errors result |}))
  ∨ (preserveOriginalOnFailure options = true
     ∧ st = (h,
             {| success := success result;
                replacedCount := replacedCount result;
                failedCount := S (failedCount result);
                mappings := mappings result;
                modifiedData := modifiedData result;
                errors := errors result ++ [notFound s path] |})).
Proof.
  intros Hurl. apply isPicsumUrl_truthy in Hurl. cbv zeta. unfold replaceUrl.
  cbv zeta.
  set (first := str_or (mapGet s urlMappings) (mapGet (normalizeUrl s) urlMappings)).
  set (second := findVariantMapping s urlMappings).
  clearbody first second.
  destruct (found first) eqn:Hfirst.
  { cbv beta iota. rewrite Hfirst. cbn [negb andb].
    rewrite (str_or_found _ Hfirst). destruct first as [newUrl|]; [|done].
    left. by eexists _, _. }
  cbv beta iota. destruct (found second) eqn:Hsecond.
  { cbn [negb andb]. rewrite (str_or_found _ Hsecond).
    destruct second as [newUrl|]; [|done]. left. by eexists _, _. }
  cbn [negb andb]. destruct (preserveOriginalOnFailure options) eqn:Hpreserve.
  - cbn [negb]. rewrite (str_or_lost _ Hsecond). by right.
  - cbn [negb]. unfold generateFallbackUrl, str_or. rewrite Hurl.
    left. by eexists _, _.
Qed.

Lemma replaceUrl_counted obj key s path itemIndex h result :
  isPicsumUrl s = true →
  counted options result →
  counted options
    (replaceUrl obj key s path urlMappings cdnMappings options itemIndex (h, result)).2.
Proof.
  intros Hurl [Hm Hf He].
  destruct (replaceUrl_cases obj key s path itemIndex h result Hurl)
    as [(finalUrl & t & ->)|[Hp ->]]; split; simpl.
  - rewrite length_app. simpl. lia.
  - done.
  - done.
  - done.
  - intros Hp'. congruence.
  - intros _. rewrite length_app, He by done. simpl. lia.
Qed.

End ReplacerCounts.

(** *** Copies *)

Section Copies.
Context `{Runtime}.
Import UrlReplacer.

Lemma copyOf_grow n h k v v' : copyOf n h v v' → copyOf n (h ++ k) v v'.
Proof.
  revert v v'. induction n as [|n IH]; intros [| | | |l] [| | | |l']; simpl; try done.
  destruct (h !! l) as [a|] eqn:Hl; [|by destruct n].
  destruct (h !! l') as [b|] eqn:Hl'; [|by destruct a].
  rewrite (lookup_app_l_Some _ _ _ _ Hl), (lookup_app_l_Some _ _ _ _ Hl').
  destruct a as [fields|items], b as [fields'|items']; try done.
  - intros Hall. eapply Forall2_impl; [exact Hall|].
    intros kv kv' [Hk Hv]. split; [done|]. by apply IH.
  - intros Hall. eapply Forall2_impl; [exact Hall|]. apply IH.
Qed.

Definition copies (n : nat) : Prop :=
  ∀ lo h v, document lo n h v →
    ∃ v' k, deepClone n h v = Some (v', h ++ k) ∧ copyOf n (h ++ k) v v'.

Lemma deepClone_items_copy n lo h0 items before acc k1 :
  copies n →
  Forall (document lo n h0) items →
  Forall2 (copyOf n (h0 ++ k1)) before acc →
  ∃ items' k2,
    forEachM
      (λ '(items', h) item,
         '(item', h) ← deepClone n h item; Some (items' ++ [item'], h))
      items (acc, h0 ++ k1)
    = Some (items', h0 ++ k2)
    ∧ Forall2 (copyOf n (h0 ++ k2)) (before ++ items) items'.
Proof.
  intros Hcopy. revert before acc k1.
  induction items as [|item items IH]; intros before acc k1 Hitems Hacc.
  - exists acc, k1. by rewrite app_nil_r.
  - apply Forall_cons in Hitems as [Hitem Hitems].
    destruct (Hcopy lo (h0 ++ k1) item) as (item' & k & Hc & Hd);
      [by apply document_grow|].
    cbn [forEachM]. rewrite Hc. simpl. rewrite <- app_assoc.
    destruct (IH (before ++ [item]) (acc ++ [item']) (k1 ++ k) Hitems)
      as (items' & k2 & Hf & Hall).
    { apply Forall2_app.
      - eapply Forall2_impl; [exact Hacc|]. intros v v' Hv.
        rewrite app_assoc. by apply copyOf_grow.
      - constructor; [|done]. by rewrite app_assoc. }
    exists items', k2. rewrite <- app_assoc in Hall. by rewrite Hf.
Qed.

Lemma deepClone_fields_copy n lo h0 (fields before acc : list (jsstring * val)) k1 :
  copies n →
  Forall (λ kv, document lo n h0 kv.2) fields →
  Forall2 (λ kv kv', kv.1 = kv'.1 ∧ copyOf n (h0 ++ k1) kv.2 kv'.2)
          (filter (λ kv, kv.1 ≠ js "__proto__") before) acc →
  ∃ (cloned : list (jsstring * val)) k2,
    forEachM
      (λ '(cloned, h) '(key, value),
         '(value', h) ← deepClone n h value;
         Some (if bool_decide (key = js "__proto__") then cloned
               else cloned ++ [(key, value')], h))
      fields (acc, h0 ++ k1)
    = Some (cloned, h0 ++ k2)
    ∧ Forall2 (λ kv kv', kv.1 = kv'.1 ∧ copyOf n (h0 ++ k2) kv.2 kv'.2)
              (filter (λ kv, kv.1 ≠ js "__proto__") (before ++ fields)) cloned.
Proof.
  intros Hcopy. revert before acc k1.
  induction fields as [|[key value] fields IH]; intros before acc k1 Hfields Hacc.
  - exists acc, k1. by rewrite app_nil_r.
  - apply Forall_cons in Hfields as [Hvalue Hfields].
    destruct (Hcopy lo (h0 ++ k1) value) as (value' & k & Hc & Hd);
      [by apply document_grow|].
    cbn [forEachM]. rewrite Hc. simpl. rewrite <- app_assoc.
    assert (Forall2 (λ kv kv', kv.1 = kv'.1 ∧ copyOf n (h0 ++ k1 ++ k) kv.2 kv'.2)
              (filter (λ kv, kv.1 ≠ js "__proto__") before) acc) as Hacc'.
    { eapply Forall2_impl; [exact Hacc|]. intros v v' [Hk Hv]. split; [done|].
      rewrite app_assoc. by apply copyOf_grow. }
    destruct (IH (before ++ [(key, value)])
                 (if bool_decide (key = js "__proto__") then acc
                  else acc ++ [(key, value')]) (k1 ++ k) Hfields)
      as (cloned & k2 & Hf & Hall).
    { rewrite filter_app. case_bool_decide as Hproto.
      - rewrite filter_cons_False by (simpl; tauto). simpl.
        by rewrite app_nil_r.
      - rewrite filter_cons_True by done. apply Forall2_app; [done|].
        constructor; [|constructor]. split; [done|]. simpl. by rewrite app_assoc. }
    exists cloned, k2. rewrite <- app_assoc in Hall. by rewrite Hf.
Qed.

Lemma deepClone_copy n : copies n.
Proof.
  induction n as [|n IH]; intros lo h [| | | |l]; simpl;
    try (intros _; eexists _, []; rewrite app_nil_r; split; [reflexivity|done]);
    [done|].
  intros [Hlo Hnode].
  destruct (h !! l) as [[fields|items]|] eqn:Hl; [| |done].
  - destruct Hnode as [Hnd Hall].
    destruct (deepClone_fields_copy n lo h fields [] [] [] IH Hall)
      as (cloned & k & Hf & Hd); [constructor|].
    rewrite app_nil_r in Hf. rewrite Hf. simpl.
    exists (VRef (length (h ++ k))), (k ++ [NObj cloned]).
    rewrite app_assoc. split; [done|].
    rewrite (lookup_app_l_Some _ _ _ _ (lookup_app_l_Some _ k _ _ Hl)).
    rewrite list_lookup_middle by done.
    eapply Forall2_impl; [exact Hd|]. intros kv kv' [Hk Hv]. split; [done|].
    by apply copyOf_grow.
  - destruct (deepClone_items_copy n lo h items [] [] [] IH Hnode)
      as (items' & k & Hf & Hd); [constructor|].
    rewrite app_nil_r in Hf. rewrite Hf. simpl.
    exists (VRef (length (h ++ k))), (k ++ [NArr items']).
    rewrite app_assoc. split; [done|].
    rewrite (lookup_app_l_Some _ _ _ _ (lookup_app_l_Some _ k _ _ Hl)).
    rewrite list_lookup_middle by done.
    eapply Forall2_impl; [exact Hd|]. intros v v'. apply copyOf_grow.
Qed.

(** [deepClone] of a document returns a copy made of new nodes only, with
    the store it started from still there: the same primitives, arrays of
    copies of the same elements, and objects with copies of the same
    properties in the same order, but for a property named [__proto__],
    which the copy does not have. *)
Theorem deepClone_makes_a_copy n lo h v :
  document lo n h v →
  ∃ v' k,
    deepClone n h v = Some (v', h ++ k)
    ∧ copyOf n (h ++ k) v v'
    ∧ document (length h) n (h ++ k) v'.
Proof.
  intros Hdoc.
  destruct (deepClone_copy n lo h v Hdoc) as (v' & k & Hrun & Hcopy).
  destruct (deepClone_spec n lo h v Hdoc) as (v2 & k2 & Hrun' & Hnew).
  rewrite Hrun in Hrun'. injection Hrun' as <- Hk. apply app_inv_head in Hk as <-.
  by exists v', k.
Qed.

End Copies.

(** *** [replaceUrls] and [createUrlMappings] *)

Section ReplaceUrls.
Context `{Runtime}.
Import UrlReplacer.

(** The steps of [replaceUrls] on a document: the copy, the walk over it and
    the result made of what the walk counted. *)
Lemma replaceUrls_steps n h data urlMappings cdnMappings options :
  document 0 n h data →
  ∃ modified k h' walked,
    (if backupOriginal (normalizeOptions options)
     then copyOf n (h ++ k) data modified
     else modified = data ∧ k = [])
    ∧ document 0 n (h ++ k) modified
    ∧ performReplacements n modified [] urlMappings cdnMappings
        (normalizeOptions options) 0
        (h ++ k,
         {| success := false; replacedCount := 0; failedCount := 0;
            mappings := []; modifiedData := modified; errors := [] |})
      = Some (h', walked)
    ∧ modifiedData walked = modified
    ∧ replaceUrls n h data urlMappings cdnMappings options
      = Some ({| success :=
                   bool_decide (failedCount walked = 0)
                   || bool_decide (0 < replacedCount walked);
                 replacedCount := replacedCount walked;
                 failedCount := failedCount walked;
                 mappings := mappings walked;
                 modifiedData := modifiedData walked;
                 errors :=
                   if validateUrls (normalizeOptions options)
                   then errors walked
                        ++ validation_errors (newUrl <$> mappings walked)
                   else errors walked |},
              h').
Proof.
  intros Hdoc. unfold replaceUrls. cbv zeta.
  destruct (backupOriginal (normalizeOptions options)) eqn:Hbackup.
  - destruct (deepClone_copy n 0 h data Hdoc) as (copy & k1 & Hc1 & Hcopy).
    destruct (deepClone_spec n 0 h data Hdoc) as (copy' & k1' & Hc1' & Hcopied).
    rewrite Hc1 in Hc1'. injection Hc1' as <- Hk. apply app_inv_head in Hk as <-.
    rewrite Hc1. simpl.
    destruct (deepClone_spec n 0 (h ++ k1) data) as (copy2 & k2 & Hc2 & _);
      [by apply document_grow|].
    rewrite Hc2. simpl.
    destruct (performReplacements_spec urlMappings cdnMappings (normalizeOptions options)
                n 0 ((h ++ k1) ++ k2) copy [] 0
                {| success := false; replacedCount := 0; failedCount := 0;
                   mappings := []; modifiedData := copy; errors := [] |})
      as (h' & walked & Hp & _ & Hm).
    { apply document_grow. eapply document_lower; [|exact Hcopied]. lia. }
    rewrite Hp. simpl.
    exists copy, (k1 ++ k2), h', walked. rewrite app_assoc.
    split; [by apply copyOf_grow|].
    split; [apply document_grow; eapply document_lower; [|exact Hcopied]; lia|].
    done.
  - simpl.
    destruct (performReplacements_spec urlMappings cdnMappings (normalizeOptions options)
                n 0 h data [] 0
                {| success := false; replacedCount := 0; failedCount := 0;
                   mappings := []; modifiedData := data; errors := [] |} Hdoc)
      as (h' & walked & Hp & _ & Hm).
    rewrite Hp. simpl.
    exists data, [], h', walked. rewrite app_nil_r. done.
Qed.

(** The counters of a replacement.  On a document [replaceUrls] returns;
    there are as many mappings as [replacedCount] says; [success] is false
    exactly when something failed and nothing was replaced; unless
    [preserveOriginalOnFailure] is set nothing ever fails, so the result is
    a success whatever the maps hold; when it is set, and the URLs are not
    validated, there is one message for every failure. *)
Theorem replacement_counts n h data urlMappings cdnMappings options :
  document 0 n h data →
  ∃ result h',
    replaceUrls n h data urlMappings cdnMappings options = Some (result, h')
    ∧ length (mappings result) = replacedCount result
    ∧ (success result = false ↔ 0 < failedCount result ∧ replacedCount result = 0)
    ∧ (opt_preserveOriginalOnFailure options ≠ Some true →
       failedCount result = 0 ∧ success result = true
       ∧ (opt_validateUrls options ≠ Some true → errors result = []))
    ∧ (opt_preserveOriginalOnFailure options = Some true →
       opt_validateUrls options ≠ Some true →
       length (errors result) = failedCount result).
Proof.
  intros Hdoc.
  destruct (replaceUrls_steps n h data urlMappings cdnMappings options Hdoc)
    as (modified & k & h' & walked & _ & _ & Hwalk & _ & ->).
  eexists _, _. split; [reflexivity|]. cbn [mappings replacedCount failedCount success errors].
  assert (counted (normalizeOptions options) walked) as [Hm Hf He].
  { apply (performReplacements_preserves urlMappings cdnMappings (normalizeOptions options)
             (counted (normalizeOptions options))
             (λ obj key s path itemIndex h0 result, replaceUrl_counted urlMappings
                cdnMappings (normalizeOptions options) obj key s path itemIndex h0 result)
             _ _ _ _ _ _ Hwalk).
    by split. }
  split; [done|]. split.
  { rewrite orb_false_iff, !bool_decide_eq_false. lia. }
  split.
  - intros Hp. destruct Hf as [Hf Herr].
    { unfold normalizeOptions. simpl.
      by destruct (opt_preserveOriginalOnFailure options) as [[]|]. }
    split; [done|]. rewrite Hf. split; [done|]. intros Hv.
    assert (validateUrls (normalizeOptions options) = false) as ->; [|done].
    unfold normalizeOptions. simpl. by destruct (opt_validateUrls options) as [[]|].
  - intros Hp Hv.
    assert (validateUrls (normalizeOptions options) = false) as ->.
    { unfold normalizeOptions. simpl. by destruct (opt_validateUrls options) as [[]|]. }
    apply He. unfold normalizeOptions. simpl. by rewrite Hp.
Qed.

Lemma assoc_elem key v (fields : list (jsstring * val)) :
  NoDup fields.*1 → (key, v) ∈ fields → assoc key fields = Some v.
Proof.
  induction fields as [|[key' v'] fields IH]; intros Hnd Hin.
  - by apply elem_of_nil in Hin.
  - apply NoDup_cons in Hnd as [Hnotin Hnd]. simpl.
    apply elem_of_cons in Hin as [[= -> ->]|Hin].
    + by rewrite bool_decide_eq_true_2.
    + rewrite bool_decide_eq_false_2; [by apply IH|].
      intros ->. apply Hnotin. apply list_elem_of_fmap. by exists (key', v).
Qed.

Section Unmapped.
Variable cdnMappings : option (list (jsstring * jsstring)).
Variable options : RequiredOptions.
Hypothesis no_cdn : cdnMappings = None ∨ cdnMappings = Some [].

Lemma replaceUrl_unmapped obj key s path itemIndex h result :
  isPicsumUrl s = true →
  replaceUrl obj key s path [] cdnMappings options itemIndex (h, result)
  = if preserveOriginalOnFailure options
    then (h,
          {| success := success result;
             replacedCount := replacedCount result;
             failedCount := S (failedCount result);
             mappings := mappings result;
             modifiedData := modifiedData result;
             errors := errors result ++ [notFound s path] |})
    else (setField obj key (VStr s) h,
          {| success := success result;
             replacedCount := S (replacedCount result);
             failedCount := failedCount result;
             mappings :=
               mappings result ++
               [{| originalUrl := s; newUrl := s; cdnUrl := None;
                   mappingPath := path; mappingFieldName := key;
                   mappingItemIndex := itemIndex; replacementType := fallback |}];
             modifiedData := modifiedData result;
             errors := errors result |}).
Proof using no_cdn.
  intros Hurl. apply isPicsumUrl_truthy in Hurl. unfold replaceUrl. cbv zeta.
  assert (cdnMappings ≫= mapGet s = None) as ->.
  { by destruct no_cdn as [-> | ->]. }
  assert (findVariantMapping s [] = None) as ->.
  { unfold findVariantMapping. cbv zeta. by destruct (_ && _). }
  cbn [mapGet str_or found negb andb].
  destruct (preserveOriginalOnFailure options); cbn [negb str_or]; [done|].
  unfold generateFallbackUrl. by rewrite Hurl.
Qed.

(** With nothing to map to, the walk leaves the store as it is. *)
Lemma performReplacements_unmapped n :
  ∀ lo h v path itemIndex result,
    document lo n h v →
    ∃ result',
      performReplacements n v path [] cdnMappings options itemIndex (h, result)
      = Some (h, result').
Proof using no_cdn.
  induction n as [|n IH]; intros lo h [| | | |l] path itemIndex result; simpl;
    try (by intros _; exists result); [done|].
  intros [Hlo Hnode].
  destruct (h !! l) as [[fields|items]|] eqn:Hl; [| |done].
  - destruct Hnode as [Hnd Hall].
    assert (∀ todo result0,
              todo ⊆ fields →
              ∃ result1,
                forEachM
                  (λ st '(key, value),
                     let newPath := ImageUrlExtractor.keyPath path key in
                     match value with
                     | VStr s =>
                         if isPicsumUrl s
                         then Some (replaceUrl l key s newPath [] cdnMappings options
                                      itemIndex st)
                         else Some st
                     | VRef _ =>
                         performReplacements n value newPath [] cdnMappings options
                           itemIndex st
                     | _ => Some st
                     end)
                  todo (h, result0)
                = Some (h, result1)) as Hfields.
    { induction todo as [|[key value] todo IHtodo]; intros result0 Hsub.
      - by exists result0.
      - assert ((key, value) ∈ fields) as Hin by (apply Hsub; left).
        assert (todo ⊆ fields) as Hsub'.
        { intros x Hx. apply Hsub. by right. }
        cbn [forEachM]. cbv zeta.
        destruct value as [| | |s|l'].
        + by apply IHtodo.
        + by apply IHtodo.
        + by apply IHtodo.
        + destruct (isPicsumUrl s) eqn:Hurl; [|by apply IHtodo].
          rewrite replaceUrl_unmapped by done.
          destruct (preserveOriginalOnFailure options); [by apply IHtodo|].
          rewrite (setField_same l key (VStr s) h fields Hl)
            by (by apply assoc_elem).
          by apply IHtodo.
        + rewrite Forall_forall in Hall. specialize (Hall _ Hin). simpl in Hall.
          destruct (IH lo h (VRef l') (ImageUrlExtractor.keyPath path key)
                       itemIndex result0 Hall) as (result1 & ->).
          by apply IHtodo. }
    by apply Hfields.
  - assert (∀ todo i result0,
              Forall (document lo n h) todo →
              ∃ i' result1,
                forEachM
                  (λ '(i, st) item,
                     st ← performReplacements n item
                            (ImageUrlExtractor.indexPath path i)
                            [] cdnMappings options i st;
                     Some (S i, st))
                  todo (i, (h, result0))
                = Some (i', (h, result1))) as Hitems.
    { induction todo as [|item todo IHtodo]; intros i result0 Hall.
      - by exists i, result0.
      - apply Forall_cons in Hall as [Hitem Hall]. cbn [forEachM].
        destruct (IH lo h item (ImageUrlExtractor.indexPath path i) i result0 Hitem)
          as (result1 & ->).
        cbn [mbind option_bind]. by apply IHtodo. }
    destruct (Hitems items 0 result Hnode) as (i' & result1 & ->). by exists result1.
Qed.

End Unmapped.

Lemma createUrlMappings_lookup_fold imageResults maps u :
  let maps' := fold_left recordResult imageResults maps in
  mapGet u maps'.1.1
  = match last (omap (newFor u) imageResults) with
    | Some v => Some v
    | None => mapGet u maps.1.1
    end
  ∧ mapGet u maps'.1.2
    = match last (omap (cdnFor u) imageResults) with
      | Some v => Some v
      | None => mapGet u maps.1.2
      end
  ∧ maps'.2
    = maps.2 ++ (res_originalUrl <$> filter (λ r, usable r = false) imageResults).
Proof.
  cbv zeta. revert maps.
  induction imageResults as [|r imageResults IH];
    intros [[urlMappings cdnMappings] failedUrls].
  - simpl. by rewrite app_nil_r.
  - cbn [fold_left]. destruct (IH (recordResult (urlMappings, cdnMappings, failedUrls) r))
      as (-> & -> & ->).
    clear IH. unfold recordResult, newFor, cdnFor. cbn [omap list_omap]. fold (usable r).
    destruct (usable r) eqn:Hok; cbn [andb fst snd].
    + rewrite filter_cons_False by (rewrite Hok; done).
      split; [|split; [|done]].
      * rewrite mapGet_mapSet, (bool_decide_ext (u = res_originalUrl r)
                                   (res_originalUrl r = u)) by done.
        case_bool_decide; [|done]. rewrite last_cons. by destruct (last _).
      * rewrite (bool_decide_ext (res_originalUrl r = u) (u = res_originalUrl r))
          by done.
        destruct (res_cdnUrl r) as [c|]; cbn [mbind option_bind].
        -- destruct (truthy_str c).
           ++ rewrite mapGet_mapSet. case_bool_decide; [|done].
              rewrite last_cons. by destruct (last _).
           ++ by case_bool_decide.
        -- by case_bool_decide.
    + rewrite filter_cons_True by done. rewrite fmap_cons.
      split; [done|]. split; [done|]. by rewrite <- app_assoc.
Qed.

(** What [createUrlMappings] holds for an original URL: the new URL of the
    last result that succeeded for it with a new URL that is not empty, and
    the CDN URL of the last such result that had one, which may be an
    earlier result than the one the new URL is of.  The failed list names
    every other result, in order; a URL may be in it and in the maps. *)
Theorem createUrlMappings_last_wins imageResults u :
  let maps := createUrlMappings imageResults in
  mapGet u maps.1.1 = last (omap (newFor u) imageResults)
  ∧ mapGet u maps.1.2 = last (omap (cdnFor u) imageResults)
  ∧ maps.2 = res_originalUrl <$> filter (λ r, usable r = false) imageResults.
Proof.
  cbv zeta. unfold createUrlMappings.
  destruct (createUrlMappings_lookup_fold imageResults ([], [], []) u)
    as (-> & -> & ->).
  simpl. split; [by destruct (last _)|]. split; [by destruct (last _)|done].
Qed.

Lemma createUrlMappings_all_failed imageResults :
  Forall (λ r, usable r = false) imageResults →
  createUrlMappings imageResults = ([], [], res_originalUrl <$> imageResults).
Proof.
  intros Hall. unfold createUrlMappings.
  assert (∀ urlMappings cdnMappings failedUrls,
            fold_left recordResult imageResults (urlMappings, cdnMappings, failedUrls)
            = (urlMappings, cdnMappings,
               failedUrls ++ (res_originalUrl <$> imageResults))) as Hfold;
    [|by rewrite Hfold].
  induction Hall as [|r imageResults Hr Hall IH]; intros urlMappings cdnMappings failedUrls.
  - simpl. by rewrite app_nil_r.
  - cbn [fold_left]. unfold recordResult at 2. fold (usable r). rewrite Hr, IH.
    by rewrite <- app_assoc.
Qed.

(** When no image could be generated, the orchestrator's replacement step,
    [replaceUrls] with the maps of [createUrlMappings], changes no URL:
    after it the store is the store with the copy appended, or the store
    itself when no copy is asked for.  With the default options each
    placeholder is still counted as replaced, by a [fallback] mapping to
    itself, and the result is a success; with [preserveOriginalOnFailure]
    nothing is counted as replaced. *)
Theorem all_failed_changes_nothing n h data imageResults options :
  document 0 n h data →
  Forall (λ r, usable r = false) imageResults →
  let maps := createUrlMappings imageResults in
  maps.2 = res_originalUrl <$> imageResults
  ∧ ∃ result k,
      replaceUrls n h data maps.1.1 (Some maps.1.2) options = Some (result, h ++ k)
      ∧ (if backupOriginal (normalizeOptions options)
         then copyOf n (h ++ k) data (modifiedData result)
         else modifiedData result = data ∧ k = [])
      ∧ Forall unchanged (mappings result)
      ∧ (if preserveOriginalOnFailure (normalizeOptions options)
         then replacedCount result = 0
         else failedCount result = 0 ∧ success result = true).
Proof.
  intros Hdoc Hall. cbv zeta. rewrite (createUrlMappings_all_failed _ Hall).
  split; [done|]. cbn [fst snd].
  destruct (replaceUrls_steps n h data [] (Some []) options Hdoc)
    as (modified & k & h' & walked & Hcopy & Hmod & Hwalk & Hdata & ->).
  destruct (performReplacements_unmapped (Some []) (normalizeOptions options)
              (or_intror eq_refl) n 0 (h ++ k) modified [] 0
              {| success := false; replacedCount := 0; failedCount := 0;
                 mappings := []; modifiedData := modified; errors := [] |} Hmod)
    as (walked' & Hwalk').
  rewrite Hwalk in Hwalk'. injection Hwalk' as -> <-.
  exists {| success :=
              bool_decide (failedCount walked = 0)
              || bool_decide (0 < replacedCount walked);
            replacedCount := replacedCount walked;
            failedCount := failedCount walked;
            mappings := mappings walked;
            modifiedData := modifiedData walked;
            errors :=
              if validateUrls (normalizeOptions options)
              then errors walked ++ validation_errors (newUrl <$> mappings walked)
              else errors walked |}, k.
  split; [done|]. cbn [modifiedData mappings replacedCount failedCount success].
  rewrite Hdata. split; [done|].
  assert (Forall unchanged (mappings walked)
          ∧ if preserveOriginalOnFailure (normalizeOptions options)
            then replacedCount walked = 0
            else failedCount walked = 0) as [Hun Hcount].
  { refine (performReplacements_preserves [] (Some []) (normalizeOptions options)
             (λ r, Forall unchanged (mappings r)
                   ∧ if preserveOriginalOnFailure (normalizeOptions options)
                     then replacedCount r = 0
                     else failedCount r = 0) _ _ _ _ _ _ _ Hwalk _).
    - intros obj key s path itemIndex h0 result Hurl [Hun Hcount].
      rewrite (replaceUrl_unmapped (Some []) (normalizeOptions options)
                 (or_intror eq_refl)) by done.
      destruct (preserveOriginalOnFailure (normalizeOptions options)); [done|].
      split; [|done]. cbn [snd mappings]. apply Forall_app. split; [done|].
      by repeat constructor.
    - split; [constructor|]. by destruct (preserveOriginalOnFailure _). }
  split; [done|].
  destruct (preserveOriginalOnFailure (normalizeOptions options)); [done|].
  split; [done|]. by rewrite Hcount.
Qed.



End ReplaceUrls.

(** *** [getReplacementStats] *)

Section Counters.

Lemma countOf_bump k k' m :
  countOf k (bump k' m) = if bool_decide (k' = k) then S (countOf k m) else countOf k m.
Proof.
  unfold countOf. induction m as [|[k0 n] m IH]; simpl.
  - by case_bool_decide.
  - destruct (decide (k0 = k')) as [->|Hne].
    + rewrite (bool_decide_eq_true_2 (k' = k')) by done. simpl.
      case_bool_decide; [lia|done].
    + rewrite (bool_decide_eq_false_2 (k0 = k')) by done. simpl.
      destruct (decide (k0 = k)) as [->|Hne'].
      * rewrite (bool_decide_eq_true_2 (k = k)) by done.
        by rewrite (bool_decide_eq_false_2 (k' = k)) by done.
      * by rewrite (bool_decide_eq_false_2 (k0 = k)) by done.
Qed.

Lemma countOf_fold {A} (f : A → jsstring) (l : list A) m k :
  countOf k (fold_left (λ acc x, bump (f x) acc) l m)
  = countOf k m + length (filter (λ x, f x = k) l).
Proof.
  revert m. induction l as [|x l IH]; intros m; [simpl; lia|].
  cbn [fold_left]. rewrite IH, countOf_bump.
  case_bool_decide.
  - rewrite filter_cons_True by done. simpl. lia.
  - by rewrite filter_cons_False by done.
Qed.

Lemma countAll_fold {A} (f : A → jsstring) (l : list A) m :
  countAll (fold_left (λ acc x, bump (f x) acc) l m) = countAll m + length l.
Proof.
  revert m. induction l as [|x l IH]; intros m; [simpl; lia|].
  cbn [fold_left]. rewrite IH, countAll_bump. simpl. lia.
Qed.

End Counters.

Section ReplacementStatsFacts.
Import UrlReplacer.

Lemma typeName_inj t t' : typeName t = typeName t' → t = t'.
Proof. by destruct t, t'. Qed.

Lemma lengths_fold (l : list UrlMapping) (q : Q) :
  (0 <= q)%Q →
  (0 <= fold_left (λ sum m, sum + inject_Z (Z.of_nat (length (newUrl m))))%Q l q)%Q.
Proof.
  revert q. induction l as [|m l IH]; intros q Hq; [done|].
  cbn [fold_left]. apply IH.
  assert (0 <= inject_Z (Z.of_nat (length (newUrl m))))%Q.
  { change 0%Q with (inject_Z 0). rewrite <- Zle_Qle. lia. }
  lra.
Qed.

(** The statistics of a replacement.  The counter of each replacement type
    is the number of mappings of that type, and the counters add up to the
    number of mappings.  The success rate is a percentage between 0 and 100
    when something was handled, and [NaN] when nothing was, in which case
    the summary says so.  The average length is a whole number that is not
    negative, and zero without mappings. *)
Theorem replacement_stats result :
  let stats := getReplacementStats result in
  (∀ t, countOf (typeName t) (typeDistribution stats)
        = length (filter (λ m, replacementType m = t) (mappings result)))
  ∧ countAll (typeDistribution stats) = length (mappings result)
  ∧ (if bool_decide (replacedCount result + failedCount result = 0)
     then successRate stats = NaN
          ∧ stats_summary stats = js "Sostituiti 0/0 URLs (NaN% successo)"
     else ∃ q, successRate stats = Fin q ∧ (0 <= q <= 100)%Q)
  ∧ ∃ a, avgUrlLength stats = Fin (inject_Z a) ∧ (0 ≤ a)%Z
         ∧ (mappings result = [] → a = 0%Z).
Proof.
  cbv zeta. unfold getReplacementStats.
  cbn [typeDistribution successRate stats_summary avgUrlLength].
  split; [|split; [|split]].
  - intros t. rewrite countOf_fold. cbn [countOf find]. rewrite Nat.add_0_l. f_equal.
    apply list_filter_iff. intros m. split; [apply typeName_inj|by intros ->].
  - by rewrite countAll_fold.
  - case_bool_decide as Hnone.
    + assert (replacedCount result = 0) as -> by lia.
      assert (failedCount result = 0) as -> by lia. done.
    + set (r := replacedCount result) in *. set (f := failedCount result) in *.
      assert (0 < inject_Z (Z.of_nat (r + f)))%Q as Hpos.
      { change 0%Q with (inject_Z 0). rewrite <- Zlt_Qlt. lia. }
      assert (0 <= inject_Z (Z.of_nat r) <= inject_Z (Z.of_nat (r + f)))%Q as [H0 H1].
      { change 0%Q with (inject_Z 0). rewrite <- !Zle_Qle. lia. }
      unfold jdiv. destruct (Qeq_bool (inject_Z (Z.of_nat (r + f))) 0) eqn:Hz.
      { apply Qeq_bool_iff in Hz. lra. }
      cbn [jmul]. eexists. split; [reflexivity|].
      split.
      * apply Qmult_le_0_compat; [|done]. by apply Qle_shift_div_l; [|lra].
      * assert (inject_Z (Z.of_nat r) / inject_Z (Z.of_nat (r + f)) <= 1)%Q.
        { apply Qle_shift_div_r; [done|lra]. }
        lra.
  - case_bool_decide as Hsome.
    + unfold jdiv.
      set (len := inject_Z (Z.of_nat (length (mappings result)))).
      assert (0 < len)%Q as Hlen.
      { unfold len. change 0%Q with (inject_Z 0). rewrite <- Zlt_Qlt. lia. }
      destruct (Qeq_bool len 0) eqn:Hz.
      { apply Qeq_bool_iff in Hz. lra. }
      cbn [jround]. eexists. split; [reflexivity|]. split.
      * apply (Qfloor_resp_le 0).
        pose proof (lengths_fold (mappings result) 0 ltac:(done)) as Hsum.
        match goal with
        | |- (0 <= ?x + _)%Q => assert (0 <= x)%Q as Havg; [|lra]
        end.
        apply Qle_shift_div_l; [done|lra].
      * intros Hnil. rewrite Hnil in Hsome. simpl in Hsome. lia.
    + exists 0%Z. done.
Qed.

End ReplacementStatsFacts.

(** ** The orchestrator *)

(** *** [createBatches] *)

Section Batches.
Import PostProcessingOrchestrator.
Context {T : Type}.
Implicit Types (items : list T) (batches : list (list T)).

(** Batches of [size] items each, but for the last, which has what is left
    and is not empty. *)
Fixpoint batched (size : nat) batches : Prop :=
  match batches with
  | [] => True
  | [last_] => 0 < length last_ ≤ size
  | batch :: rest => length batch = size ∧ batched size rest
  end.

Lemma slice_inside items (i size : Z) :
  (0 ≤ i)%Z → (0 < size)%Z →
  slice items i (i + size) = take (Z.to_nat size) (drop (Z.to_nat i) items).
Proof.
  intros Hi Hsize. unfold slice. cbv zeta.
  rewrite (proj2 (Z.ltb_ge i 0)) by lia.
  rewrite (proj2 (Z.ltb_ge (i + size) 0)) by lia.
  destruct (decide (i + size ≤ Z.of_nat (length items))%Z) as [Hin|Hout].
  - rewrite !Z.min_l by lia. f_equal. lia.
  - rewrite (Z.min_r (i + size)) by lia.
    destruct (decide (i ≤ Z.of_nat (length items))%Z).
    + rewrite Z.min_l by lia.
      rewrite !take_ge; [done| |]; rewrite length_drop; lia.
    + rewrite Z.min_r by lia.
      rewrite !drop_ge by lia. by rewrite !take_nil.
Qed.

Lemma createBatches_from_spec items (size : Z) :
  (0 < size)%Z →
  ∀ fuel (i : nat) batches,
    length items - i < fuel →
    ∃ more,
      createBatches_from fuel items size (Z.of_nat i) batches = Some (batches ++ more)
      ∧ mjoin more = drop i items
      ∧ batched (Z.to_nat size) more.
Proof.
  intros Hsize. induction fuel as [|fuel IH]; intros i batches Hfuel; [lia|].
  cbn [createBatches_from].
  destruct (Z.ltb_spec (Z.of_nat i) (Z.of_nat (length items))) as [Hlt|Hge].
  - rewrite slice_inside by lia. rewrite Nat2Z.id.
    replace (Z.of_nat i + size)%Z with (Z.of_nat (i + Z.to_nat size)) by lia.
    destruct (IH (i + Z.to_nat size) (batches ++ [take (Z.to_nat size) (drop i items)]))
      as (more & -> & Hjoin & Hb); [lia|].
    exists (take (Z.to_nat size) (drop i items) :: more).
    rewrite <- app_assoc. split; [done|]. split.
    + change (mjoin (?a :: ?l)) with (a ++ mjoin l). rewrite Hjoin.
      rewrite <- drop_drop. apply take_drop.
    + destruct more as [|batch more].
      * simpl. rewrite length_take, length_drop. lia.
      * change (length (take (Z.to_nat size) (drop i items)) = Z.to_nat size
                ∧ batched (Z.to_nat size) (batch :: more)).
        split; [|done]. rewrite length_take, length_drop.
        destruct (decide (i + Z.to_nat size < length items)) as [|Hshort]; [lia|].
        exfalso. rewrite drop_ge in Hjoin by lia.
        change (mjoin (batch :: more)) with (batch ++ mjoin more) in Hjoin.
        apply app_eq_nil in Hjoin as [-> _].
        destruct more; simpl in Hb; lia.
  - exists []. rewrite app_nil_r. split; [done|].
    split; [|done]. rewrite drop_ge by lia. done.
Qed.

Lemma createBatches_from_loops items (size : Z) :
  (size < 0)%Z → items ≠ [] →
  ∀ fuel (i : Z) batches,
    (i ≤ 0)%Z → createBatches_from fuel items size i batches = None.
Proof.
  intros Hsize Hitems. induction fuel as [|fuel IH]; intros i batches Hi;
    cbn [createBatches_from];
    (destruct (Z.ltb_spec i (Z.of_nat (length items))) as [Hlt|Hge];
     [|destruct items; [done|simpl in Hge; lia]]).
  - done.
  - apply IH. lia.
Qed.

(** [createBatches] with a positive size returns the items in order, in
    batches of that size but for a last, shorter one that is not empty.
    With a negative size and an item to batch the loop never ends. *)
Theorem createBatches_spec items (size : Z) :
  ((0 < size)%Z →
   ∃ batches,
     createBatches (S (length items)) items size = Some batches
     ∧ mjoin batches = items
     ∧ batched (Z.to_nat size) batches)
  ∧ ((size < 0)%Z → items ≠ [] → ∀ fuel, createBatches fuel items size = None).
Proof.
  split.
  - intros Hsize.
    destruct (createBatches_from_spec items size Hsize (S (length items)) 0 [])
      as (more & Hrun & Hjoin & Hb); [lia|].
    exists more. done.
  - intros Hsize Hitems fuel. by apply createBatches_from_loops.
Qed.

End Batches.

(** *** [generateImages] *)

Section Generation.
Import ImageProcessingAnalyzer PostProcessingOrchestrator.
Context `{Runtime}.

Variable generateImageMock : nat → ImageMockOptions → jsstring + ImageMockResult.
Variable undefined_message : jsstring.
Variable uploadToCloud : bool.
Variable maxConcurrentGenerations : Z.

Local Abbreviation processGroup := (processGroup generateImageMock undefined_message uploadToCloud).
Local Abbreviation settled := (settled generateImageMock undefined_message uploadToCloud).
Local Abbreviation generateImages :=
  (generateImages generateImageMock undefined_message uploadToCloud
                  maxConcurrentGenerations).

(** *** [sortGroupsByPriority] *)

Lemma averagePriority_number group :
  variants group ≠ [] → ∃ avg, averagePriority group = Fin avg.
Proof.
  intros Hne. unfold averagePriority, jdiv.
  destruct (Qeq_bool (inject_Z (Z.of_nat (length (variants group)))) 0) eqn:Hz;
    [|by eexists].
  apply Qeq_bool_iff in Hz. exfalso.
  assert (0 < inject_Z (Z.of_nat (length (variants group))))%Q; [|lra].
  change 0%Q with (inject_Z 0). rewrite <- Zlt_Qlt.
  destruct (variants group); [done|simpl; lia].
Qed.

Lemma insertGroup_perm group avg sorted :
  (insertGroup group avg sorted).*1 ≡ₚ group :: sorted.*1.
Proof.
  induction sorted as [|[b avgB] sorted IH]; [done|]. simpl.
  destruct (Qle_bool avgB avg); [done|]. simpl. rewrite IH. apply Permutation_swap.
Qed.

Lemma insertGroup_sorted group avg sorted :
  averagePriority group = Fin avg →
  Forall (λ p, averagePriority p.1 = Fin p.2) sorted →
  Sorted ahead sorted.*1 →
  Forall (λ p, averagePriority p.1 = Fin p.2) (insertGroup group avg sorted)
  ∧ Sorted ahead (insertGroup group avg sorted).*1.
Proof.
  intros Havg. induction sorted as [|[b avgB] sorted IH]; intros Hall Hsorted.
  - simpl. split; repeat constructor. done.
  - apply Forall_cons in Hall as [Hb Hall]. simpl in Hb.
    apply Sorted_inv in Hsorted as [Hsorted Hhd]. simpl.
    destruct (Qle_bool avgB avg) eqn:Hle.
    + apply Qle_bool_iff in Hle. split; [by repeat constructor|].
      simpl. constructor; [by constructor|]. constructor.
      unfold ahead. by rewrite Havg, Hb.
    + destruct (IH Hall Hsorted) as [Hall' Hsorted'].
      split; [by constructor|]. simpl. constructor; [done|].
      assert (¬ (avgB <= avg)%Q) as Hlt.
      { intros Hc. apply Qle_bool_iff in Hc. congruence. }
      destruct sorted as [|[c avgC] sorted]; simpl.
      * constructor. unfold ahead. rewrite Havg, Hb. lra.
      * destruct (Qle_bool avgC avg); simpl.
        -- constructor. unfold ahead. rewrite Havg, Hb. lra.
        -- constructor. by apply HdRel_inv in Hhd.
Qed.

Lemma sortGroupsByPriority_spec (groups : list ProcessingGroup) :
  Forall (λ group, variants group ≠ []) groups →
  ∃ sorted,
    sortGroupsByPriority groups = Some sorted
    ∧ sorted ≡ₚ groups
    ∧ Sorted ahead sorted.
Proof.
  intros Hne. unfold sortGroupsByPriority.
  assert (∃ pairs,
            foldr
              (λ group sorted,
                 sorted ← sorted;
                 match averagePriority group with
                 | Fin avg => Some (insertGroup group avg sorted)
                 | _ => None
                 end)
              (Some []) groups = Some pairs
            ∧ pairs.*1 ≡ₚ groups
            ∧ Forall (λ p, averagePriority p.1 = Fin p.2) pairs
            ∧ Sorted ahead pairs.*1) as (pairs & -> & Hperm & _ & Hsorted).
  { induction Hne as [|group groups Hgroup _ IH].
    - exists []. repeat split; constructor.
    - destruct IH as (pairs & Hrun & Hperm & Hall & Hsorted).
      destruct (averagePriority_number group Hgroup) as (avg & Havg).
      cbn [foldr]. rewrite Hrun. cbn [mbind option_bind]. rewrite Havg.
      exists (insertGroup group avg pairs). split; [done|].
      split; [by rewrite insertGroup_perm, Hperm|].
      by apply insertGroup_sorted. }
  by exists pairs.*1.
Qed.

(** *** [processGroup] *)

Lemma processGroup_rejects k group :
  processGroup k group = None
  ↔ Forall (λ v, processingType v ≠ generate) (variants group).
Proof.
  unfold PostProcessingOrchestrator.processGroup.
  destruct (find _ (variants group)) as [masterPlan|] eqn:Hfind.
  - split; [done|]. intros Hall. exfalso.
    apply find_some in Hfind as [Hin Ht]. apply list_elem_of_In in Hin.
    rewrite Forall_forall in Hall. apply (Hall _ Hin).
    by apply bool_decide_eq_true in Ht.
  - split; [|done]. intros _. apply Forall_forall. intros v Hv Ht.
    apply list_elem_of_In in Hv.
    apply (find_none _ _ Hfind) in Hv. by apply bool_decide_eq_false in Hv.
Qed.

(** One result for each variant, in order: all of them failures with no new
    URL, or all of them successes with the one image of the master. *)
Definition allFailed (group : ProcessingGroup) (results : list GeneratedImage) : Prop :=
  ∃ errorMsg,
    results
    = (λ variant,
         {| gen_originalUrl := imageId variant; gen_newUrl := [];
            gen_cdnUrl := None; gen_path := imageId variant;
            gen_success := false; gen_error := Some errorMsg |})
        <$> variants group.

Definition allFrom (group : ProcessingGroup) (results : list GeneratedImage) : Prop :=
  ∃ masterResult,
    truthy_str (mock_imageUrl masterResult) = true
    ∧ results
      = (λ variant,
           {| gen_originalUrl := imageId variant;
              gen_newUrl := mock_imageUrl masterResult;
              gen_cdnUrl := mock_cdnUrl masterResult;
              gen_path := imageId variant;
              gen_success := true; gen_error := None |})
          <$> variants group.

Lemma processGroup_results k group results :
  processGroup k group = Some results →
  allFailed group results ∨ allFrom group results.
Proof.
  unfold PostProcessingOrchestrator.processGroup.
  destruct (find _ (variants group)) as [masterPlan|]; [|done].
  intros [= <-]. destruct (description masterPlan) as [d|]; [|left; by eexists].
  destruct (generateImageMock _ _) as [errorMsg|masterResult]; [left; by eexists|].
  destruct (truthy_str (mock_imageUrl masterResult)) eqn:Hurl.
  - right. by exists masterResult.
  - left. by eexists.
Qed.

Lemma settled_paths k group :
  gen_path <$> settled k group = imageId <$> variants group.
Proof.
  unfold PostProcessingOrchestrator.settled.
  destruct (processGroup k group) as [results|] eqn:Hp.
  - apply processGroup_results in Hp as [(e & ->)|(m & _ & ->)];
      rewrite <- list_fmap_compose; by apply list_fmap_ext.
  - rewrite <- list_fmap_compose. by apply list_fmap_ext.
Qed.

(** What holds of every entry pushed: a success has a new URL that is not
    empty, a failure has the empty one. *)
Definition wellSettled (r : GeneratedImage) : Prop :=
  if gen_success r then truthy_str (gen_newUrl r) = true else gen_newUrl r = [].

Lemma settled_results k group :
  Forall wellSettled (settled k group).
Proof.
  unfold PostProcessingOrchestrator.settled.
  destruct (processGroup k group) as [results|] eqn:Hp.
  - apply processGroup_results in Hp as [(e & ->)|(m & Hm & ->)];
      apply Forall_fmap, Forall_true; done.
  - by apply Forall_fmap, Forall_true.
Qed.

Lemma settled_keys k group :
  ¬ Forall (λ v, processingType v ≠ generate) (variants group) →
  Forall (λ r, gen_originalUrl r = gen_path r) (settled k group).
Proof.
  intros Hmaster. unfold PostProcessingOrchestrator.settled.
  destruct (processGroup k group) as [results|] eqn:Hp.
  - apply processGroup_results in Hp as [(e & ->)|(m & Hm & ->)];
      apply Forall_fmap, Forall_true; done.
  - by apply processGroup_rejects in Hp.
Qed.

(** *** [generateImages] *)

Lemma settle_fold (batches : list (list ProcessingGroup)) k results :
  fold_left
    (λ '(k, results) batch,
       (k + length batch,
        results ++ mjoin (imap (λ j group, settled (k + j) group) batch)))
    batches (k, results)
  = (k + length (mjoin batches),
     results ++ mjoin (imap (λ j group, settled (k + j) group) (mjoin batches))).
Proof.
  revert k results. induction batches as [|batch batches IH]; intros k results.
  - simpl. by rewrite Nat.add_0_r, app_nil_r.
  - cbn [fold_left]. rewrite IH.
    change (mjoin (batch :: batches)) with (batch ++ mjoin batches).
    rewrite length_app, imap_app, join_app, Nat.add_assoc, <- app_assoc.
    do 4 f_equal. apply imap_ext. intros j group _. simpl. f_equal. lia.
Qed.

Lemma generateImages_run (optimization : OptimizationResult) :
  Forall (λ group, variants group ≠ []) (groups optimization) →
  (0 ≤ maxConcurrentGenerations)%Z →
  ∃ sorted,
    sortGroupsByPriority (groups optimization) = Some sorted
    ∧ sorted ≡ₚ groups optimization
    ∧ Sorted ahead sorted
    ∧ generateImages (S (length (groups optimization))) optimization
      = Some (mjoin (imap settled sorted)).
Proof.
  intros Hne Hlimit.
  destruct (sortGroupsByPriority_spec _ Hne) as (sorted & Hsort & Hperm & Hsorted).
  exists sorted. split; [done|]. split; [done|]. split; [done|].
  unfold PostProcessingOrchestrator.generateImages. rewrite Hsort.
  cbn [mbind option_bind].
  set (limit := if (maxConcurrentGenerations =? 0)%Z then 3%Z
                else maxConcurrentGenerations).
  assert (0 < limit)%Z as Hpos.
  { unfold limit. destruct (Z.eqb_spec maxConcurrentGenerations 0); lia. }
  destruct (createBatches_from_spec sorted limit Hpos
              (S (length (groups optimization))) 0 [])
    as (batches & Hrun & Hjoin & _).
  { rewrite Hperm. lia. }
  unfold createBatches. change 0%Z with (Z.of_nat 0). rewrite Hrun.
  cbn [mbind option_bind app].
  rewrite settle_fold. simpl. by rewrite Hjoin.
Qed.

(** [processGroup] is rejected exactly for a group without a [generate]
    plan.  Otherwise it asks the generator once and returns one entry for
    each variant, in order, all alike: failures with an empty new URL when
    the master has no description, the generator throws or its image has no
    URL, and otherwise successes that all carry the URLs of the master's
    image.  The original URL of an entry is the variant's identifier. *)
Theorem processGroup_all_or_nothing k group :
  (processGroup k group = None
   ↔ Forall (λ v, processingType v ≠ generate) (variants group))
  ∧ ∀ results,
      processGroup k group = Some results →
      allFailed group results ∨ allFrom group results.
Proof.
  split; [apply processGroup_rejects|]. intros results. apply processGroup_results.
Qed.

Lemma settled_all (f : nat → nat) (P : GeneratedImage → Prop)
    (sorted : list ProcessingGroup) :
  (∀ k group, group ∈ sorted → Forall P (settled k group)) →
  Forall P (mjoin (imap (λ j group, settled (f j) group) sorted)).
Proof.
  revert f. induction sorted as [|group sorted IH]; intros f Hall; [constructor|].
  rewrite imap_cons. change (mjoin (?a :: ?l)) with (a ++ mjoin l).
  apply Forall_app. split; [apply Hall; by left|].
  apply (IH (f ∘ S)). intros k g Hg. apply Hall. by right.
Qed.

Lemma settled_all_paths (f : nat → nat) (sorted : list ProcessingGroup) :
  gen_path <$> mjoin (imap (λ j group, settled (f j) group) sorted) = planIds sorted.
Proof.
  unfold planIds. revert f.
  induction sorted as [|group sorted IH]; intros f; [done|].
  rewrite imap_cons, bind_cons. change (mjoin (?a :: ?l)) with (a ++ mjoin l).
  rewrite fmap_app, settled_paths. f_equal. apply (IH (f ∘ S)).
Qed.

(** When every group has a variant and the limit is not negative,
    [generateImages] returns.  The groups are taken by average priority,
    the greatest first, and the result has the entries of each group in
    turn, so one entry for each variant of the plan, with the variant's
    identifier as its path; a success has a new URL, a failure the empty
    one. *)
Theorem generateImages_settles_every_variant (optimization : OptimizationResult) :
  Forall (λ group, variants group ≠ []) (groups optimization) →
  (0 ≤ maxConcurrentGenerations)%Z →
  ∃ sorted results,
    sortGroupsByPriority (groups optimization) = Some sorted
    ∧ sorted ≡ₚ groups optimization
    ∧ Sorted ahead sorted
    ∧ generateImages (S (length (groups optimization))) optimization = Some results
    ∧ results = mjoin (imap settled sorted)
    ∧ gen_path <$> results = planIds sorted
    ∧ Forall wellSettled results.
Proof.
  intros Hne Hlimit.
  destruct (generateImages_run optimization Hne Hlimit)
    as (sorted & Hsort & Hperm & Hsorted & Hrun).
  exists sorted, (mjoin (imap settled sorted)).
  repeat split; try done.
  - apply (settled_all_paths id).
  - apply (settled_all id). intros k group _. apply settled_results.
Qed.

Lemma planned_master (images : list ImageUrlInfo)
    (descriptions : gmap jsstring ImageDescription)
    (similarityGroups : list (list ImageUrlInfo)) (processingGroups : list ProcessingGroup) :
  Forall2 (planned descriptions) similarityGroups processingGroups →
  Forall (λ group, ∃ v rest, variants group = v :: rest ∧ processingType v = generate)
         processingGroups.
Proof.
  induction 1 as [|g pg gs pgs (m & rest & _ & _ & _ & Hv & _) _ IH]; constructor;
    [|done].
  by exists (masterPlan m descriptions), rest.
Qed.

(** The fourth stage on the plan of the analyzer, with a limit that is not
    negative: [generateImages] returns one entry for each planned
    occurrence, no group is rejected, and the [originalUrl] of every entry
    is the path of the occurrence in the document, not its URL; so the maps
    [createUrlMappings] makes of the entries are keyed by paths. *)
Theorem generated_entries_are_keyed_by_path (h : heap) (images : list ImageUrlInfo)
    (descriptions : gmap jsstring ImageDescription) :
  (0 ≤ maxConcurrentGenerations)%Z →
  ∃ optimization results,
    createProcessingPlan h images descriptions = Some optimization
    ∧ generateImages (S (length (groups optimization))) optimization = Some results
    ∧ length results = totalImages optimization
    ∧ gen_path <$> results ≡ₚ planIds (groups optimization)
    ∧ Forall (λ r, gen_originalUrl r = gen_path r
                   ∧ ∃ image, image ∈ images ∧ path image = gen_path r) results.
Proof.
  intros Hlimit.
  destruct (createProcessingPlan_spec h images descriptions)
    as (optimization & Hplan & Hplanned & Hcounts).
  pose proof (planned_master images descriptions _ _ Hplanned) as Hmaster.
  destruct (generateImages_run optimization)
    as (sorted & Hsort & Hperm & _ & Hrun); [|done|].
  { eapply Forall_impl; [exact Hmaster|]. by intros group (v & rest & -> & _). }
  exists optimization, (mjoin (imap settled sorted)).
  split; [done|]. split; [done|].
  assert (gen_path <$> mjoin (imap settled sorted) = planIds sorted) as Hpaths
    by apply (settled_all_paths id).
  assert (planIds sorted ≡ₚ planIds (groups optimization)) as Hids.
  { unfold planIds. by rewrite Hperm. }
  split.
  { rewrite Hcounts, totalImages_planIds.
    rewrite <- Hids, <- Hpaths. by rewrite length_fmap. }
  split; [by rewrite Hpaths|].
  assert (Forall (λ r, gen_originalUrl r = gen_path r) (mjoin (imap settled sorted)))
    as Hkeys.
  { apply (settled_all id). intros k group Hgroup.
    apply settled_keys. intros Hnone.
    rewrite Hperm in Hgroup. rewrite Forall_forall in Hmaster.
    destruct (Hmaster _ Hgroup) as (v & rest & Hv & Ht).
    rewrite Hv in Hnone. by apply Forall_cons in Hnone as [Hnone _]. }
  apply Forall_forall. intros r Hr. split.
  { rewrite Forall_forall in Hkeys. by apply Hkeys. }
  assert (gen_path r ∈ planIds (groups optimization)) as Hin.
  { rewrite <- Hids, <- Hpaths. apply list_elem_of_fmap. by exists r. }
  destruct (planIds_spec h images descriptions) as (result' & Hplan' & _ & Hspec).
  rewrite Hplan in Hplan'. injection Hplan' as <-.
  rewrite Hspec in Hin. apply list_elem_of_fmap in Hin as (image & Hpath & Himage).
  exists image. split; [|done].
  destruct (groupBySimilarity_spec h images descriptions) as (_ & Hfrom & _).
  by apply Hfrom.
Qed.

(** [createBasicPlan] makes one group of one [generate] plan for each
    occurrence, in order.  Its counters are those [calculateOptimizationResult]
    computes from its groups, and so is its saving of 0 but on an empty
    list, where the analyzer has [NaN]. *)
Theorem createBasicPlan_counts (images : list ImageUrlInfo)
    (descriptions : gmap jsstring ImageDescription) :
  let plan := createBasicPlan images descriptions in
  let counted := calculateOptimizationResult (groups plan) in
  planIds (groups plan) = path <$> images
  ∧ Forall (λ group, ∃ v, variants group = [v] ∧ processingType v = generate)
           (groups plan)
  ∧ totalImages counted = totalImages plan
  ∧ generatedImages counted = generatedImages plan
  ∧ resizedImages counted = 0 ∧ croppedImages counted = 0 ∧ reusedImages counted = 0
  ∧ match estimatedSavings counted with
    | Fin q => images ≠ [] ∧ (q == 0)%Q
    | NaN => images = []
    | _ => False
    end.
Proof.
  cbv zeta. unfold createBasicPlan. cbn [groups totalImages generatedImages].
  set (basic := λ img : ImageUrlInfo, _).
  assert (planIds (basic <$> images) = path <$> images) as Hids.
  { unfold planIds. induction images as [|img imgs IH]; [done|].
    rewrite !fmap_cons, bind_cons, IH. done. }
  assert (∀ t, length (filterPlansByType (basic <$> images) t)
               = if bool_decide (t = generate) then length images else 0) as Htypes.
  { clear Hids. intros t. unfold filterPlansByType.
    induction images as [|img imgs IH]; [by case_bool_decide|].
    rewrite fmap_cons, bind_cons, length_app, IH. cbn [variants basic].
    rewrite filter_cons, filter_nil. cbn [processingType].
    destruct (decide (generate = t)) as [<-|Hne].
    - by rewrite bool_decide_eq_true_2.
    - rewrite bool_decide_eq_false_2 by done. done. }
  assert (sumTotalCosts (basic <$> images) == inject_Z (Z.of_nat (length images)))%Q
    as Hcosts.
  { clear Hids Htypes. unfold sumTotalCosts. induction images as [|img imgs IH]; [done|].
    rewrite fmap_cons. cbn [foldr length]. rewrite IH. cbn [totalCost basic].
    rewrite Nat2Z.inj_succ, <- Z.add_1_l, inject_Z_plus. done. }
  split; [done|]. split.
  { apply Forall_fmap, Forall_true. intros img. by eexists. }
  unfold calculateOptimizationResult.
  destruct (totals_fold (basic <$> images) 0 0%Q 0%Q)
    as (n & w & o & Hf & Hn & Hw & Ho).
  rewrite Hf.
  cbn [totalImages generatedImages resizedImages croppedImages reusedImages
       estimatedSavings].
  rewrite !countType_filterPlansByType, !Htypes. simpl bool_decide.
  rewrite Hids, length_fmap in Hn, Hw. rewrite Hcosts in Ho.
  split; [lia|]. split; [done|]. split; [done|]. split; [done|]. split; [done|].
  unfold jdiv. destruct images as [|img imgs].
  - change (inject_Z (Z.of_nat (length []))) with 0%Q in Hw, Ho.
    assert (Qeq_bool w 0 = true) as -> by (apply Qeq_bool_iff; lra).
    assert (Qeq_bool (w - o) 0 = true) as ->; [|done].
    apply Qeq_bool_iff. lra.
  - assert (0 < inject_Z (Z.of_nat (length (img :: imgs))))%Q as Hpos.
    { change 0%Q with (inject_Z 0). rewrite <- Zlt_Qlt. simpl. lia. }
    destruct (Qeq_bool w 0) eqn:Hz; [apply Qeq_bool_iff in Hz; lra|].
    cbn [jmul]. split; [done|].
    assert (w - o == 0)%Q as -> by lra. unfold Qdiv. lra.
Qed.

End Generation.

(** ** The pipeline on concrete documents *)

Section Concrete.
Import Examples ImageProcessingAnalyzer.

(** Against claim C1.  In [widget] both occurrences sit in one object with
    a [name], so their contexts agree and they share a group; the icon is a
    tenth of the master in each direction, which is neither a reuse, nor a
    resize, nor a crop: the group has two [generate] plans without
    [sourceImageId]. *)
Lemma second_generation_in_a_group :
  (λ r, (λ g, summary <$> variants g) <$> groups r) <$> analysed widget
  = Some [[(js "image", generate, None, 1%Q); (js "icon", generate, None, 1%Q)]].
Proof. vm_compute. reflexivity. Qed.

(** Against claim C4.  No group of the plan for [twoFields] holds both
    occurrences. *)
Lemma thumb_and_banner_apart :
  ¬ ∃ result g,
      analysed twoFields = Some result
      ∧ g ∈ groups result
      ∧ js "thumb" ∈ imageId <$> variants g
      ∧ js "banner" ∈ imageId <$> variants g.
Proof.
  intros (result & g & Hr & Hg & Hthumb & Hbanner).
  assert ((λ r, (λ g, imageId <$> variants g) <$> groups r) <$> analysed twoFields
          = Some [[js "thumb"]; [js "banner"]]) as Hids
    by (vm_compute; reflexivity).
  rewrite Hr in Hids. simpl in Hids. injection Hids as Hids.
  apply (list_elem_of_fmap_2 (λ g, imageId <$> variants g)) in Hg.
  rewrite Hids in Hg.
  apply elem_of_cons in Hg as [Hg|Hg].
  - rewrite Hg in Hbanner. apply list_elem_of_singleton in Hbanner.
    by vm_compute in Hbanner.
  - apply list_elem_of_singleton in Hg. rewrite Hg in Hthumb.
    apply list_elem_of_singleton in Hthumb. by vm_compute in Hthumb.
Qed.

(** Claim C4, as the code has it.  For [twoFields] the categories of the two
    descriptions are [generic] and [banner] and five of nine prompt words
    are shared, which makes a description similarity of 38/90; the object
    has no key field, which makes a context similarity of 0.  Both are below
    the threshold, and the plan has one group per occurrence, each a single
    [generate] plan of cost 1.  In any plan, a variant other than the master
    whose dimensions are the master's is a [reuse] of the master at cost
    1/10. *)
Theorem identical_dimensions_scenario :
  match extracted twoFields with
  | [thumb; banner] =>
      match described twoFields !! path thumb, described twoFields !! path banner with
      | Some d1, Some d2 =>
          (calculateDescriptionSimilarity d1 d2 == 38 # 90)%Q
          ∧ (calculateContextSimilarity twoFields thumb banner == 0)%Q
      | _, _ => False
      end
  | _ => False
  end
  ∧ (λ r, (λ g, summary <$> variants g) <$> groups r) <$> analysed twoFields
    = Some [[(js "thumb", generate, None, 1%Q)]; [(js "banner", generate, None, 1%Q)]]
  ∧ ∀ (R : Runtime) (h : heap) (images : list ImageUrlInfo)
      (descriptions : gmap jsstring ImageDescription),
      ∃ result,
        createProcessingPlan h images descriptions = Some result
        ∧ Forall
            (λ g,
               ∃ master rest,
                 variants g = master :: rest
                 ∧ Forall
                     (λ v,
                        targetDimensions v = groupTargetDimensions g →
                        processingType v = reuse
                        ∧ estimatedCost v = (1 # 10)%Q
                        ∧ sourceImageId v = Some (masterImageId g))
                     rest)
            (groups result).
Proof.
  split; [|split].
  - vm_compute. split; reflexivity.
  - vm_compute. reflexivity.
  - intros R h images descriptions. apply reuse_of_identical_dimensions.
Qed.


(** Against claim C5.  The plan for no occurrence at all has no savings
    between 0 and 100. *)
Lemma savings_of_nothing :
  ¬ ∃ result q,
      createProcessingPlan [] [] ∅ = Some result
      ∧ estimatedSavings result = Fin q ∧ (0 <= q <= 100)%Q.
Proof.
  intros (result & q & Hr & Hs & _).
  vm_compute in Hr. injection Hr as <-. discriminate Hs.
Qed.

(** Claim C3 fails on [listing]: the extractor reports one occurrence, the
    replacer handles two strings. *)
Lemma replacer_counts_what_extractor_skips :
  ImageUrlExtractor.totalFound <$> ImageUrlExtractor.extractPicsumUrls 2 listing (VRef 0)
  = Some 1
  ∧ (λ r, UrlReplacer.replacedCount r.1 + UrlReplacer.failedCount r.1)
      <$> UrlReplacer.replaceUrls 2 listing (VRef 0) [] None UrlReplacer.defaultOptions
    = Some 2.
Proof. split; vm_compute; reflexivity. Qed.

(** And on [upperScheme] the other way round: the extractor reports one
    occurrence, the replacer handles none. *)
Lemma extractor_counts_what_replacer_skips :
  ImageUrlExtractor.totalFound
    <$> ImageUrlExtractor.extractPicsumUrls 2 upperScheme (VRef 0)
  = Some 1
  ∧ (λ r, UrlReplacer.replacedCount r.1 + UrlReplacer.failedCount r.1)
      <$> UrlReplacer.replaceUrls 2 upperScheme (VRef 0) [] None UrlReplacer.defaultOptions
    = Some 0.
Proof. split; vm_compute; reflexivity. Qed.

(** Against claim C7.  With no entry in [urlMappings] and one in
    [cdnMappings], the default options write the CDN URL over the original
    and record it as a [fallback]. *)
Lemma fallback_writes_cdn_url :
  (λ r, (match UrlReplacer.modifiedData r.1 with
         | VRef l => r.2 !! l
         | _ => None
         end,
         (λ m, (UrlReplacer.replacementType m, UrlReplacer.newUrl m))
           <$> UrlReplacer.mappings r.1))
    <$> UrlReplacer.replaceUrls 2
          [NObj [(js "img", VStr (js "https://picsum.photos/200/300"))]] (VRef 0)
          []
          (Some [(js "https://picsum.photos/200/300", js "https://cdn.example/x.png")])
          UrlReplacer.defaultOptions
  = Some (Some (NObj [(js "img", VStr (js "https://cdn.example/x.png"))]),
          [(UrlReplacer.fallback, js "https://cdn.example/x.png")]).
Proof. vm_compute. reflexivity. Qed.

(** Claim C8 fails for a cap below 3: the prompt is cut to nothing and the
    ellipsis alone is longer than the cap. *)
Lemma ellipsis_longer_than_cap :
  let options :=
    {| DescriptionGenerator.opt_language := None;
       DescriptionGenerator.opt_style := None;
       DescriptionGenerator.opt_includeBackground := None;
       DescriptionGenerator.opt_maxPromptLength := Some 2%Z |} in
  (λ thumb,
     let d := DescriptionGenerator.generateDescription twoFields 0 thumb options in
     (enhancedPrompt d,
      bool_decide
        (DescriptionGenerator.maxPromptLength
           (DescriptionGenerator.normalizeOptions options)
         < Z.of_nat (length (enhancedPrompt d)))%Z))
    <$> extracted twoFields !! 0
  = Some (js "...", true).
Proof. vm_compute. reflexivity. Qed.

(** *** The theorems with hypotheses, at concrete inputs *)


Lemma replaceUrls_leaves_original_witness :
  ∃ result h',
    UrlReplacer.replaceUrls 1 listing (VRef 0) [] None UrlReplacer.defaultOptions
    = Some (result, h')
    ∧ (∀ l, l < length listing → h' !! l = listing !! l)
    ∧ document 0 1 h' (VRef 0)
    ∧ document (length listing) 1 h' (UrlReplacer.modifiedData result).
Proof.
  apply (@replaceUrls_leaves_original ascii_runtime 1 listing (VRef 0) [] None
           UrlReplacer.defaultOptions).
  - simpl. split; [lia|]. split.
    + apply (bool_decide_unpack _). vm_compute. reflexivity.
    + repeat constructor.
  - simpl. discriminate.
Defined.

Lemma unresolved_url_witness :
  let originalUrl := js "https://picsum.photos/v2/list" in
  let st :=
    UrlReplacer.replaceUrl 0 (js "b") originalUrl (js "b") [] None
      (UrlReplacer.normalizeOptions UrlReplacer.defaultOptions) 0
      (listing,
       {| UrlReplacer.success := false; UrlReplacer.replacedCount := 0;
          UrlReplacer.failedCount := 0; UrlReplacer.mappings := [];
          UrlReplacer.modifiedData := VRef 0; UrlReplacer.errors := [] |}) in
  UrlReplacer.replacedCount st.2 = 1
  ∧ UrlReplacer.failedCount st.2 = 0
  ∧ UrlReplacer.errors st.2 = []
  ∧ ∃ written,
      st.1 = UrlReplacer.setField 0 (js "b") (VStr written) listing
      ∧ UrlReplacer.mappings st.2
        = [{| UrlReplacer.originalUrl := originalUrl; UrlReplacer.newUrl := written;
              UrlReplacer.cdnUrl := None;
              UrlReplacer.mappingPath := js "b"; UrlReplacer.mappingFieldName := js "b";
              UrlReplacer.mappingItemIndex := 0;
              UrlReplacer.replacementType := UrlReplacer.fallback |}]
      ∧ written = originalUrl
      ∧ (written = originalUrl → st.1 = listing).
Proof.
  exact (@unresolved_url ascii_runtime 0 (js "b") (js "https://picsum.photos/v2/list")
           (js "b") [] None (UrlReplacer.normalizeOptions UrlReplacer.defaultOptions) 0
           listing
           {| UrlReplacer.success := false; UrlReplacer.replacedCount := 0;
              UrlReplacer.failedCount := 0; UrlReplacer.mappings := [];
              UrlReplacer.modifiedData := VRef 0; UrlReplacer.errors := [] |}
           [(js "a", VStr (js "https://picsum.photos/200/300"));
            (js "b", VStr (js "https://picsum.photos/v2/list"))]
           eq_refl eq_refl eq_refl eq_refl eq_refl).
Defined.

Lemma enhancePrompt_length_witness :
  (Z.of_nat
     (length
        (DescriptionGenerator.enhancePrompt 0 (js "a prompt of some length")
           {| DescriptionGenerator.ctx_description := [];
              DescriptionGenerator.ctx_confidence := 1;
              DescriptionGenerator.ctx_keywords := [] |}
           {| DescriptionGenerator.language := js "italian";
              DescriptionGenerator.optStyle := js "professional";
              DescriptionGenerator.includeBackground := true;
              DescriptionGenerator.maxPromptLength := 10 |}))
   ≤ 10)%Z.
Proof.
  apply (enhancePrompt_length 0 (js "a prompt of some length")
           {| DescriptionGenerator.ctx_description := [];
              DescriptionGenerator.ctx_confidence := 1;
              DescriptionGenerator.ctx_keywords := [] |}
           {| DescriptionGenerator.language := js "italian";
              DescriptionGenerator.optStyle := js "professional";
              DescriptionGenerator.includeBackground := true;
              DescriptionGenerator.maxPromptLength := 10 |}).
  simpl. lia.
Defined.

Lemma createUrlMappings_cdn_within_witness :
  let maps :=
    UrlReplacer.createUrlMappings
      [{| UrlReplacer.res_originalUrl := js "image";
          UrlReplacer.res_newUrl := js "https://cdn.example/x.png";
          UrlReplacer.res_cdnUrl := Some (js "https://cdn.example/x.png");
          UrlReplacer.res_success := true |}] in
  Some maps.1.2 ≫= UrlReplacer.mapGet (js "https://picsum.photos/200/300") = None.
Proof.
  exact (createUrlMappings_cdn_within
           [{| UrlReplacer.res_originalUrl := js "image";
               UrlReplacer.res_newUrl := js "https://cdn.example/x.png";
               UrlReplacer.res_cdnUrl := Some (js "https://cdn.example/x.png");
               UrlReplacer.res_success := true |}]
           (js "https://picsum.photos/200/300") eq_refl).
Defined.

Lemma undescribed_occurrences_are_dropped_witness :
  (∃ result,
     createProcessingPlan widget (extracted widget)
       (delete (js "icon") (described widget)) = Some result
     ∧ ∀ i, i ∈ extracted widget →
            delete (js "icon") (described widget) !! path i = None →
            path i ∉ planIds (groups result))
  ∧ (∀ i, i ∈ extracted widget → is_Some (described widget !! path i)).
Proof.
  destruct (@undescribed_occurrences_are_dropped ascii_runtime widget (extracted widget))
    as [Hdrop Hcover].
  split.
  - exact (Hdrop (delete (js "icon") (described widget))).
  - exact (Hcover DescriptionGenerator.defaultOptions).
Defined.

(** *** More theorems with hypotheses, at concrete inputs *)

Lemma groups_by_dimensions_witness :
  let groups := ImageUrlExtractor.groupBySimilarDimensions (extracted widget) in
  NoDup groups.*1
  ∧ ∀ k imgs,
      (k, imgs) ∈ groups
      ↔ imgs ≠ []
        ∧ ∃ d, k = ImageUrlExtractor.dimensionKey d
               ∧ imgs = filter (λ i, dimensions i = d) (extracted widget).
Proof.
  apply (groups_by_dimensions (extracted widget)).
  apply (bool_decide_unpack _). vm_compute. reflexivity.
Defined.

Lemma extraction_stats_add_up_witness :
  ∃ result,
    ImageUrlExtractor.extractPicsumUrls 2 twoFields (VRef 0) = Some result
    ∧ ImageUrlExtractor.duplicateCount (ImageUrlExtractor.getExtractionStats result)
      + ImageUrlExtractor.uniqueUrls result
      = ImageUrlExtractor.totalFound result
    ∧ countAll (ImageUrlExtractor.dimensionDistribution (ImageUrlExtractor.getExtractionStats result))
      = ImageUrlExtractor.totalFound result
    ∧ countAll (ImageUrlExtractor.fieldTypeDistribution (ImageUrlExtractor.getExtractionStats result))
      = ImageUrlExtractor.totalFound result.
Proof.
  destruct (ImageUrlExtractor.extractPicsumUrls 2 twoFields (VRef 0))
    as [result|] eqn:Hresult.
  - exists result. split; [reflexivity|].
    exact (@extraction_stats_add_up ascii_runtime 2 twoFields (VRef 0) result Hresult).
  - vm_compute in Hresult. discriminate Hresult.
Defined.

Lemma extraction_sound_and_complete_witness :
  ∃ result,
    ImageUrlExtractor.extractPicsumUrls 1 twoFields (VRef 0) = Some result
    ∧ ImageUrlExtractor.totalFound result = length (ImageUrlExtractor.images result)
    ∧ Forall (extractedFrom twoFields) (ImageUrlExtractor.images result)
    ∧ ∀ l key s, inside 1 twoFields (VRef 0) l → placeholder twoFields l key s →
                 reports (ImageUrlExtractor.images result) l key s.
Proof.
  apply (@extraction_sound_and_complete ascii_runtime twoFields 1 (VRef 0)).
  simpl. split; [lia|]. split.
  - apply (bool_decide_unpack _). vm_compute. reflexivity.
  - repeat constructor.
Defined.

Lemma placeholder_urls_read_back_witness :
  (ImageUrlExtractor.isPicsumUrl (sizedUrl 200 300) = true
   ∧ ImageUrlExtractor.extractDimensions (sizedUrl 200 300)
     = Some {| width := 200; height := 300 |}
   ∧ ImageUrlExtractor.extractSeed (sizedUrl 200 300) = None)
  ∧ (UrlReplacer.isPicsumUrl (sizedUrl 200 300) = true
     ∧ UrlReplacer.extractDimensions (sizedUrl 200 300)
       = Some {| width := 200; height := 300 |}
     ∧ UrlReplacer.extractSeed (sizedUrl 200 300) = None)
  ∧ (ImageUrlExtractor.isPicsumUrl (squareUrl 400) = true
     ∧ ImageUrlExtractor.extractDimensions (squareUrl 400)
       = Some {| width := 400; height := 400 |}
     ∧ ImageUrlExtractor.extractSeed (squareUrl 400) = None)
  ∧ (UrlReplacer.isPicsumUrl (squareUrl 400) = true
     ∧ UrlReplacer.extractDimensions (squareUrl 400)
       = Some {| width := 400; height := 400 |}
     ∧ UrlReplacer.extractSeed (squareUrl 400) = None).
Proof.
  apply (placeholder_urls_read_back 200 300 400); reflexivity.
Defined.

Lemma seeded_urls_read_back_witness :
  (ImageUrlExtractor.isPicsumUrl (seededUrl (js "abc") 200 300) = true
   ∧ ImageUrlExtractor.extractDimensions (seededUrl (js "abc") 200 300)
     = Some {| width := 200; height := 300 |}
   ∧ ImageUrlExtractor.extractSeed (seededUrl (js "abc") 200 300) = Some (js "abc"))
  ∧ (UrlReplacer.isPicsumUrl (seededUrl (js "abc") 200 300) = true
     ∧ UrlReplacer.extractDimensions (seededUrl (js "abc") 200 300)
       = Some {| width := 200; height := 300 |}
     ∧ UrlReplacer.extractSeed (seededUrl (js "abc") 200 300) = Some (js "abc")).
Proof.
  apply (seeded_urls_read_back (js "abc") 200 300).
  - repeat constructor.
  - discriminate.
  - reflexivity.
  - reflexivity.
Defined.

Lemma deepClone_makes_a_copy_witness :
  ∃ v' k,
    UrlReplacer.deepClone 1 listing (VRef 0) = Some (v', listing ++ k)
    ∧ copyOf 1 (listing ++ k) (VRef 0) v'
    ∧ document (length listing) 1 (listing ++ k) v'.
Proof.
  apply (deepClone_makes_a_copy 1 0 listing (VRef 0)).
  simpl. split; [lia|]. split.
  - apply (bool_decide_unpack _). vm_compute. reflexivity.
  - repeat constructor.
Defined.

Lemma replacement_counts_witness :
  ∃ result h',
    UrlReplacer.replaceUrls 1 listing (VRef 0) [] None UrlReplacer.defaultOptions
    = Some (result, h')
    ∧ length (UrlReplacer.mappings result) = UrlReplacer.replacedCount result
    ∧ (UrlReplacer.success result = false
       ↔ 0 < UrlReplacer.failedCount result ∧ UrlReplacer.replacedCount result = 0)
    ∧ (UrlReplacer.opt_preserveOriginalOnFailure UrlReplacer.defaultOptions ≠ Some true →
       UrlReplacer.failedCount result = 0 ∧ UrlReplacer.success result = true
       ∧ (UrlReplacer.opt_validateUrls UrlReplacer.defaultOptions ≠ Some true →
          UrlReplacer.errors result = []))
    ∧ (UrlReplacer.opt_preserveOriginalOnFailure UrlReplacer.defaultOptions = Some true →
       UrlReplacer.opt_validateUrls UrlReplacer.defaultOptions ≠ Some true →
       length (UrlReplacer.errors result) = UrlReplacer.failedCount result).
Proof.
  apply (@replacement_counts ascii_runtime 1 listing (VRef 0) [] None
           UrlReplacer.defaultOptions).
  simpl. split; [lia|]. split.
  - apply (bool_decide_unpack _). vm_compute. reflexivity.
  - repeat constructor.
Defined.

Lemma all_failed_changes_nothing_witness :
  let imageResults :=
    [{| UrlReplacer.res_originalUrl := js "a"; UrlReplacer.res_newUrl := [];
        UrlReplacer.res_cdnUrl := None; UrlReplacer.res_success := false |}] in
  let maps := UrlReplacer.createUrlMappings imageResults in
  maps.2 = UrlReplacer.res_originalUrl <$> imageResults
  ∧ ∃ result k,
      UrlReplacer.replaceUrls 1 listing (VRef 0) maps.1.1 (Some maps.1.2)
        UrlReplacer.defaultOptions
      = Some (result, listing ++ k)
      ∧ (if UrlReplacer.backupOriginal
              (UrlReplacer.normalizeOptions UrlReplacer.defaultOptions)
         then copyOf 1 (listing ++ k) (VRef 0) (UrlReplacer.modifiedData result)
         else UrlReplacer.modifiedData result = VRef 0 ∧ k = [])
      ∧ Forall unchanged (UrlReplacer.mappings result)
      ∧ (if UrlReplacer.preserveOriginalOnFailure
              (UrlReplacer.normalizeOptions UrlReplacer.defaultOptions)
         then UrlReplacer.replacedCount result = 0
         else UrlReplacer.failedCount result = 0 ∧ UrlReplacer.success result = true).
Proof.
  apply (@all_failed_changes_nothing ascii_runtime 1 listing (VRef 0)
           [{| UrlReplacer.res_originalUrl := js "a"; UrlReplacer.res_newUrl := [];
               UrlReplacer.res_cdnUrl := None; UrlReplacer.res_success := false |}]
           UrlReplacer.defaultOptions).
  - simpl. split; [lia|]. split.
    + apply (bool_decide_unpack _). vm_compute. reflexivity.
    + repeat constructor.
  - repeat constructor.
Defined.

Lemma generateImages_settles_every_variant_witness :
  let optimization :=
    PostProcessingOrchestrator.createBasicPlan [thumbOccurrence; bannerOccurrence] ∅ in
  ∃ sorted results,
    PostProcessingOrchestrator.sortGroupsByPriority (groups optimization) = Some sorted
    ∧ sorted ≡ₚ groups optimization
    ∧ Sorted ahead sorted
    ∧ PostProcessingOrchestrator.generateImages sameImage (js "TypeError") true 3
        (S (length (groups optimization))) optimization
      = Some results
    ∧ results
      = mjoin (imap (PostProcessingOrchestrator.settled sameImage (js "TypeError") true)
                    sorted)
    ∧ PostProcessingOrchestrator.gen_path <$> results = planIds sorted
    ∧ Forall wellSettled results.
Proof.
  apply (generateImages_settles_every_variant sameImage (js "TypeError") true 3
           (PostProcessingOrchestrator.createBasicPlan
              [thumbOccurrence; bannerOccurrence] ∅)).
  - simpl. repeat constructor; discriminate.
  - lia.
Defined.

Lemma generated_entries_are_keyed_by_path_witness :
  ∃ optimization results,
    createProcessingPlan widget (extracted widget) (described widget) = Some optimization
    ∧ PostProcessingOrchestrator.generateImages sameImage (js "TypeError") true 3
        (S (length (groups optimization))) optimization
      = Some results
    ∧ length results = totalImages optimization
    ∧ PostProcessingOrchestrator.gen_path <$> results ≡ₚ planIds (groups optimization)
    ∧ Forall (λ r, PostProcessingOrchestrator.gen_originalUrl r
                   = PostProcessingOrchestrator.gen_path r
                   ∧ ∃ image, image ∈ extracted widget
                              ∧ path image = PostProcessingOrchestrator.gen_path r)
             results.
Proof.
  apply (@generated_entries_are_keyed_by_path ascii_runtime sameImage (js "TypeError")
           true 3 widget (extracted widget) (described widget)).
  lia.
Defined.

Lemma plain_keys_give_distinct_paths_witness :
  ∃ result plan,
    ImageUrlExtractor.extractPicsumUrls 1 widget (VRef 0) = Some result
    ∧ NoDup (path <$> ImageUrlExtractor.images result)
    ∧ createProcessingPlan widget (ImageUrlExtractor.images result)
        (DescriptionGenerator.generateDescriptions widget (ImageUrlExtractor.images result)
           DescriptionGenerator.defaultOptions)
      = Some plan
    ∧ ImageProcessingAnalyzer.planIds (groups plan) ≡ₚ path <$> ImageUrlExtractor.images result
    ∧ totalImages plan = ImageUrlExtractor.totalFound result.
Proof.
  apply (@plain_keys_give_distinct_paths ascii_runtime widget 1 (VRef 0)
           DescriptionGenerator.defaultOptions).
  - simpl. split; [lia|]. split.
    + apply (bool_decide_unpack _). vm_compute. reflexivity.
    + repeat constructor.
  - simpl. repeat (apply Forall_cons; split; [split; [|exact I]|]); [..|apply Forall_nil];
      apply (bool_decide_unpack _); vm_compute; reflexivity.
Defined.

End Concrete.
